(** * ImageCompressor: the compression pipeline of image_batch_compressor.py

    The Python class [ImageCompressor] copies every image to a scratch file,
    runs external optimisers on the scratch copy and overwrites the original
    only when the result is strictly smaller.  This development embeds the
    methods [create_backup], [compress_jpeg], [compress_png], [compress_gif],
    [compress_image] and [process_files] as programs over an explicit set of
    operating-system operations, gives those operations a semantics on a
    closed file system, and proves the properties of the pipeline. The
    scan [find_image_files] and the formatter [_format_size] are embedded
    as functions.

    Layout: paths and strings, the file system, the operations and the
    program monad, the embedded methods, the worker pool, the case analyses
    the proofs rest on and concrete machines; then the lemmas on the
    operations, the stages and whole runs, the properties of the
    specification, each under its number, with the concrete runs that
    accompany them, and last the further properties of the scan, of single
    jobs, of whole runs and of the formatter. *)

From Stdlib Require Import ZArith List Ascii String Bool Lia.
From Stdlib.Strings Require Import Byte.
From stdpp Require Import base gmap strings list sorting pretty.

Local Open Scope Z_scope.

(* ===================================================================== *)
(** * Paths *)
(* ===================================================================== *)

(** ASCII case folding, as [str.lower] acts on file extensions. Characters
    outside A-Z are left alone. *)
Definition lower_ascii (c : ascii) : ascii :=
  let n := nat_of_ascii c in
  if (Nat.leb 65 n && Nat.leb n 90)%bool then ascii_of_nat (n + 32)%nat else c.

Fixpoint lower (s : string) : string :=
  match s with
  | EmptyString => EmptyString
  | String c s' => String (lower_ascii c) (lower s')
  end.

Definition dot : ascii := "."%char.

(** Scanning a reversed name for its last dot: the characters after the dot
    (still reversed) and the characters before it (still reversed). *)
Fixpoint rsplit_dot (rev_name : list ascii) : option (list ascii * list ascii) :=
  match rev_name with
  | [] => None
  | c :: r =>
      if Ascii.eqb c dot then Some ([], r)
      else match rsplit_dot r with
           | Some (ext, stem) => Some (c :: ext, stem)
           | None => None
           end
  end.

Definition is_nil {A} (l : list A) : bool :=
  match l with [] => true | _ => false end.

(** [PurePath.suffix] of a final component: with [i = name.rfind('.')], the
    result is [name[i:]] when [0 < i < len(name) - 1] and the empty string
    otherwise. *)
Definition name_suffix (name : string) : string :=
  match rsplit_dot (rev (list_ascii_of_string name)) with
  | Some (ext, stem) =>
      if (is_nil ext || is_nil stem)%bool then EmptyString
      else String dot (string_of_list_ascii (rev ext))
  | None => EmptyString
  end.

Module Path.

(** A parsed [pathlib.PurePosixPath]: whether it is anchored at the root,
    and its components. Components [..] and symbolic links are not
    interpreted: they are ordinary names. *)
Record t : Type := mk { absolute : bool; parts : list string }.

Definition name (p : t) : string := List.last (parts p) EmptyString.

Definition suffix (p : t) : string := name_suffix (name p).

Definition parent (p : t) : t := mk (absolute p) (removelast (parts p)).

(** [p / q] *)
Definition joinpath (p q : t) : t :=
  if absolute q then q else mk (absolute p) (parts p ++ parts q).

Fixpoint strip_prefix (pre l : list string) : option (list string) :=
  match pre, l with
  | [], _ => Some l
  | x :: pre', y :: l' => if String.eqb x y then strip_prefix pre' l' else None
  | _ :: _, [] => None
  end.

(** [p.relative_to(other)]: purely lexical; [None] stands for the
    [ValueError] raised when [other] is not a prefix of [p]. *)
Definition relative_to (p other : t) : option t :=
  if Bool.eqb (absolute p) (absolute other) then
    match strip_prefix (parts other) (parts p) with
    | Some rest => Some (mk false rest)
    | None => None
    end
  else None.

Fixpoint append_last (l : list string) (s : string) : list string :=
  match l with
  | [] => [s]
  | [x] => [x +:+ s]
  | x :: r => x :: append_last r s
  end.

(** [f'{p}{s}']: text appended to the path's string form. *)
Definition add_text (p : t) (s : string) : t :=
  mk (absolute p) (append_last (parts p) s).

(** The file-system key a path denotes for a process whose working
    directory is [cwd]. *)
Definition resolve (cwd : list string) (p : t) : list string :=
  if absolute p then parts p else cwd ++ parts p.

End Path.

(* ===================================================================== *)
(** * Files, tools and the host *)
(* ===================================================================== *)

(** A regular file: its bytes and the metadata [shutil.copy2] carries over
    (represented by the modification time). *)
Record file : Type := { data : list byte; mtime : Z }.

Definition size (f : file) : Z := Z.of_nat (length (data f)).

(** Keys of [self.available_tools]. *)
Inductive tool : Type :=
  mozjpeg | optipng | pngquant | zopflipng | cwebp | gifsicle.

(** What one run of an external optimiser did: its exit status, and the file
    it wrote to its output path, if it wrote one. *)
Record tool_result : Type := { returncode : Z; output : option file }.

(** The machine the program runs on. The optimisers are opaque functions of
    the input they read ([None]: the input path holds no regular file). *)
Record Host : Type := {
  cwd : list string;
  tempdir : list string;
  candidate_names : nat -> string;
  now : Z;
  cjpeg_bin : Z -> option file -> tool_result;
  pngquant_bin : option file -> tool_result;
  optipng_bin : option file -> tool_result;
  zopflipng_bin : option file -> tool_result;
  gifsicle_bin : option file -> tool_result
}.

(** The fields of [self] set by [__init__] and [check_dependencies]. *)
Record ImageCompressor : Type := {
  backup_enabled : bool;
  backup_dir : Path.t;
  force_no_backup_check : bool;
  available_tools : tool -> bool
}.

(** Exceptions the operations raise; all are subclasses of [Exception]. *)
Inductive exn : Type :=
| FileNotFoundError
| PermissionError
| FileExistsError
| IsADirectoryError
| NotADirectoryError
| SameFileError
| ValueError
| CalledProcessError (status : Z).

(** The command lines handed to [subprocess.run]. *)
Inductive command : Type :=
| Cjpeg (quality : Z) (outfile infile : Path.t)
| Pngquant (outfile infile : Path.t)
| Optipng (target : Path.t)
| Zopflipng (infile outfile : Path.t)
| Gifsicle (target : Path.t).

Inductive level : Type := Info | Warning | Error.

(** One constructor per [self.logger] call of the pipeline. *)
Inductive message : Type :=
| MsgBackupFailed (p : Path.t) (e : exn)
| MsgJpegUnavailable
| MsgJpegFailed (status : Z)
| MsgJpegException (e : exn)
| MsgPngFailed (status : Z)
| MsgPngException (e : exn)
| MsgGifFailed (status : Z)
| MsgGifException (e : exn)
| MsgNoBackupSkip (p : Path.t)
| MsgUnsupported (p : Path.t)
| MsgToolUnavailable (p : Path.t)
| MsgCompressed (p : Path.t) (original_size compressed_size : Z)
| MsgNotSmaller (p : Path.t)
| MsgNotFound (p : Path.t)
| MsgPermission (p : Path.t)
| MsgFailed (p : Path.t) (e : exn).

Inductive event : Type :=
| EvRun (c : command)
| EvLog (l : level) (m : message).

(** Keys of [self.stats]. *)
Inductive stat : Type :=
  Total_files | Processed | Compressed | Failed
| Original_size | Compressed_size | Space_saved.

Record Stats : Type := {
  st_total_files : Z;
  st_processed : Z;
  st_compressed : Z;
  st_failed : Z;
  st_original_size : Z;
  st_compressed_size : Z;
  st_space_saved : Z
}.

Definition stats_get (k : stat) (s : Stats) : Z :=
  match k with
  | Total_files => st_total_files s
  | Processed => st_processed s
  | Compressed => st_compressed s
  | Failed => st_failed s
  | Original_size => st_original_size s
  | Compressed_size => st_compressed_size s
  | Space_saved => st_space_saved s
  end.

Definition stats_set (k : stat) (v : Z) (s : Stats) : Stats :=
  match k with
  | Total_files =>
      {| st_total_files := v; st_processed := st_processed s;
         st_compressed := st_compressed s; st_failed := st_failed s;
         st_original_size := st_original_size s;
         st_compressed_size := st_compressed_size s;
         st_space_saved := st_space_saved s |}
  | Processed =>
      {| st_total_files := st_total_files s; st_processed := v;
         st_compressed := st_compressed s; st_failed := st_failed s;
         st_original_size := st_original_size s;
         st_compressed_size := st_compressed_size s;
         st_space_saved := st_space_saved s |}
  | Compressed =>
      {| st_total_files := st_total_files s; st_processed := st_processed s;
         st_compressed := v; st_failed := st_failed s;
         st_original_size := st_original_size s;
         st_compressed_size := st_compressed_size s;
         st_space_saved := st_space_saved s |}
  | Failed =>
      {| st_total_files := st_total_files s; st_processed := st_processed s;
         st_compressed := st_compressed s; st_failed := v;
         st_original_size := st_original_size s;
         st_compressed_size := st_compressed_size s;
         st_space_saved := st_space_saved s |}
  | Original_size =>
      {| st_total_files := st_total_files s; st_processed := st_processed s;
         st_compressed := st_compressed s; st_failed := st_failed s;
         st_original_size := v;
         st_compressed_size := st_compressed_size s;
         st_space_saved := st_space_saved s |}
  | Compressed_size =>
      {| st_total_files := st_total_files s; st_processed := st_processed s;
         st_compressed := st_compressed s; st_failed := st_failed s;
         st_original_size := st_original_size s;
         st_compressed_size := v;
         st_space_saved := st_space_saved s |}
  | Space_saved =>
      {| st_total_files := st_total_files s; st_processed := st_processed s;
         st_compressed := st_compressed s; st_failed := st_failed s;
         st_original_size := st_original_size s;
         st_compressed_size := st_compressed_size s;
         st_space_saved := v |}
  end.

(** [self.stats] as [__init__] leaves it. *)
Definition stats0 : Stats :=
  {| st_total_files := 0; st_processed := 0; st_compressed := 0;
     st_failed := 0; st_original_size := 0; st_compressed_size := 0;
     st_space_saved := 0 |}.

(* ===================================================================== *)
(** * The world: a closed file system, the statistics and the log *)
(* ===================================================================== *)

(** What a key of the file system holds. *)
Inductive node : Type :=
| Dir
| File (f : file).

(** Only the program and the optimisers it launches change the file system.
    Nodes are keyed by their resolved components. An operation fails for
    the state of the file system alone (a missing file or directory, a file
    where a directory is needed, a directory where a file is needed);
    permissions, full disks and other processes are not represented, so
    [PermissionError] has a handler but no operation that raises it.
    [seed] is the position in the host's stream of temporary names; [trace]
    holds the optimiser launches and log lines, most recent first. The log
    lines are what the logger appends to the console and to the file
    [compression.log] of the working directory (line 49): that file is
    represented by [trace] and not by a node of [fs]. *)
Record world : Type := {
  fs : gmap (list string) node;
  seed : nat;
  stats : Stats;
  trace : list event
}.

Definition set_fs (m : gmap (list string) node) (w : world) : world :=
  {| fs := m; seed := seed w; stats := stats w; trace := trace w |}.
Definition set_seed (n : nat) (w : world) : world :=
  {| fs := fs w; seed := n; stats := stats w; trace := trace w |}.
Definition set_stats (s : Stats) (w : world) : world :=
  {| fs := fs w; seed := seed w; stats := s; trace := trace w |}.
Definition emit (e : event) (w : world) : world :=
  {| fs := fs w; seed := seed w; stats := stats w; trace := e :: trace w |}.

(** The root (the empty key) is always a directory. *)
Definition node_at (w : world) (k : list string) : option node :=
  match k with
  | [] => Some Dir
  | _ => fs w !! k
  end.

Definition file_at (w : world) (k : list string) : option file :=
  match node_at w k with
  | Some (File f) => Some f
  | _ => None
  end.

(** The walk from the node at [pre] down the names [rest] comes to a
    regular file before the last name: the system then answers "not a
    directory" and not "no such file". The walk ends at the first name that
    is missing. *)
Fixpoint below_file (w : world) (pre rest : list string) : bool :=
  match rest with
  | [] => false
  | x :: rest' =>
      match node_at w pre with
      | Some (File _) => true
      | Some Dir => below_file w (pre ++ [x]) rest'
      | None => false
      end
  end.

Definition path_exists (w : world) (k : list string) : bool :=
  match node_at w k with Some _ => true | None => false end.

(** A regular file can be written at [k]: [k] holds one already, or [k] is
    free and its parent is a directory. *)
Definition writable (w : world) (k : list string) : bool :=
  match node_at w k with
  | Some (File _) => true
  | Some Dir => false
  | None => match node_at w (removelast k) with
            | Some Dir => true
            | _ => false
            end
  end.

Definition write (k : list string) (f : file) (w : world) : world :=
  set_fs (<[k := File f]> (fs w)) w.

(* ===================================================================== *)
(** * Operations and their semantics *)
(* ===================================================================== *)

(** The calls the pipeline makes into [os], [shutil], [pathlib], [tempfile],
    [subprocess], the logger and [self.stats]. An operation that can raise
    answers in [exn + _]. *)
Inductive op : Type -> Type :=
| Cwd : op Path.t
| Getsize (p : Path.t) : op (exn + Z)
| Mkdir (p : Path.t) (parents exist_ok : bool) : op (exn + unit)
| Copy2 (src dst : Path.t) : op (exn + unit)
| NamedTemporaryFile (suffix : string) : op (exn + Path.t)
| Exists (p : Path.t) : op bool
| Replace (src dst : Path.t) : op (exn + unit)
| Unlink (p : Path.t) : op (exn + unit)
| Subprocess (c : command) (check : bool) : op (exn + Z)
| Log (l : level) (m : message) : op unit
| StatsGet (k : stat) : op Z
| StatsSet (k : stat) (v : Z) : op unit.

(** [tempfile.TMP_MAX] *)
Definition TMP_MAX : nat := 100 * 100.

(** Size reported for a directory; no branch of the pipeline depends on it. *)
Definition DIR_SIZE : Z := 4096.

(** Where a command reads and where it writes. *)
Definition command_input (c : command) : Path.t :=
  match c with
  | Cjpeg _ _ i => i
  | Pngquant _ i => i
  | Optipng f => f
  | Zopflipng i _ => i
  | Gifsicle f => f
  end.

Definition command_output (c : command) : Path.t :=
  match c with
  | Cjpeg _ o _ => o
  | Pngquant o _ => o
  | Optipng f => f
  | Zopflipng _ o => o
  | Gifsicle f => f
  end.

Section Semantics.

Variable h : Host.

Definition key (p : Path.t) : list string := Path.resolve (cwd h) p.

(** [os.path.getsize]: a path that names nothing is not found, unless it
    leads through a regular file, which is not a directory. *)
Definition sem_getsize (p : Path.t) (w : world) : (exn + Z) * world :=
  match node_at w (key p) with
  | Some (File f) => (inr (size f), w)
  | Some Dir => (inr DIR_SIZE, w)
  | None =>
      (inl (if below_file w [] (key p) then NotADirectoryError
            else FileNotFoundError), w)
  end.

(** [os.mkdir] followed by the [exist_ok] test of [Path.mkdir]. *)
Definition mkdir_one (k : list string) (exist_ok : bool) (w : world)
  : (exn + unit) * world :=
  match node_at w k with
  | Some (File _) => (inl FileExistsError, w)
  | Some Dir => if exist_ok then (inr tt, w) else (inl FileExistsError, w)
  | None =>
      match node_at w (removelast k) with
      | Some Dir => (inr tt, set_fs (<[k := Dir]> (fs w)) w)
      | Some (File _) => (inl NotADirectoryError, w)
      | None => (inl FileNotFoundError, w)
      end
  end.

(** [Path.mkdir(parents=True)]: the missing ancestors are created from the
    top, each with [exist_ok=True]; the last component obeys [exist_ok]. *)
Fixpoint mkdir_parents (pre rest : list string) (exist_ok : bool) (w : world)
  : (exn + unit) * world :=
  match rest with
  | [] => (inr tt, w)
  | [x] => mkdir_one (pre ++ [x]) exist_ok w
  | x :: rest' =>
      match mkdir_one (pre ++ [x]) true w with
      | (inr _, w') => mkdir_parents (pre ++ [x]) rest' exist_ok w'
      | (inl FileExistsError, w') => (inl NotADirectoryError, w')
      | (inl e, w') => (inl e, w')
      end
  end.

Definition sem_mkdir (p : Path.t) (parents exist_ok : bool) (w : world)
  : (exn + unit) * world :=
  if parents then mkdir_parents [] (key p) exist_ok w
  else mkdir_one (key p) exist_ok w.

(** The key [shutil.copy2] writes: inside [dst] when [dst] is a directory. *)
Definition copy_target (src dst : Path.t) (w : world) : list string :=
  match node_at w (key dst) with
  | Some Dir => key dst ++ [Path.name src]
  | _ => key dst
  end.

(** [shutil.copy2]: refuses to copy a file onto itself; copies bytes and
    metadata. *)
Definition sem_copy2 (src dst : Path.t) (w : world) : (exn + unit) * world :=
  let d := copy_target src dst w in
  match node_at w (key src) with
  | None => (inl FileNotFoundError, w)
  | Some Dir => (inl IsADirectoryError, w)
  | Some (File f) =>
      if bool_decide (key src = d) then (inl SameFileError, w)
      else match node_at w d with
           | Some Dir => (inl IsADirectoryError, w)
           | _ => if writable w d then (inr tt, write d f w)
                  else (inl FileNotFoundError, w)
           end
  end.

(** [tempfile.mkstemp]: candidate names are tried until one is free, at
    most [fuel] of them. *)
Fixpoint mkstemp (fuel i : nat) (suffix : string) (w : world)
  : option (list string * nat) :=
  match fuel with
  | O => None
  | S fuel' =>
      let k := tempdir h ++ ["tmp" +:+ candidate_names h i +:+ suffix] in
      if path_exists w k then mkstemp fuel' (S i) suffix w else Some (k, S i)
  end.

(** [with tempfile.NamedTemporaryFile(suffix=..., delete=False) as f]: an
    empty file under a fresh name in the temporary directory. *)
Definition sem_tempfile (suffix : string) (w : world) : (exn + Path.t) * world :=
  match node_at w (tempdir h) with
  | Some Dir =>
      match mkstemp TMP_MAX (seed w) suffix w with
      | Some (k, i) =>
          (inr (Path.mk true k),
           set_seed i (write k {| data := []; mtime := now h |} w))
      | None => (inl FileExistsError, w)
      end
  | Some (File _) => (inl NotADirectoryError, w)
  | None => (inl FileNotFoundError, w)
  end.

(** [os.replace] of a regular file. *)
Definition sem_replace (src dst : Path.t) (w : world) : (exn + unit) * world :=
  match node_at w (key src) with
  | Some (File f) =>
      match node_at w (key dst) with
      | Some Dir => (inl IsADirectoryError, w)
      | _ => if writable w (key dst)
             then (inr tt, set_fs (<[key dst := File f]> (delete (key src) (fs w))) w)
             else (inl FileNotFoundError, w)
      end
  | Some Dir => (inl NotADirectoryError, w)
  | None => (inl FileNotFoundError, w)
  end.

Definition sem_unlink (p : Path.t) (w : world) : (exn + unit) * world :=
  match node_at w (key p) with
  | Some (File _) => (inr tt, set_fs (delete (key p) (fs w)) w)
  | Some Dir => (inl IsADirectoryError, w)
  | None => (inl FileNotFoundError, w)
  end.

Definition command_behaviour (c : command) : option file -> tool_result :=
  match c with
  | Cjpeg q _ _ => cjpeg_bin h q
  | Pngquant _ _ => pngquant_bin h
  | Optipng _ => optipng_bin h
  | Zopflipng _ _ => zopflipng_bin h
  | Gifsicle _ => gifsicle_bin h
  end.

(** [subprocess.run(cmd, check=check)]: the launch is recorded; the
    optimiser reads its input and, if it produced a file and its output
    path can be written, the file is stored there; with [check=True] a
    non-zero status raises [CalledProcessError]. *)
Definition sem_subprocess (c : command) (check : bool) (w : world)
  : (exn + Z) * world :=
  let r := command_behaviour c (file_at w (key (command_input c))) in
  let w1 := emit (EvRun c) w in
  let w2 := match output r with
            | Some f => if writable w (key (command_output c))
                        then write (key (command_output c)) f w1
                        else w1
            | None => w1
            end in
  if (check && negb (returncode r =? 0))%bool
  then (inl (CalledProcessError (returncode r)), w2)
  else (inr (returncode r), w2).

Definition exec {X : Type} (o : op X) (w : world) : X * world :=
  match o in op X return X * world with
  | Cwd => (Path.mk true (cwd h), w)
  | Getsize p => sem_getsize p w
  | Mkdir p parents exist_ok => sem_mkdir p parents exist_ok w
  | Copy2 src dst => sem_copy2 src dst w
  | NamedTemporaryFile suffix => sem_tempfile suffix w
  | Exists p => (path_exists w (key p), w)
  | Replace src dst => sem_replace src dst w
  | Unlink p => sem_unlink p w
  | Subprocess c check => sem_subprocess c check w
  | Log l m => (tt, emit (EvLog l m) w)
  | StatsGet k => (stats_get k (stats w), w)
  | StatsSet k v => (tt, set_stats (stats_set k v (stats w)) w)
  end.

End Semantics.

Arguments mkstemp : simpl never.


(* ===================================================================== *)
(** * Programs *)
(* ===================================================================== *)

(** A method body is a tree of operations; [Throw] is a raised exception. *)
Inductive prog (A : Type) : Type :=
| Ret (a : A)
| Throw (e : exn)
| Do (X : Type) (o : op X) (k : X -> prog A).

Arguments Ret {A} a.
Arguments Throw {A} e.
Arguments Do {A X} o k.

Fixpoint bind {A B : Type} (p : prog A) (f : A -> prog B) : prog B :=
  match p with
  | Ret a => f a
  | Throw e => Throw e
  | Do o k => Do o (fun x => bind (k x) f)
  end.

(** [try: p  except Exception as e: handler e] *)
Fixpoint try_except {A : Type} (p : prog A) (handler : exn -> prog A) : prog A :=
  match p with
  | Ret a => Ret a
  | Throw e => handler e
  | Do o k => Do o (fun x => try_except (k x) handler)
  end.

(** [try: p  finally: cleanup]. The cleanup runs on every way out of [p]; an
    exception of the cleanup replaces the outcome of [p]. *)
Definition try_finally {A : Type} (p : prog A) (cleanup : prog unit) : prog A :=
  bind (try_except (bind p (fun a => Ret (inr a))) (fun e => Ret (inl e)))
       (fun r => bind cleanup (fun _ =>
          match r with inl e => Throw e | inr a => Ret a end)).

Declare Scope prog_scope.
Delimit Scope prog_scope with prog.
Notation "x <- p ;; k" := (bind p (fun x => k))
  (at level 100, p at next level, right associativity) : prog_scope.
Notation "p ;; k" := (bind p (fun _ => k))
  (at level 100, right associativity) : prog_scope.

(** Calling an operation: a raised exception propagates. *)
Definition call {T : Type} (o : op (exn + T)) : prog T :=
  Do o (fun r => match r with inl e => Throw e | inr t => Ret t end).

Definition ask {T : Type} (o : op T) : prog T := Do o Ret.

(** Running a program to completion on a host. *)
Fixpoint run {A : Type} (h : Host) (p : prog A) (w : world) : (exn + A) * world :=
  match p with
  | Ret a => (inr a, w)
  | Throw e => (inl e, w)
  | Do o k => run h (k (exec h o w).1) (exec h o w).2
  end.

(** [ops_in S p]: every operation [p] can perform belongs to [S]. *)
Inductive ops_in (S : forall X, op X -> Prop) {A : Type} : prog A -> Prop :=
| ops_ret a : ops_in S (Ret a)
| ops_throw e : ops_in S (Throw e)
| ops_do X (o : op X) k :
    S X o -> (forall x, ops_in S (k x)) -> ops_in S (Do o k).

(* ===================================================================== *)
(** * The methods of [ImageCompressor] *)
(* ===================================================================== *)

Local Open Scope prog_scope.

(** [self.stats[k] += d]: the entry is read, then written. *)
Definition stats_add (k : stat) (d : Z) : prog unit :=
  v <- ask (StatsGet k);; ask (StatsSet k (v + d)).

Definition log (l : level) (m : message) : prog unit := ask (Log l m).

(** [f'{temp_path}.tmp'], the output file handed to cjpeg and pngquant. *)
Definition tmp_of (temp_path : Path.t) : Path.t := Path.add_text temp_path ".tmp".

Section Methods.

Variable self : ImageCompressor.

(** [create_backup], lines 71-93. *)
Definition create_backup (file_path : Path.t) : prog bool :=
  if force_no_backup_check self then Ret true
  else if negb (backup_enabled self) then Ret true
  else
    try_except
      (let backup_path := backup_dir self in
       call (Mkdir backup_path false true);;
       here <- ask Cwd;;
       rel_path <- match Path.relative_to file_path here with
                   | Some r => Ret r
                   | None => Throw ValueError
                   end;;
       let backup_file := Path.joinpath backup_path rel_path in
       call (Mkdir (Path.parent backup_file) true true);;
       call (Copy2 file_path backup_file);;
       Ret true)
      (fun e => log Error (MsgBackupFailed file_path e);; Ret false).

(** [compress_jpeg], lines 95-116. *)
Definition compress_jpeg (temp_path : Path.t) (quality : Z) : prog bool :=
  try_except
    (if available_tools self mozjpeg then
       call (Subprocess (Cjpeg quality (tmp_of temp_path) temp_path) true);;
       present <- ask (Exists (tmp_of temp_path));;
       if present then
         call (Replace (tmp_of temp_path) temp_path);;
         Ret true
       else Ret false
     else
       log Warning MsgJpegUnavailable;;
       Ret false)
    (fun e => match e with
              | CalledProcessError status => log Error (MsgJpegFailed status);; Ret false
              | _ => log Error (MsgJpegException e);; Ret false
              end).

(** Lines 124-131 of [compress_png]: the optional lossy stage. Its value
    is the flag [compressed] after the stage. *)
Definition png_quantize (temp_path : Path.t) : prog bool :=
  if available_tools self pngquant then
    status <- call (Subprocess (Pngquant (tmp_of temp_path) temp_path) false);;
    if status =? 0 then
      present <- ask (Exists (tmp_of temp_path));;
      if present then
        call (Replace (tmp_of temp_path) temp_path);;
        Ret true
      else Ret false
    else Ret false
  else Ret false.

(** The lossless optimiser lines 134-145 choose. *)
Definition lossless_choice (temp_path : Path.t) : option command :=
  if available_tools self optipng then Some (Optipng temp_path)
  else if available_tools self zopflipng then Some (Zopflipng temp_path temp_path)
  else None.

(** Lines 134-147 of [compress_png]: the lossless stage and the value
    returned, given the flag the lossy stage left. *)
Definition png_lossless (temp_path : Path.t) (quantized : bool) : prog bool :=
  if available_tools self optipng then
    call (Subprocess (Optipng temp_path) true);;
    Ret true
  else if available_tools self zopflipng then
    call (Subprocess (Zopflipng temp_path temp_path) true);;
    Ret true
  else Ret quantized.

(** [compress_png], lines 118-153. *)
Definition compress_png (temp_path : Path.t) : prog bool :=
  try_except
    (quantized <- png_quantize temp_path;;
     png_lossless temp_path quantized)
    (fun e => match e with
              | CalledProcessError status => log Error (MsgPngFailed status);; Ret false
              | _ => log Error (MsgPngException e);; Ret false
              end).

(** [compress_gif], lines 155-169. *)
Definition compress_gif (temp_path : Path.t) : prog bool :=
  try_except
    (if available_tools self gifsicle then
       call (Subprocess (Gifsicle temp_path) true);;
       Ret true
     else Ret false)
    (fun e => match e with
              | CalledProcessError status => log Error (MsgGifFailed status);; Ret false
              | _ => log Error (MsgGifException e);; Ret false
              end).

(** Lines 206-223 of [compress_image]: the size comparison and the
    replacement of the original. *)
Definition commit (input_path temp_path : Path.t) (original : Z) : prog bool :=
  shrunk <- call (Getsize temp_path);;
  if shrunk <? original then
    call (Copy2 temp_path input_path);;
    stats_add Compressed 1;;
    stats_add Original_size original;;
    stats_add Compressed_size shrunk;;
    stats_add Space_saved (original - shrunk);;
    log Info (MsgCompressed input_path original shrunk);;
    Ret true
  else
    log Info (MsgNotSmaller input_path);;
    Ret false.

(** Lines 190-200: the strategy for an extension. [None] is the branch
    for an extension without a strategy, which returns at once. *)
Definition dispatch (input_path temp_path : Path.t) (file_ext : string) (quality : Z)
  : prog (option bool) :=
  if (String.eqb file_ext ".jpg" || String.eqb file_ext ".jpeg")%bool then
    c <- compress_jpeg temp_path quality;; Ret (Some c)
  else if String.eqb file_ext ".png" then
    c <- compress_png temp_path;; Ret (Some c)
  else if String.eqb file_ext ".gif" then
    c <- compress_gif temp_path;; Ret (Some c)
  else
    log Info (MsgUnsupported input_path);;
    Ret None.

(** Lines 187-223: the body of the inner [try]. *)
Definition scratch_phase (input_path temp_path : Path.t) (file_ext : string)
    (quality original : Z) : prog bool :=
  call (Copy2 input_path temp_path);;
  chosen <- dispatch input_path temp_path file_ext quality;;
  match chosen with
  | None => Ret false
  | Some false =>
      log Warning (MsgToolUnavailable input_path);;
      Ret false
  | Some true => commit input_path temp_path original
  end.

(** Lines 226-228: the inner [finally]. *)
Definition cleanup (temp_path : Path.t) : prog unit :=
  present <- ask (Exists temp_path);;
  if present then call (Unlink temp_path) else Ret tt.

(** Lines 230-241: the three handlers. *)
Definition on_error (input_path : Path.t) (e : exn) : prog bool :=
  match e with
  | FileNotFoundError =>
      log Error (MsgNotFound input_path);; stats_add Failed 1;; Ret false
  | PermissionError =>
      log Error (MsgPermission input_path);; stats_add Failed 1;; Ret false
  | _ =>
      log Error (MsgFailed input_path e);; stats_add Failed 1;; Ret false
  end.

(** [compress_image], lines 171-243. *)
Definition compress_image (input_path : Path.t) (quality : Z) : prog bool :=
  try_finally
    (try_except
       (let file_ext := lower (Path.suffix input_path) in
        original <- call (Getsize input_path);;
        backed_up <- create_backup input_path;;
        if negb backed_up then
          log Error (MsgNoBackupSkip input_path);;
          Ret false
        else
          temp_path <- call (NamedTemporaryFile file_ext);;
          try_finally
            (scratch_phase input_path temp_path file_ext quality original)
            (cleanup temp_path))
       (on_error input_path))
    (stats_add Processed 1).

(** The loop of [process_files] for [max_workers == 1], lines 273-278. *)
Fixpoint for_each (fs : list Path.t) (body : Path.t -> prog bool) : prog unit :=
  match fs with
  | [] => Ret tt
  | f :: rest => body f;; for_each rest body
  end.

Definition process_files_sequential (fs : list Path.t) (quality : Z) : prog unit :=
  ask (StatsSet Total_files (Z.of_nat (length fs)));;
  for_each fs (fun f => compress_image f quality).

End Methods.

(* ===================================================================== *)
(** * The worker pool of [process_files] *)
(* ===================================================================== *)

(** [ThreadPoolExecutor(max_workers)]: the submitted calls wait in a queue;
    each worker thread takes the next call when it has none and otherwise
    performs the next operation of the call it is running. The threads share
    [self] and the file system. No lock is taken anywhere in the class, and
    Python does not make [d[k] += 1] atomic (it is a load, an addition and
    a store), so a thread switch can fall between any two operations, in
    particular between the read and the write of one
    [self.stats[k] += d]. *)
Record pool : Type := {
  queue : list (prog bool);
  workers : list (option (prog bool));
  shared : world
}.

(** One step of worker [i]. *)
Definition pool_step (h : Host) (i : nat) (s : pool) : pool :=
  match workers s !! i with
  | None => s
  | Some (Some (Do o k)) =>
      {| queue := queue s;
         workers := <[i := Some (k (exec h o (shared s)).1)]> (workers s);
         shared := (exec h o (shared s)).2 |}
  | Some _ =>
      match queue s with
      | [] => {| queue := []; workers := <[i := None]> (workers s); shared := shared s |}
      | j :: q => {| queue := q; workers := <[i := Some j]> (workers s); shared := shared s |}
      end
  end.

(** A schedule names the worker that moves at each step. *)
Definition pool_run (h : Host) (schedule : list nat) (s : pool) : pool :=
  fold_left (fun s i => pool_step h i s) schedule s.

Definition idle (t : option (prog bool)) : bool :=
  match t with
  | Some (Do _ _) => false
  | _ => true
  end.

(** Leaving the [with] block waits for this. *)
Definition finished (s : pool) : bool :=
  (is_nil (queue s) && forallb idle (workers s))%bool.

(** [process_files] for [max_workers] other than 1, lines 273 and 281-291,
    under a schedule; [None] when the schedule stops before the pool has
    finished. *)
Definition process_files_pool (h : Host) (self : ImageCompressor)
    (fs : list Path.t) (quality : Z) (max_workers : nat) (schedule : list nat)
    (w : world) : option world :=
  let w1 := (exec h (StatsSet Total_files (Z.of_nat (length fs))) w).2 in
  let s := pool_run h schedule
             {| queue := map (fun f => compress_image self f quality) fs;
                workers := replicate max_workers None;
                shared := w1 |} in
  if finished s then Some (shared s) else None.

(** [process_files], lines 271-291: the worlds a call can end in. *)
Inductive process_files (h : Host) (self : ImageCompressor) (fs : list Path.t)
    (quality : Z) : Z -> world -> world -> Prop :=
| process_single w :
    process_files h self fs quality 1 w
      (run h (process_files_sequential self fs quality) w).2
| process_pooled n schedule w w' :
    (2 <= n)%nat ->
    process_files_pool h self fs quality n schedule w = Some w' ->
    process_files h self fs quality (Z.of_nat n) w w'.

(** Number of operations a program performs from a world. *)
Fixpoint steps {A : Type} (h : Host) (p : prog A) (w : world) : nat :=
  match p with
  | Do o k => S (steps h (k (exec h o w).1) (exec h o w).2)
  | _ => O
  end.

(** The schedule in which job [j] is taken by worker [ws_j] and run to its
    end before the next job starts. *)
Fixpoint serial_schedule (h : Host) (jobs : list (prog bool)) (ws : list nat)
    (w : world) : list nat :=
  match jobs, ws with
  | j :: jobs', i :: ws' =>
      replicate (S (steps h j w)) i ++ serial_schedule h jobs' ws' (run h j w).2
  | _, _ => []
  end.

(* ===================================================================== *)
(** * Outcomes *)
(* ===================================================================== *)

(** The terminal outcome a log line of [compress_image] stands for. *)
Inductive outcome : Type := JobCompressed | JobSkipped | JobFailed.

Definition outcome_of (e : event) : option outcome :=
  match e with
  | EvLog _ (MsgCompressed _ _ _) => Some JobCompressed
  | EvLog _ (MsgNoBackupSkip _) => Some JobSkipped
  | EvLog _ (MsgUnsupported _) => Some JobSkipped
  | EvLog _ (MsgToolUnavailable _) => Some JobSkipped
  | EvLog _ (MsgNotSmaller _) => Some JobSkipped
  | EvLog _ (MsgNotFound _) => Some JobFailed
  | EvLog _ (MsgPermission _) => Some JobFailed
  | EvLog _ (MsgFailed _ _) => Some JobFailed
  | _ => None
  end.

(** The outcomes logged in a trace, most recent first. *)
Definition outcomes (tr : list event) : list outcome := omap outcome_of tr.

Definition is_compressed (o : outcome) : bool :=
  match o with JobCompressed => true | _ => false end.
Definition is_skipped (o : outcome) : bool :=
  match o with JobSkipped => true | _ => false end.
Definition is_failed (o : outcome) : bool :=
  match o with JobFailed => true | _ => false end.

Definition count (f : outcome -> bool) (os : list outcome) : Z :=
  Z.of_nat (length (filter (fun o => f o = true) os)).

(** The optimiser launches in a trace, most recent first. *)
Definition launches (tr : list event) : list command :=
  omap (fun e => match e with EvRun c => Some c | _ => None end) tr.

Definition is_lossless (c : command) : bool :=
  match c with
  | Optipng _ | Zopflipng _ _ => true
  | _ => false
  end.


(* ===================================================================== *)
(** * What an operation logs and counts *)
(* ===================================================================== *)

(** The event an operation appends to the trace, if any. *)
Definition op_event {X : Type} (o : op X) : option event :=
  match o with
  | Subprocess c _ => Some (EvRun c)
  | Log l m => Some (EvLog l m)
  | _ => None
  end.

(** The statistics after an operation. *)
Definition op_stats {X : Type} (o : op X) (s : Stats) : Stats :=
  match o with
  | StatsSet k v => stats_set k v s
  | _ => s
  end.

(** Operations that leave the statistics alone and log no outcome. *)
Definition quiet_op (X : Type) (o : op X) : Prop :=
  match o with
  | StatsSet _ _ => False
  | Log l m => outcome_of (EvLog l m) = None
  | _ => True
  end.

(** Operations other than optimiser launches. *)
Definition no_launch_op (X : Type) (o : op X) : Prop :=
  match o with
  | Subprocess _ _ => False
  | _ => True
  end.

(** Operations of a strategy working on the scratch file [temp]: launches
    that write it or the optimiser's output file, tests, the rename of the
    output file over the scratch file, and log lines. *)
Definition scratch_op (temp : Path.t) (X : Type) (o : op X) : Prop :=
  match o with
  | Subprocess c _ => command_output c = temp \/ command_output c = tmp_of temp
  | Replace src dst => src = tmp_of temp /\ dst = temp
  | Exists _ => True
  | Log _ _ => True
  | _ => False
  end.

(** The world after [self.stats[k] += d]. *)
Definition bump (k : stat) (d : Z) (w : world) : world :=
  set_stats (stats_set k (stats_get k (stats w) + d) (stats w)) w.

(** The line a handler of [compress_image] logs for an exception. *)
Definition error_message (input_path : Path.t) (e : exn) : message :=
  match e with
  | FileNotFoundError => MsgNotFound input_path
  | PermissionError => MsgPermission input_path
  | _ => MsgFailed input_path e
  end.

(** The world after a handler of [compress_image] has run. *)
Definition failed_world (input_path : Path.t) (e : exn) (w : world) : world :=
  bump Failed 1 (emit (EvLog Error (error_message input_path e)) w).

(** The extensions that have a strategy. *)
Definition has_strategy (file_ext : string) : bool :=
  (String.eqb file_ext ".jpg" || String.eqb file_ext ".jpeg"
   || String.eqb file_ext ".png" || String.eqb file_ext ".gif")%bool.

(** The world after [os.unlink] of the file at [k]. *)
Definition remove (k : list string) (w : world) : world :=
  set_fs (delete k (fs w)) w.

(** The world after the statistics lines 213-216 and the log line 219. *)
Definition committed_world (input_path : Path.t) (original shrunk : Z) (w : world)
  : world :=
  emit (EvLog Info (MsgCompressed input_path original shrunk))
    (bump Space_saved (original - shrunk)
       (bump Compressed_size shrunk
          (bump Original_size original
             (bump Compressed 1 w)))).

(** The ways through lines 186-228, from a world [w] in which the scratch
    file exists: the result and the world each one ends in. *)
Inductive scratch_case (h : Host) (self : ImageCompressor)
    (input_path temp_path : Path.t) (file_ext : string) (quality original : Z)
    (w : world) : (exn + bool) * world -> Prop :=
| sc_copy_failed e :
    sem_copy2 h input_path temp_path w = (inl e, w) ->
    scratch_case h self input_path temp_path file_ext quality original w
      (inl e, remove (key h temp_path) w)
| sc_unsupported f :
    file_at w (key h input_path) = Some f ->
    key h input_path <> key h temp_path ->
    has_strategy file_ext = false ->
    scratch_case h self input_path temp_path file_ext quality original w
      (inr false,
       remove (key h temp_path)
         (emit (EvLog Info (MsgUnsupported input_path))
            (write (key h temp_path) f w)))
| sc_no_tool f w2 t :
    file_at w (key h input_path) = Some f ->
    key h input_path <> key h temp_path ->
    has_strategy file_ext = true ->
    run h (dispatch self input_path temp_path file_ext quality)
      (write (key h temp_path) f w) = (inr (Some false), w2) ->
    node_at w2 (key h temp_path) = Some (File t) ->
    scratch_case h self input_path temp_path file_ext quality original w
      (inr false,
       remove (key h temp_path)
         (emit (EvLog Warning (MsgToolUnavailable input_path)) w2))
| sc_not_smaller f w2 t :
    file_at w (key h input_path) = Some f ->
    key h input_path <> key h temp_path ->
    has_strategy file_ext = true ->
    run h (dispatch self input_path temp_path file_ext quality)
      (write (key h temp_path) f w) = (inr (Some true), w2) ->
    node_at w2 (key h temp_path) = Some (File t) ->
    original <= size t ->
    scratch_case h self input_path temp_path file_ext quality original w
      (inr false,
       remove (key h temp_path)
         (emit (EvLog Info (MsgNotSmaller input_path)) w2))
| sc_commit_failed f w2 t e :
    file_at w (key h input_path) = Some f ->
    key h input_path <> key h temp_path ->
    has_strategy file_ext = true ->
    run h (dispatch self input_path temp_path file_ext quality)
      (write (key h temp_path) f w) = (inr (Some true), w2) ->
    node_at w2 (key h temp_path) = Some (File t) ->
    size t < original ->
    sem_copy2 h temp_path input_path w2 = (inl e, w2) ->
    scratch_case h self input_path temp_path file_ext quality original w
      (inl e, remove (key h temp_path) w2)
| sc_committed f w2 t :
    file_at w (key h input_path) = Some f ->
    key h input_path <> key h temp_path ->
    has_strategy file_ext = true ->
    run h (dispatch self input_path temp_path file_ext quality)
      (write (key h temp_path) f w) = (inr (Some true), w2) ->
    node_at w2 (key h temp_path) = Some (File t) ->
    size t < original ->
    sem_copy2 h temp_path input_path w2 =
      (inr tt, write (copy_target h temp_path input_path w2) t w2) ->
    copy_target h temp_path input_path w2 <> key h temp_path ->
    scratch_case h self input_path temp_path file_ext quality original w
      (inr true,
       remove (key h temp_path)
         (committed_world input_path original (size t)
            (write (copy_target h temp_path input_path w2) t w2))).

(** How [compress_image] ends once the inner [try] has ended in [r]: an
    exception is counted as a failure, and [processed] is counted. *)
Definition settle (input_path : Path.t) (r : (exn + bool) * world)
  : (exn + bool) * world :=
  match r with
  | (inr b, w) => (inr b, bump Processed 1 w)
  | (inl e, w) => (inr false, bump Processed 1 (failed_world input_path e w))
  end.

(** The ways through [compress_image] from a world [w]. *)
Inductive job_case (h : Host) (self : ImageCompressor) (input_path : Path.t)
    (quality : Z) (w : world) : (exn + bool) * world -> Prop :=
| jc_missing :
    node_at w (key h input_path) = None ->
    job_case h self input_path quality w
      (settle input_path
         (inl (if below_file w [] (key h input_path) then NotADirectoryError
               else FileNotFoundError), w))
| jc_backup_failed w2 :
    is_Some (node_at w (key h input_path)) ->
    run h (create_backup self input_path) w = (inr false, w2) ->
    job_case h self input_path quality w
      (settle input_path
         (inr false, emit (EvLog Error (MsgNoBackupSkip input_path)) w2))
| jc_no_scratch w2 e :
    is_Some (node_at w (key h input_path)) ->
    run h (create_backup self input_path) w = (inr true, w2) ->
    sem_tempfile h (lower (Path.suffix input_path)) w2 = (inl e, w2) ->
    job_case h self input_path quality w (settle input_path (inl e, w2))
| jc_scratch original w2 nm i r :
    (sem_getsize h input_path w).1 = inr original ->
    is_Some (node_at w (key h input_path)) ->
    run h (create_backup self input_path) w = (inr true, w2) ->
    let file_ext := lower (Path.suffix input_path) in
    let temp_path := Path.mk true (tempdir h ++ [nm +:+ file_ext]) in
    let w3 := set_seed i (write (key h temp_path)
                            {| data := []; mtime := now h |} w2) in
    node_at w2 (key h temp_path) = None ->
    sem_tempfile h file_ext w2 = (inr temp_path, w3) ->
    scratch_case h self input_path temp_path file_ext quality original w3 r ->
    job_case h self input_path quality w (settle input_path r).

(** The world after the calls [jobs] have run one after the other. *)
Definition run_all (h : Host) (jobs : list (prog bool)) (w : world) : world :=
  fold_left (fun w j => (run h j w).2) jobs w.

(** The calls [process_files] submits. *)
Definition submitted (self : ImageCompressor) (fs : list Path.t) (quality : Z)
  : list (prog bool) :=
  map (fun f => compress_image self f quality) fs.

(** The runs of [process_files] in which no two jobs interleave: the loop
    of a single worker, and a pool of any size whose jobs run one at a
    time, job [j] on worker [choice_j]. *)
Inductive process_files_serial (h : Host) (self : ImageCompressor)
    (fs : list Path.t) (quality : Z) (w : world) : world -> Prop :=
| serial_single :
    process_files_serial h self fs quality w
      (run h (process_files_sequential self fs quality) w).2
| serial_pooled n choice w' :
    (2 <= n)%nat ->
    length choice = length fs ->
    Forall (fun i : nat => (i < n)%nat) choice ->
    process_files_pool h self fs quality n
      (serial_schedule h (submitted self fs quality) choice
         (exec h (StatsSet Total_files (Z.of_nat (length fs))) w).2) w = Some w' ->
    process_files_serial h self fs quality w w'.

(** The statistics agree with the logged outcomes of the [jobs] jobs run
    between [w] and [w']. *)
Definition consistent_since (w w' : world) (jobs : nat) : Prop :=
  exists os,
    outcomes (trace w') = os ++ outcomes (trace w) /\
    length os = jobs /\
    st_processed (stats w') = st_processed (stats w) + Z.of_nat jobs /\
    st_compressed (stats w') = st_compressed (stats w) + count is_compressed os /\
    st_failed (stats w') = st_failed (stats w) + count is_failed os /\
    st_processed (stats w') - st_processed (stats w)
      = (st_compressed (stats w') - st_compressed (stats w))
        + count is_skipped os
        + (st_failed (stats w') - st_failed (stats w)).

(** The invariant of the statistics as the specification words it, with
    [skipped] the number of jobs logged as neither compressed nor failed. *)
Definition stats_invariant (w : world) : Prop :=
  st_processed (stats w)
  = st_compressed (stats w) + count is_skipped (outcomes (trace w))
    + st_failed (stats w).

(** Launches all of which satisfy [P]; other operations are unrestricted. *)
Definition launch_op (P : command -> Prop) (X : Type) (o : op X) : Prop :=
  match o with
  | Subprocess c _ => P c
  | _ => True
  end.

(** A list of launches, most recent first, obeys the priority of the
    lossless optimisers: it has at most one lossless launch, and that one
    is the optimiser [lossless_choice] picks for some scratch file. *)
Definition exclusive (self : ImageCompressor) (new : list command) : Prop :=
  (length (filter (fun c => is_lossless c = true) new) <= 1)%nat /\
  forall c, In c new -> is_lossless c = true ->
            exists temp_path, lossless_choice self temp_path = Some c.

(** The exit status of a command launched in [w]. *)
Definition status_in (h : Host) (c : command) (w : world) : Z :=
  returncode (command_behaviour h c (file_at w (key h (command_input c)))).

(* ===================================================================== *)
(** * The claims of the specification that the code does not meet *)
(* ===================================================================== *)

(** "At least one stage of the PNG strategy successfully ran": the lossy
    stage set its flag, or the chosen lossless optimiser exited with
    status 0. *)
Definition png_stage_succeeded (h : Host) (self : ImageCompressor)
    (temp_path : Path.t) (w : world) : Prop :=
  (run h (png_quantize self temp_path) w).1 = inr true \/
  exists c, lossless_choice self temp_path = Some c /\
            status_in h c (run h (png_quantize self temp_path) w).2 = 0.

(** The rule of the specification for PNG: a stage that ran makes the
    strategy report the job as compressed. *)
Definition png_reports_any_stage (h : Host) (self : ImageCompressor)
    (temp_path : Path.t) (w : world) : Prop :=
  png_stage_succeeded h self temp_path w ->
  (run h (compress_png self temp_path) w).1 = inr true.

(** The rule of the specification for formats without a strategy: the job
    always ends skipped as "format not handled", launches nothing, leaves
    its file alone and is not counted as failed. *)
Definition ends_format_not_handled (h : Host) (self : ImageCompressor)
    (input_path : Path.t) (quality : Z) (w : world) : Prop :=
  let w' := (run h (compress_image self input_path quality) w).2 in
  head (trace w') = Some (EvLog Info (MsgUnsupported input_path)) /\
  outcomes (trace w') = JobSkipped :: outcomes (trace w) /\
  launches (trace w') = launches (trace w) /\
  file_at w' (key h input_path) = file_at w (key h input_path) /\
  st_failed (stats w') = st_failed (stats w).

(** The rule of the specification for backups: the job leaves a mirror of
    its file, bytes and metadata, below the backup directory. *)
Definition backup_mirror_written (h : Host) (self : ImageCompressor)
    (input_path : Path.t) (quality : Z) (w : world) : Prop :=
  let w' := (run h (compress_image self input_path quality) w).2 in
  exists tail f,
    file_at w (key h input_path) = Some f /\
    file_at w' (key h (backup_dir self) ++ tail) = Some f.

(** The rule of the specification for temporary files: none that the job
    created is left. [created] lists the keys to look at. *)
Definition no_temporary_left (w' : world) (created : list (list string)) : Prop :=
  Forall (fun k => node_at w' k = None) created.

(* ===================================================================== *)
(** * Concrete machines, file systems and jobs *)
(* ===================================================================== *)

Module Demo.

Definition names (n : nat) : string :=
  String (ascii_of_nat (97 + n mod 26)) EmptyString.

Definition blob (n : nat) (t : Z) : file := {| data := repeat x00 n; mtime := t |}.

(** An optimiser that halves its input. *)
Definition shrink (f : option file) : tool_result :=
  match f with
  | Some f =>
      {| returncode := 0;
         output := Some {| data := firstn (Nat.div2 (length (data f))) (data f);
                           mtime := 50 |} |}
  | None => {| returncode := 1; output := None |}
  end.

(** An optimiser that returns its input unchanged. *)
Definition rewrite_same (f : option file) : tool_result :=
  match f with
  | Some f => {| returncode := 0; output := Some {| data := data f; mtime := 50 |} |}
  | None => {| returncode := 1; output := None |}
  end.

(** An optimiser that gives up without writing. *)
Definition refuse (f : option file) : tool_result :=
  {| returncode := 1; output := None |}.

(** An optimiser that opens its output file, then fails on its input. *)
Definition crash (f : option file) : tool_result :=
  {| returncode := 1; output := Some {| data := []; mtime := 50 |} |}.

Definition host : Host :=
  {| cwd := ["home"; "pics"]; tempdir := ["tmp"]; candidate_names := names;
     now := 40;
     cjpeg_bin := fun _ => shrink;
     pngquant_bin := shrink;
     optipng_bin := refuse;
     zopflipng_bin := shrink;
     gifsicle_bin := shrink |}.

Definition steady_host : Host :=
  {| cwd := ["home"; "pics"]; tempdir := ["tmp"]; candidate_names := names;
     now := 40;
     cjpeg_bin := fun _ => rewrite_same;
     pngquant_bin := shrink;
     optipng_bin := shrink;
     zopflipng_bin := shrink;
     gifsicle_bin := shrink |}.

Definition crashing_host : Host :=
  {| cwd := ["home"; "pics"]; tempdir := ["tmp"]; candidate_names := names;
     now := 40;
     cjpeg_bin := fun _ => crash;
     pngquant_bin := shrink;
     optipng_bin := shrink;
     zopflipng_bin := shrink;
     gifsicle_bin := shrink |}.

Definition all_tools (t : tool) : bool := true.

Definition with_backup : ImageCompressor :=
  {| backup_enabled := true;
     backup_dir := Path.mk false [".image_backup"];
     force_no_backup_check := false;
     available_tools := all_tools |}.

Definition no_backup : ImageCompressor :=
  {| backup_enabled := false;
     backup_dir := Path.mk false [".image_backup"];
     force_no_backup_check := false;
     available_tools := all_tools |}.

Definition photo : Path.t := Path.mk true ["home"; "pics"; "photo.jpg"].
Definition icon : Path.t := Path.mk true ["home"; "pics"; "icon.bmp"].
Definition scan : Path.t := Path.mk true ["home"; "pics"; "scan.bmp"].
Definition logo : Path.t := Path.mk true ["home"; "pics"; "logo.png"].
Definition icon_relative : Path.t := Path.mk false ["icon.bmp"].
Definition scratch_png : Path.t := Path.mk true ["tmp"; "tmpa.png"].

Definition disk : world :=
  {| fs := {[ ["home"] := Dir;
              ["home"; "pics"] := Dir;
              ["tmp"] := Dir;
              ["home"; "pics"; "photo.jpg"] := File (blob 8 10);
              ["home"; "pics"; "icon.bmp"] := File (blob 6 11);
              ["home"; "pics"; "scan.bmp"] := File (blob 5 12);
              ["home"; "pics"; "logo.png"] := File (blob 4 13);
              ["tmp"; "tmpa.png"] := File (blob 4 13) ]};
     seed := 0; stats := stats0; trace := [] |}.

(** Two workers; each runs its job up to the read of
    [self.stats['processed']], then each writes. *)
Definition racing_schedule : list nat :=
  replicate 8 0%nat ++ replicate 8 1%nat ++ [0%nat; 1%nat].

End Demo.

(* ===================================================================== *)
(** * Scanning a directory: [find_image_files] *)
(* ===================================================================== *)

(** [IMAGE_EXTENSIONS], line 22. *)
Definition IMAGE_EXTENSIONS : list string :=
  [".jpg"; ".jpeg"; ".png"; ".gif"; ".bmp"; ".webp"; ".tiff"].

(** The components of a path separated by slashes. *)
Fixpoint join_slash (l : list string) : string :=
  match l with
  | [] => EmptyString
  | [x] => x
  | x :: r => x +:+ "/" +:+ join_slash r
  end.

(** [str(p)] of a [PurePosixPath]; the relative path without components
    prints as a dot. *)
Definition str (p : Path.t) : string :=
  if Path.absolute p then "/" +:+ join_slash (Path.parts p)
  else if is_nil (Path.parts p) then "." else join_slash (Path.parts p).

(** [s.startswith(pre)] *)
Definition startswith (s pre : string) : bool := String.prefix pre s.

(** The entry [d ++ rel] can be reached from [d] by descending through
    directories: [d] and every proper ancestor of the entry below [d] is a
    directory. *)
Fixpoint walkable (w : world) (d rel : list string) : bool :=
  match rel with
  | [] => false
  | x :: rest =>
      match node_at w d with
      | Some Dir => if is_nil rest then true else walkable w (d ++ [x]) rest
      | _ => false
      end
  end.

(** [directory.glob(pattern)] for the two patterns of lines 258-261: the
    entries below [directory] that the walk reaches, at any depth when
    [recursive] and directly inside otherwise, each as [directory / rel], in
    the order the file system lists them. Something that is not a directory
    has no entries. Names that begin with a dot are matched like any
    other. *)
Definition glob (h : Host) (directory : Path.t) (recursive : bool) (w : world)
  : list Path.t :=
  omap (fun kv : list string * node =>
          match Path.strip_prefix (key h directory) kv.1 with
          | Some rel =>
              if (walkable w (key h directory) rel
                  && (recursive || (length rel =? 1)%nat))%bool
              then Some (Path.mk (Path.absolute directory)
                                 (Path.parts directory ++ rel))
              else None
          | None => None
          end)
       (map_to_list (fs w)).

(** [file_path.is_file()] *)
Definition is_file (h : Host) (w : world) (p : Path.t) : bool :=
  match file_at w (key h p) with Some _ => true | None => false end.

(** The first two tests of lines 264-265 on one entry: a regular file
    whose lower-cased suffix is an image extension. *)
Definition is_image (h : Host) (w : world) (p : Path.t) : bool :=
  (is_file h w p && bool_decide (lower (Path.suffix p) ∈ IMAGE_EXTENSIONS))%bool.

(** The whole test of lines 264-266; [backup_dir] is the text
    [self.backup_dir]. *)
Definition wanted (h : Host) (backup_dir : string) (w : world) (p : Path.t) : bool :=
  (is_image h w p && negb (startswith (str p) backup_dir))%bool.

(** [find_image_files], lines 253-269. [backup_dir] is the text
    [self.backup_dir], of which the field [backup_dir] of [ImageCompressor]
    is the path; the result is in the order of [sorted] on strings. *)
Definition find_image_files (h : Host) (backup_dir : string) (directory : Path.t)
    (recursive : bool) (w : world) : list string :=
  merge_sort String.le
    (map str (filter (fun p => wanted h backup_dir w p = true)
                     (glob h directory recursive w))).

(** A name without a slash, as every name of a real file system is. *)
Fixpoint slash_free (s : string) : bool :=
  match s with
  | EmptyString => true
  | String c s' => (negb (Ascii.eqb c "/") && slash_free s')%bool
  end.

(* ===================================================================== *)
(** * The optimisers of a format *)
(* ===================================================================== *)

(** The entries of [self.available_tools] the strategy of an extension
    reads (lines 98, 124, 134, 141 and 158). *)
Definition tools_for (file_ext : string) : list tool :=
  if (String.eqb file_ext ".jpg" || String.eqb file_ext ".jpeg")%bool then [mozjpeg]
  else if String.eqb file_ext ".png" then [pngquant; optipng; zopflipng]
  else if String.eqb file_ext ".gif" then [gifsicle]
  else [].

(* ===================================================================== *)
(** * The places a job writes to *)
(* ===================================================================== *)

(** The file the logger appends to (line 49), in the working directory. *)
Definition log_file (h : Host) : list string := cwd h ++ ["compression.log"].

(** Names none of which is [..]. The system walks up at [..], so that the
    key of a path with this component is not the node the system reaches;
    without it (and without links) the key is that node. The working
    directory and the temporary directory the system reports are of this
    kind. *)
Definition plain (names : list string) : bool :=
  forallb (fun x => negb (String.eqb x "..")) names.

(* ===================================================================== *)
(** * The byte totals *)
(* ===================================================================== *)

(** The byte totals of [self.stats] add up, and every file counted as
    compressed has saved at least one byte. The zeroes [__init__] stores
    satisfy this. *)
Definition byte_totals_coherent (s : Stats) : Prop :=
  st_original_size s = st_compressed_size s + st_space_saved s /\
  0 <= st_compressed_size s /\
  0 <= st_compressed s <= st_space_saved s.

(** Operations that do not store [self.stats['total_files']]. *)
Definition keeps_total_op (X : Type) (o : op X) : Prop :=
  match o with
  | StatsSet Total_files _ => False
  | _ => True
  end.

(* ===================================================================== *)
(** * Sizes for the reader: [_format_size] *)
(* ===================================================================== *)

(** The integer nearest to [a / b], the even one of the two when [a / b]
    lies halfway, for [a] non-negative and [b] positive: the rounding of
    Python's float formatting. *)
Definition round_half_even (a b : Z) : Z :=
  let q := a / b in
  let r := a mod b in
  if ((b <? 2 * r) || ((b =? 2 * r) && Z.odd q))%bool then q + 1 else q.

(** [f"{x:.1f}"] for the number [x = num / den], [den] positive. *)
Definition fixed1 (num den : Z) : string :=
  let t := round_half_even (10 * Z.abs num) den in
  (if num <? 0 then "-" else EmptyString)
    +:+ pretty (t / 10) +:+ "." +:+ pretty (t mod 10).

(** The loop of lines 247-251 over the units that remain; [size_bytes] is
    the number [num / den]. Dividing by 1024 multiplies [den]: for a size
    from 0 to 2^53 - 1 (every file size and every sum of the statistics in
    practice) each quotient is a float without rounding, so that the number
    is the float Python holds, and the comparison and the formatting act on
    it exactly. *)
Fixpoint format_units (units : list string) (num den : Z) : string :=
  match units with
  | [] => fixed1 num den +:+ "TB"
  | unit :: rest =>
      if num <? 1024 * den then fixed1 num den +:+ unit
      else format_units rest num (1024 * den)
  end.

(** [_format_size], lines 245-251. *)
Definition _format_size (size_bytes : Z) : string :=
  format_units ["B"; "KB"; "MB"; "GB"] size_bytes 1.

(** The unit [_format_size] picks: its position in B, KB, MB, GB, TB. *)
Definition unit_index (size_bytes : Z) : nat :=
  if size_bytes <? 1024 then 0
  else if size_bytes <? 1024 ^ 2 then 1
  else if size_bytes <? 1024 ^ 3 then 2
  else if size_bytes <? 1024 ^ 4 then 3
  else 4.

(* ===================================================================== *)
(** * A working directory that has been compressed once *)
(* ===================================================================== *)

Module Gallery.

(** The photo has been compressed before: the backup directory holds its
    earlier, larger version. *)
Definition disk : world :=
  {| fs := {[ ["home"] := Dir;
              ["home"; "pics"] := Dir;
              ["tmp"] := Dir;
              ["home"; "pics"; "photo.jpg"] := File (Demo.blob 4 50);
              ["home"; "pics"; "notes.txt"] := File (Demo.blob 3 9);
              ["home"; "pics"; "trip"] := Dir;
              ["home"; "pics"; "trip"; "beach.PNG"] := File (Demo.blob 7 14);
              ["home"; "pics"; ".image_backup"] := Dir;
              ["home"; "pics"; ".image_backup"; "photo.jpg"]
                := File (Demo.blob 8 10) ]};
     seed := 0; stats := stats0; trace := [] |}.

(** The working directory, as the text [.] and as an absolute path. *)
Definition here : Path.t := Path.mk false [].
Definition pics : Path.t := Path.mk true ["home"; "pics"].

Definition beach : Path.t := Path.mk true ["home"; "pics"; "trip"; "beach.PNG"].
Definition elsewhere : Path.t := Path.mk true ["tmp"; "tmpa.png"].


(** A JPEG file of no bytes beside the pictures of [Demo.disk]. *)
Definition blank : Path.t := Path.mk true ["home"; "pics"; "blank.jpg"].
Definition blank_disk : world :=
  write ["home"; "pics"; "blank.jpg"] {| data := []; mtime := 7 |} Demo.disk.

(** A machine on which no optimiser is installed, and one on which only
    cwebp is missing. *)
Definition no_tools : ImageCompressor :=
  {| backup_enabled := false;
     backup_dir := Path.mk false [".image_backup"];
     force_no_backup_check := false;
     available_tools := fun _ => false |}.

Definition without_cwebp : ImageCompressor :=
  {| backup_enabled := true;
     backup_dir := Path.mk false [".image_backup"];
     force_no_backup_check := false;
     available_tools := fun t => match t with cwebp => false | _ => true end |}.

End Gallery.
(* ===================================================================== *)
(** * Running programs: equations *)
(* ===================================================================== *)

Section Run.

Variable h : Host.

Lemma run_bind {A B} (p : prog A) (f : A -> prog B) w :
  run h (bind p f) w =
  match (run h p w).1 with
  | inr a => run h (f a) (run h p w).2
  | inl e => (inl e, (run h p w).2)
  end.
Proof.
  revert w. induction p as [a|e|X o k IH]; intros w; simpl; auto.
Qed.

Lemma run_try_except {A} (p : prog A) (hd : exn -> prog A) w :
  run h (try_except p hd) w =
  match (run h p w).1 with
  | inr a => (inr a, (run h p w).2)
  | inl e => run h (hd e) (run h p w).2
  end.
Proof.
  revert w. induction p as [a|e|X o k IH]; intros w; simpl; auto.
Qed.

Lemma run_try_finally {A} (p : prog A) (c : prog unit) w :
  run h (try_finally p c) w =
  match (run h c (run h p w).2).1 with
  | inr _ => ((run h p w).1, (run h c (run h p w).2).2)
  | inl e => (inl e, (run h c (run h p w).2).2)
  end.
Proof.
  unfold try_finally. rewrite run_bind, run_try_except, run_bind.
  destruct (run h p w) as [[e|a] w1]; simpl;
    rewrite run_bind; destruct (run h c w1) as [[e'|[]] w2]; reflexivity.
Qed.

Lemma run_call {T} (o : op (exn + T)) w :
  run h (call o) w = exec h o w.
Proof.
  unfold call; simpl. destruct (exec h o w) as [[e|t] w']; reflexivity.
Qed.

Lemma run_ask {T} (o : op T) w :
  run h (ask o) w = (inr (exec h o w).1, (exec h o w).2).
Proof. reflexivity. Qed.

Lemma run_log l m w : run h (log l m) w = (inr tt, emit (EvLog l m) w).
Proof. reflexivity. Qed.

Lemma run_stats_add k d w :
  run h (stats_add k d) w =
  (inr tt, set_stats (stats_set k (stats_get k (stats w) + d) (stats w)) w).
Proof. reflexivity. Qed.

End Run.

(* ===================================================================== *)
(** * Programs built from a set of operations *)
(* ===================================================================== *)

Section Logic.

Variable h : Host.

Lemma ops_in_bind (S : forall X, op X -> Prop) {A B} (p : prog A) (f : A -> prog B) :
  ops_in S p -> (forall a, ops_in S (f a)) -> ops_in S (bind p f).
Proof.
  intros Hp Hf. induction Hp; simpl; auto using @ops_throw.
  constructor; auto.
Qed.

Lemma ops_in_try_except (S : forall X, op X -> Prop) {A} (p : prog A) hd :
  ops_in S p -> (forall e, ops_in S (hd e)) -> ops_in S (try_except p hd).
Proof.
  intros Hp Hh. induction Hp; simpl; auto using @ops_ret.
  constructor; auto.
Qed.

Lemma ops_in_try_finally (S : forall X, op X -> Prop) {A} (p : prog A) c :
  ops_in S p -> ops_in S c -> ops_in S (try_finally p c).
Proof.
  intros Hp Hc. unfold try_finally.
  apply ops_in_bind.
  - apply ops_in_try_except.
    + apply ops_in_bind; auto. intros; constructor.
    + intros; constructor.
  - intros r. apply ops_in_bind; auto. intros _. destruct r; constructor.
Qed.

Lemma ops_in_call (S : forall X, op X -> Prop) {T} (o : op (exn + T)) : S _ o -> ops_in S (call o).
Proof. intros. constructor; auto. intros [e|t]; constructor. Qed.

Lemma ops_in_ask (S : forall X, op X -> Prop) {T} (o : op T) : S _ o -> ops_in S (ask o).
Proof. intros. constructor; auto. intros; constructor. Qed.

(** A relation between worlds that every operation of [S] respects is
    respected by every program built from [S]. *)
Lemma ops_in_run (S : forall X, op X -> Prop) (R : world -> world -> Prop) :
  (forall w, R w w) ->
  (forall w1 w2 w3, R w1 w2 -> R w2 w3 -> R w1 w3) ->
  (forall X (o : op X) w, S X o -> R w (exec h o w).2) ->
  forall A (p : prog A) w, ops_in S p -> R w (run h p w).2.
Proof.
  intros Hrefl Htrans Hop A p w Hp. revert w.
  induction Hp as [a|e|X o k Ho Hk IH]; intros w; simpl; auto.
  eapply Htrans; [apply Hop; exact Ho | apply IH].
Qed.

End Logic.

Ltac ops_in_tac :=
  repeat first
    [ apply ops_in_bind
    | apply ops_in_try_except
    | apply ops_in_try_finally
    | apply ops_in_call
    | apply ops_in_ask
    | apply ops_ret
    | apply ops_throw
    | intro
    | match goal with
      | |- ops_in _ (if ?b then _ else _) => destruct b
      | |- ops_in _ (match ?x with _ => _ end) => destruct x
      end ].

(* ===================================================================== *)
(** * The operations, one by one *)
(* ===================================================================== *)

Section Operations.

Variable h : Host.

Lemma node_at_set_stats s w k : node_at (set_stats s w) k = node_at w k.
Proof. destruct k; reflexivity. Qed.

Lemma node_at_emit e w k : node_at (emit e w) k = node_at w k.
Proof. destruct k; reflexivity. Qed.

Lemma node_at_set_seed n w k : node_at (set_seed n w) k = node_at w k.
Proof. destruct k; reflexivity. Qed.

Lemma node_at_write_ne d f w k : k <> d -> node_at (write d f w) k = node_at w k.
Proof.
  intros Hne. destruct k; [reflexivity|]. simpl. by rewrite lookup_insert_ne.
Qed.

Lemma node_at_write_eq d f w : d <> [] -> node_at (write d f w) d = Some (File f).
Proof.
  intros Hne. destruct d; [done|]. simpl. by rewrite lookup_insert_eq.
Qed.

Lemma node_at_nonempty w k n : node_at w k = Some (File n) -> k <> [].
Proof. destruct k; [discriminate|done]. Qed.

Lemma node_at_none_nonempty w k : node_at w k = None -> k <> [].
Proof. destruct k; [discriminate|done]. Qed.

Lemma mkdir_one_effects k ok w :
  stats (mkdir_one k ok w).2 = stats w /\
  trace (mkdir_one k ok w).2 = trace w /\
  seed (mkdir_one k ok w).2 = seed w /\
  (forall k', is_Some (node_at w k') ->
              node_at (mkdir_one k ok w).2 k' = node_at w k') /\
  (forall k', file_at (mkdir_one k ok w).2 k' = file_at w k').
Proof.
  unfold mkdir_one.
  destruct (node_at w k) as [[|f]|] eqn:Hk; simpl;
    [destruct ok; simpl; by auto 10 | by auto 10 |].
  destruct (node_at w (removelast k)) as [[|f]|]; simpl; auto 10.
  repeat split; auto.
  - intros k' Hk'. destruct k' as [|x k']; [reflexivity|]. simpl.
    rewrite lookup_insert_ne; [reflexivity|].
    intros ->. rewrite Hk in Hk'. by destruct Hk'.
  - intros k'. unfold file_at. destruct k' as [|x k']; [reflexivity|]. simpl.
    destruct (decide (k = x :: k')) as [->|Hne].
    + rewrite lookup_insert_eq. simpl in Hk. by rewrite Hk.
    + by rewrite lookup_insert_ne.
Qed.

Lemma mkdir_parents_effects rest : forall pre ok w,
  stats (mkdir_parents pre rest ok w).2 = stats w /\
  trace (mkdir_parents pre rest ok w).2 = trace w /\
  seed (mkdir_parents pre rest ok w).2 = seed w /\
  (forall k', is_Some (node_at w k') ->
              node_at (mkdir_parents pre rest ok w).2 k' = node_at w k') /\
  (forall k', file_at (mkdir_parents pre rest ok w).2 k' = file_at w k').
Proof.
  induction rest as [|x rest IH]; intros pre ok w; simpl; [auto|].
  destruct rest as [|y rest]; [apply mkdir_one_effects|].
  pose proof (mkdir_one_effects (pre ++ [x]) true w) as (Hs & Ht & Hd & Hn & Hf).
  destruct (mkdir_one (pre ++ [x]) true w) as [[e|u] w1]; simpl in *.
  - destruct e; simpl; auto.
  - specialize (IH (pre ++ [x]) ok w1) as (Hs' & Ht' & Hd' & Hn' & Hf').
    split; [congruence|]. split; [congruence|]. split; [congruence|]. split.
    + intros k' Hk'. rewrite Hn'; [auto|]. rewrite Hn; auto.
    + intros k'. by rewrite Hf', Hf.
Qed.

Lemma sem_mkdir_effects p parents ok w :
  stats (sem_mkdir h p parents ok w).2 = stats w /\
  trace (sem_mkdir h p parents ok w).2 = trace w /\
  seed (sem_mkdir h p parents ok w).2 = seed w /\
  (forall k', is_Some (node_at w k') ->
              node_at (sem_mkdir h p parents ok w).2 k' = node_at w k') /\
  (forall k', file_at (sem_mkdir h p parents ok w).2 k' = file_at w k').
Proof.
  unfold sem_mkdir. destruct parents;
    [apply mkdir_parents_effects | apply mkdir_one_effects].
Qed.

(** Statistics and trace after any operation. *)
Lemma exec_stats {X} (o : op X) w :
  stats (exec h o w).2 = op_stats o (stats w).
Proof.
  destruct o; simpl; try reflexivity.
  - unfold sem_getsize; repeat case_match; reflexivity.
  - apply sem_mkdir_effects.
  - unfold sem_copy2; repeat case_match; reflexivity.
  - unfold sem_tempfile; repeat case_match; reflexivity.
  - unfold sem_replace; repeat case_match; reflexivity.
  - unfold sem_unlink; repeat case_match; reflexivity.
  - unfold sem_subprocess; repeat case_match; reflexivity.
Qed.

Lemma exec_trace {X} (o : op X) w :
  trace (exec h o w).2 =
  match op_event o with
  | Some e => e :: trace w
  | None => trace w
  end.
Proof.
  destruct o; simpl; try reflexivity.
  - unfold sem_getsize; repeat case_match; reflexivity.
  - apply sem_mkdir_effects.
  - unfold sem_copy2; repeat case_match; reflexivity.
  - unfold sem_tempfile; repeat case_match; reflexivity.
  - unfold sem_replace; repeat case_match; reflexivity.
  - unfold sem_unlink; repeat case_match; reflexivity.
  - unfold sem_subprocess; repeat case_match; reflexivity.
Qed.

Lemma file_at_node w k f : file_at w k = Some f <-> node_at w k = Some (File f).
Proof.
  unfold file_at.
  destruct (node_at w k) as [[|g]|]; split; intros H; try discriminate; congruence.
Qed.

Lemma sem_getsize_spec p w :
  (sem_getsize h p w).2 = w /\
  match (sem_getsize h p w).1 with
  | inr z => match node_at w (key h p) with
             | Some (File f) => z = size f
             | Some Dir => z = DIR_SIZE
             | None => False
             end
  | inl e => node_at w (key h p) = None /\
             e = if below_file w [] (key h p) then NotADirectoryError
                 else FileNotFoundError
  end.
Proof.
  unfold sem_getsize. destruct (node_at w (key h p)) as [[|f]|]; simpl; auto.
Qed.

(** A copy either fails and changes nothing, or writes the source file at
    a key other than the source. *)
Lemma sem_copy2_spec src dst w :
  (exists f, (sem_copy2 h src dst w).1 = inr tt /\
             file_at w (key h src) = Some f /\
             (sem_copy2 h src dst w).2 = write (copy_target h src dst w) f w /\
             copy_target h src dst w <> key h src /\
             node_at w (copy_target h src dst w) <> Some Dir) \/
  (exists e, (sem_copy2 h src dst w).1 = inl e /\ (sem_copy2 h src dst w).2 = w).
Proof.
  unfold sem_copy2, file_at.
  destruct (node_at w (key h src)) as [[|f]|] eqn:Hs; simpl; eauto.
  case_bool_decide as Heq; simpl; eauto.
  destruct (node_at w (copy_target h src dst w)) as [[|g]|] eqn:Hd; simpl; eauto.
  - destruct (writable w (copy_target h src dst w)); simpl; [left|right]; eauto 10.
  - destruct (writable w (copy_target h src dst w)); simpl; [left|right]; eauto 10.
Qed.

Lemma mkstemp_S fuel i suffix w :
  mkstemp h (S fuel) i suffix w =
  if path_exists w (tempdir h ++ ["tmp" +:+ candidate_names h i +:+ suffix])
  then mkstemp h fuel (S i) suffix w
  else Some (tempdir h ++ ["tmp" +:+ candidate_names h i +:+ suffix], S i).
Proof. reflexivity. Qed.

Lemma mkstemp_fresh fuel : forall i suffix w k j,
  mkstemp h fuel i suffix w = Some (k, j) ->
  node_at w k = None /\ exists nm, k = tempdir h ++ [nm +:+ suffix].
Proof.
  induction fuel as [|fuel IH]; intros i suffix w k j; [discriminate|].
  rewrite mkstemp_S. unfold path_exists.
  destruct (node_at w (tempdir h ++ ["tmp" +:+ candidate_names h i +:+ suffix])) eqn:Hn.
  - apply IH.
  - intros [= <- <-]. split; [exact Hn|].
    by exists ("tmp" +:+ candidate_names h i).
Qed.

(** The scratch file is new: its key was free, and it starts empty. *)
Lemma sem_tempfile_spec suffix w :
  match (sem_tempfile h suffix w).1 with
  | inr t =>
      exists nm i,
        t = Path.mk true (tempdir h ++ [nm +:+ suffix]) /\
        node_at w (key h t) = None /\
        (sem_tempfile h suffix w).2 =
          set_seed i (write (key h t) {| data := []; mtime := now h |} w)
  | inl e => (sem_tempfile h suffix w).2 = w
  end.
Proof.
  unfold sem_tempfile.
  destruct (node_at w (tempdir h)) as [[|f]|]; simpl; auto.
  destruct (mkstemp h TMP_MAX (seed w) suffix w) as [[k i]|] eqn:Hm; simpl; auto.
  apply mkstemp_fresh in Hm as [Hfree [nm ->]].
  exists nm, i. auto.
Qed.

Lemma sem_unlink_spec p w :
  match node_at w (key h p) with
  | Some (File _) =>
      sem_unlink h p w = (inr tt, set_fs (delete (key h p) (fs w)) w)
  | Some Dir => sem_unlink h p w = (inl IsADirectoryError, w)
  | None => sem_unlink h p w = (inl FileNotFoundError, w)
  end.
Proof.
  unfold sem_unlink. destruct (node_at w (key h p)) as [[|f]|]; reflexivity.
Qed.

Lemma node_at_delete_ne d w k :
  k <> d -> node_at (set_fs (delete d (fs w)) w) k = node_at w k.
Proof.
  intros Hne. destruct k; [reflexivity|]. simpl. by rewrite lookup_delete_ne.
Qed.

Lemma node_at_delete_eq d w :
  d <> [] -> node_at (set_fs (delete d (fs w)) w) d = None.
Proof.
  intros Hne. destruct d; [done|]. simpl. by rewrite lookup_delete_eq.
Qed.

Lemma sem_replace_frame src dst w k :
  k <> key h src -> k <> key h dst ->
  node_at (sem_replace h src dst w).2 k = node_at w k.
Proof.
  intros Hs Hd. unfold sem_replace.
  destruct (node_at w (key h src)) as [[|f]|]; simpl; auto.
  destruct (node_at w (key h dst)) as [[|g]|]; simpl; auto;
    destruct (writable w (key h dst)); simpl; auto;
    destruct k; try reflexivity; simpl;
    rewrite lookup_insert_ne, lookup_delete_ne; auto.
Qed.

Lemma sem_subprocess_frame c check w k :
  k <> key h (command_output c) ->
  node_at (sem_subprocess h c check w).2 k = node_at w k.
Proof.
  intros Hne. unfold sem_subprocess.
  set (r := command_behaviour h c _).
  assert (node_at
            match output r with
            | Some f => if writable w (key h (command_output c))
                        then write (key h (command_output c)) f (emit (EvRun c) w)
                        else emit (EvRun c) w
            | None => emit (EvRun c) w
            end k = node_at w k) as Hw.
  { destruct (output r); [destruct (writable w _)|];
      rewrite ?node_at_write_ne, ?node_at_emit; auto. }
  destruct (check && negb (returncode r =? 0))%bool; exact Hw.
Qed.

End Operations.

Arguments sem_getsize : simpl never.
Arguments sem_mkdir : simpl never.
Arguments sem_copy2 : simpl never.
Arguments sem_tempfile : simpl never.
Arguments sem_replace : simpl never.
Arguments sem_unlink : simpl never.
Arguments sem_subprocess : simpl never.

(** Unfolds the program constructors of a run, leaving the operations'
    semantics folded. *)
Ltac run_step :=
  cbn [run bind try_except try_finally call ask log stats_add exec fst snd].

Section Generic.

Variable h : Host.

Lemma outcomes_cons e tr :
  outcomes (e :: tr) =
  match outcome_of e with Some o => o :: outcomes tr | None => outcomes tr end.
Proof. reflexivity. Qed.

Lemma launches_cons e tr :
  launches (e :: tr) =
  match e with EvRun c => c :: launches tr | _ => launches tr end.
Proof. destruct e; reflexivity. Qed.

(** Quiet programs change neither the statistics nor the logged outcomes. *)
Lemma quiet_run {A} (p : prog A) w :
  ops_in quiet_op p ->
  stats (run h p w).2 = stats w /\
  outcomes (trace (run h p w).2) = outcomes (trace w).
Proof.
  revert A p w.
  apply (ops_in_run h quiet_op
           (fun w w' => stats w' = stats w /\
                        outcomes (trace w') = outcomes (trace w))).
  - auto.
  - intros w1 w2 w3 [? ?] [? ?]. split; congruence.
  - intros X o w Ho. rewrite exec_stats, exec_trace.
    destruct o; cbn [op_stats op_event]; auto; [|exfalso; exact Ho].
    change (outcome_of (EvLog l m) = None) in Ho.
    split; [reflexivity|]. by rewrite outcomes_cons, Ho.
Qed.

Lemma no_launch_run {A} (p : prog A) w :
  ops_in no_launch_op p ->
  launches (trace (run h p w).2) = launches (trace w).
Proof.
  revert A p w.
  apply (ops_in_run h no_launch_op
           (fun w w' => launches (trace w') = launches (trace w))).
  - auto.
  - intros w1 w2 w3 ? ?. congruence.
  - intros X o w Ho. rewrite exec_trace.
    destruct o; simpl in *; auto; contradiction.
Qed.

(** A strategy leaves every key but the scratch file and the optimiser's
    output file as it was. *)
Lemma scratch_frame temp {A} (p : prog A) w :
  ops_in (scratch_op temp) p ->
  forall k, k <> key h temp -> k <> key h (tmp_of temp) ->
            node_at (run h p w).2 k = node_at w k.
Proof.
  revert A p w.
  apply (ops_in_run h (scratch_op temp)
           (fun w w' => forall k, k <> key h temp -> k <> key h (tmp_of temp) ->
                                  node_at w' k = node_at w k)).
  - auto.
  - intros w1 w2 w3 H12 H23 k Hk Hk'. rewrite H23, H12; auto.
  - intros X o w Ho k Hk Hk'.
    destruct o; simpl in *; try contradiction.
    + reflexivity.
    + destruct Ho as [-> ->]. apply sem_replace_frame; auto.
    + apply sem_subprocess_frame. destruct Ho as [-> | ->]; auto.
    + apply node_at_emit.
Qed.

(** A strategy leaves a regular file at the scratch path. *)
Lemma scratch_keeps_file temp {A} (p : prog A) w :
  ops_in (scratch_op temp) p ->
  (exists t, node_at w (key h temp) = Some (File t)) ->
  exists t, node_at (run h p w).2 (key h temp) = Some (File t).
Proof.
  revert A p w.
  apply (ops_in_run h (scratch_op temp)
           (fun w w' => (exists t, node_at w (key h temp) = Some (File t)) ->
                        exists t, node_at w' (key h temp) = Some (File t))).
  - auto.
  - auto.
  - intros X o w Ho [t Ht].
    pose proof (node_at_nonempty _ _ _ Ht) as Hne.
    destruct o; simpl in *; try contradiction.
    + eauto.
    + destruct Ho as [-> ->]. unfold sem_replace.
      destruct (node_at w (key h (tmp_of temp))) as [[|f]|]; simpl; eauto.
      rewrite Ht. destruct (writable w (key h temp)); simpl; eauto.
      exists f. destruct (key h temp); [done|]. simpl. by rewrite lookup_insert_eq.
    + unfold sem_subprocess.
      set (r := command_behaviour h c _).
      assert (exists t', node_at
                match output r with
                | Some f => if writable w (key h (command_output c))
                            then write (key h (command_output c)) f (emit (EvRun c) w)
                            else emit (EvRun c) w
                | None => emit (EvRun c) w
                end (key h temp) = Some (File t')) as Hw.
      { destruct (output r) as [f|]; [destruct (writable w _)|];
          rewrite ?node_at_emit; eauto.
        destruct (decide (key h temp = key h (command_output c))) as [<-|Hd].
        - rewrite node_at_write_eq by auto. eauto.
        - rewrite node_at_write_ne, node_at_emit by auto. eauto. }
      destruct (check && negb (returncode r =? 0))%bool; exact Hw.
    + rewrite node_at_emit. eauto.
Qed.

Lemma try_except_returns {A} (p : prog A) hd :
  (forall e w, exists a, (run h (hd e) w).1 = inr a) ->
  forall w, exists a, (run h (try_except p hd) w).1 = inr a.
Proof.
  intros Hh w. rewrite run_try_except.
  destruct (run h p w) as [[e|a] w1]; simpl; eauto.
Qed.

End Generic.

Section Strategies.

Variable h : Host.
Variable self : ImageCompressor.

Lemma compress_jpeg_quiet t q : ops_in quiet_op (compress_jpeg self t q).
Proof. unfold compress_jpeg, log. ops_in_tac; simpl; auto. Qed.

Lemma compress_png_quiet t : ops_in quiet_op (compress_png self t).
Proof. unfold compress_png, png_quantize, png_lossless, log. ops_in_tac; simpl; auto. Qed.

Lemma compress_gif_quiet t : ops_in quiet_op (compress_gif self t).
Proof. unfold compress_gif, log. ops_in_tac; simpl; auto. Qed.

Lemma compress_jpeg_scratch t q :
  ops_in (scratch_op t) (compress_jpeg self t q).
Proof. unfold compress_jpeg, log. ops_in_tac; simpl; auto. Qed.

Lemma compress_png_scratch t :
  ops_in (scratch_op t) (compress_png self t).
Proof. unfold compress_png, png_quantize, png_lossless, log. ops_in_tac; simpl; auto. Qed.

Lemma compress_gif_scratch t :
  ops_in (scratch_op t) (compress_gif self t).
Proof. unfold compress_gif, log. ops_in_tac; simpl; auto. Qed.

Lemma create_backup_quiet p : ops_in quiet_op (create_backup self p).
Proof. unfold create_backup, log. ops_in_tac; simpl; auto. Qed.

Lemma create_backup_no_launch p : ops_in no_launch_op (create_backup self p).
Proof. unfold create_backup, log. ops_in_tac; simpl; auto. Qed.

Lemma compress_jpeg_returns t q w :
  exists b, (run h (compress_jpeg self t q) w).1 = inr b.
Proof.
  apply try_except_returns. intros [] w'; simpl; eauto.
Qed.

Lemma compress_png_returns t w :
  exists b, (run h (compress_png self t) w).1 = inr b.
Proof.
  apply try_except_returns. intros [] w'; simpl; eauto.
Qed.

Lemma compress_gif_returns t w :
  exists b, (run h (compress_gif self t) w).1 = inr b.
Proof.
  apply try_except_returns. intros [] w'; simpl; eauto.
Qed.

End Strategies.

(* ===================================================================== *)
(** * The backup gate *)
(* ===================================================================== *)

Section Backup.

Variable h : Host.
Variable self : ImageCompressor.

Lemma file_at_emit e w k : file_at (emit e w) k = file_at w k.
Proof. unfold file_at. by rewrite node_at_emit. Qed.

Lemma create_backup_disabled p w :
  force_no_backup_check self = true \/ backup_enabled self = false ->
  run h (create_backup self p) w = (inr true, w).
Proof.
  unfold create_backup. intros [-> | ->]; [reflexivity|].
  destruct (force_no_backup_check self); reflexivity.
Qed.

(** The run of an enabled backup, operation by operation. *)
Lemma create_backup_enabled p w :
  force_no_backup_check self = false ->
  backup_enabled self = true ->
  run h (create_backup self p) w =
  let failure e w' := (inr false, emit (EvLog Error (MsgBackupFailed p e)) w') in
  match sem_mkdir h (backup_dir self) false true w with
  | (inl e, w1) => failure e w1
  | (inr _, w1) =>
      match Path.relative_to p (Path.mk true (cwd h)) with
      | None => failure ValueError w1
      | Some rel =>
          let backup_file := Path.joinpath (backup_dir self) rel in
          match sem_mkdir h (Path.parent backup_file) true true w1 with
          | (inl e, w2) => failure e w2
          | (inr _, w2) =>
              match sem_copy2 h p backup_file w2 with
              | (inl e, w3) => failure e w3
              | (inr _, w3) => (inr true, w3)
              end
          end
      end
  end.
Proof.
  intros Hf He. unfold create_backup. rewrite Hf, He. cbn [negb].
  run_step.
  destruct (sem_mkdir h (backup_dir self) false true w) as [[e|[]] w1];
    run_step; [reflexivity|].
  destruct (Path.relative_to p _) as [rel|]; run_step; [|reflexivity].
  destruct (sem_mkdir h _ true true w1) as [[e|[]] w2]; run_step; [reflexivity|].
  destruct (sem_copy2 h p _ w2) as [[e|[]] w3]; run_step; reflexivity.
Qed.

Lemma create_backup_returns p w :
  exists b, (run h (create_backup self p) w).1 = inr b.
Proof.
  unfold create_backup.
  destruct (force_no_backup_check self); [simpl; eauto|].
  destruct (negb (backup_enabled self)); [simpl; eauto|].
  apply try_except_returns. intros e w'. simpl. eauto.
Qed.

(** A failed backup has written no file. *)
Lemma create_backup_failed_files p w :
  (run h (create_backup self p) w).1 = inr false ->
  forall k, file_at (run h (create_backup self p) w).2 k = file_at w k.
Proof.
  destruct (force_no_backup_check self) eqn:Hf;
    [rewrite create_backup_disabled by auto; discriminate|].
  destruct (backup_enabled self) eqn:He;
    [|rewrite create_backup_disabled by auto; discriminate].
  rewrite create_backup_enabled by assumption. cbv zeta.
  pose proof (sem_mkdir_effects h (backup_dir self) false true w) as (_&_&_&_&Hf1).
  destruct (sem_mkdir h (backup_dir self) false true w) as [[e|[]] w1];
    simpl in *; [intros _ k; by rewrite file_at_emit|].
  destruct (Path.relative_to p _) as [rel|]; simpl;
    [|intros _ k; by rewrite file_at_emit].
  pose proof (sem_mkdir_effects h
    (Path.parent (Path.joinpath (backup_dir self) rel)) true true w1)
    as (_&_&_&_&Hf2).
  destruct (sem_mkdir h _ true true w1) as [[e|[]] w2]; simpl in *;
    [intros _ k; by rewrite file_at_emit, Hf2|].
  destruct (sem_copy2_spec h p (Path.joinpath (backup_dir self) rel) w2)
    as [(f & Hr & _)|(e & Hr & Hw)];
    destruct (sem_copy2 h p _ w2) as [[e'|[]] w3]; simpl in *;
    try discriminate.
  subst w3. intros _ k. by rewrite file_at_emit, Hf2.
Qed.

(** The backup never writes over the file it backs up. *)
Lemma create_backup_frame p w :
  is_Some (node_at w (key h p)) ->
  node_at (run h (create_backup self p) w).2 (key h p) = node_at w (key h p).
Proof.
  intros Hin.
  destruct (force_no_backup_check self) eqn:Hf;
    [by rewrite create_backup_disabled by auto|].
  destruct (backup_enabled self) eqn:He;
    [|by rewrite create_backup_disabled by auto].
  rewrite create_backup_enabled by assumption. cbv zeta.
  pose proof (sem_mkdir_effects h (backup_dir self) false true w) as (_&_&_&Hn1&_).
  destruct (sem_mkdir h (backup_dir self) false true w) as [[e|[]] w1];
    simpl in *; [by rewrite node_at_emit, Hn1|].
  assert (is_Some (node_at w1 (key h p))) as Hin1 by (by rewrite Hn1).
  destruct (Path.relative_to p _) as [rel|]; simpl;
    [|by rewrite node_at_emit, Hn1].
  pose proof (sem_mkdir_effects h
    (Path.parent (Path.joinpath (backup_dir self) rel)) true true w1)
    as (_&_&_&Hn2&_).
  destruct (sem_mkdir h _ true true w1) as [[e|[]] w2]; simpl in *;
    [by rewrite node_at_emit, Hn2, Hn1|].
  destruct (sem_copy2_spec h p (Path.joinpath (backup_dir self) rel) w2)
    as [(f & Hr & _ & Hw & Hne & _)|(e & Hr & Hw)];
    destruct (sem_copy2 h p _ w2) as [[e'|[]] w3]; simpl in *;
    try discriminate; subst w3.
  - rewrite node_at_write_ne by auto. by rewrite Hn2, Hn1.
  - by rewrite node_at_emit, Hn2, Hn1.
Qed.

(** A backup that succeeds with backups switched on has stored the
    source's bytes and metadata under the backup directory. *)
Lemma create_backup_mirror p w :
  force_no_backup_check self = false ->
  backup_enabled self = true ->
  (run h (create_backup self p) w).1 = inr true ->
  exists rel f d,
    Path.relative_to p (Path.mk true (cwd h)) = Some rel /\
    file_at w (key h p) = Some f /\
    file_at (run h (create_backup self p) w).2 d = Some f /\
    (d = key h (Path.joinpath (backup_dir self) rel) \/
     d = key h (Path.joinpath (backup_dir self) rel) ++ [Path.name p]).
Proof.
  intros Hf He. rewrite create_backup_enabled by assumption. cbv zeta.
  pose proof (sem_mkdir_effects h (backup_dir self) false true w) as (_&_&_&_&Hf1).
  destruct (sem_mkdir h (backup_dir self) false true w) as [[e|[]] w1];
    simpl in *; [discriminate|].
  destruct (Path.relative_to p _) as [rel|]; simpl; [|discriminate].
  pose proof (sem_mkdir_effects h
    (Path.parent (Path.joinpath (backup_dir self) rel)) true true w1)
    as (_&_&_&_&Hf2).
  destruct (sem_mkdir h _ true true w1) as [[e|[]] w2]; simpl in *; [discriminate|].
  destruct (sem_copy2_spec h p (Path.joinpath (backup_dir self) rel) w2)
    as [(f & Hr & Hsrc & Hw & Hne & Hnd)|(e & Hr & Hw)];
    destruct (sem_copy2 h p _ w2) as [[e'|[]] w3]; simpl in *;
    try discriminate; subst w3.
  intros _. exists rel, f, (copy_target h p (Path.joinpath (backup_dir self) rel) w2).
  split; [reflexivity|]. split; [by rewrite <- Hf1, <- Hf2|]. split.
  - apply file_at_node. apply node_at_write_eq.
    intros Hnil. rewrite Hnil in Hnd. by apply Hnd.
  - clear. unfold copy_target. destruct (node_at w2 _) as [[|g]|]; auto.
Qed.

(** A source outside the working directory cannot be backed up. *)
Lemma create_backup_outside p w :
  force_no_backup_check self = false ->
  backup_enabled self = true ->
  Path.relative_to p (Path.mk true (cwd h)) = None ->
  (run h (create_backup self p) w).1 = inr false.
Proof.
  intros Hf He Hrel. rewrite create_backup_enabled by assumption. cbv zeta.
  rewrite Hrel.
  destruct (sem_mkdir h (backup_dir self) false true w) as [[e|[]] w1]; reflexivity.
Qed.

End Backup.

(* ===================================================================== *)
(** * The stages of [compress_image] *)
(* ===================================================================== *)

Section Stages.

Variable h : Host.
Variable self : ImageCompressor.

Lemma run_on_error input e w :
  run h (on_error input e) w = (inr false, failed_world input e w).
Proof. destruct e; reflexivity. Qed.

Lemma run_bump k d w : run h (stats_add k d) w = (inr tt, bump k d w).
Proof. reflexivity. Qed.

Lemma run_cleanup temp w :
  run h (cleanup temp) w =
  match node_at w (key h temp) with
  | Some (File _) => (inr tt, set_fs (delete (key h temp) (fs w)) w)
  | Some Dir => (inl IsADirectoryError, w)
  | None => (inr tt, w)
  end.
Proof.
  unfold cleanup. run_step. unfold path_exists.
  pose proof (sem_unlink_spec h temp w) as Hu.
  destruct (node_at w (key h temp)) as [[|f]|]; run_step;
    try rewrite Hu; reflexivity.
Qed.

Lemma run_commit input temp original t w :
  node_at w (key h temp) = Some (File t) ->
  run h (commit input temp original) w =
  if size t <? original then
    match sem_copy2 h temp input w with
    | (inl e, w1) => (inl e, w1)
    | (inr _, w1) =>
        (inr true, committed_world input original (size t) w1)
    end
  else (inr false, emit (EvLog Info (MsgNotSmaller input)) w).
Proof.
  intros Ht. unfold commit. run_step.
  unfold sem_getsize. rewrite Ht. run_step.
  destruct (size t <? original); run_step; [|reflexivity].
  destruct (sem_copy2 h temp input w) as [[e|[]] w1]; run_step; reflexivity.
Qed.

(** ** The strategies *)

Lemma strategy_effects (p : prog bool) temp w :
  ops_in quiet_op p ->
  ops_in (scratch_op temp) p ->
  stats (run h p w).2 = stats w /\
  outcomes (trace (run h p w).2) = outcomes (trace w) /\
  (forall k, k <> key h temp -> k <> key h (tmp_of temp) ->
             node_at (run h p w).2 k = node_at w k) /\
  ((exists t, node_at w (key h temp) = Some (File t)) ->
   exists t, node_at (run h p w).2 (key h temp) = Some (File t)).
Proof.
  intros Hq Hc. destruct (quiet_run h p w Hq) as [Hs Ho].
  split; [exact Hs|]. split; [exact Ho|]. split.
  - by apply scratch_frame.
  - by apply scratch_keeps_file.
Qed.

Lemma has_strategy_false ext :
  has_strategy ext = false ->
  String.eqb ext ".jpg" = false /\ String.eqb ext ".jpeg" = false /\
  String.eqb ext ".png" = false /\ String.eqb ext ".gif" = false.
Proof.
  unfold has_strategy.
  destruct (String.eqb ext ".jpg"), (String.eqb ext ".jpeg"),
    (String.eqb ext ".png"), (String.eqb ext ".gif"); simpl; auto; discriminate.
Qed.

(** Without a strategy the dispatch only logs. *)
Lemma run_dispatch_unsupported input temp ext q w :
  has_strategy ext = false ->
  run h (dispatch self input temp ext q) w =
  (inr None, emit (EvLog Info (MsgUnsupported input)) w).
Proof.
  intros (H1 & H2 & H3 & H4)%has_strategy_false.
  unfold dispatch. rewrite H1, H2, H3, H4. reflexivity.
Qed.

(** With a strategy the dispatch returns the strategy's verdict, counts
    nothing, logs no outcome and stays within the scratch file and the
    optimiser's output file. *)
Lemma run_dispatch_supported input temp ext q w :
  has_strategy ext = true ->
  exists c,
    (run h (dispatch self input temp ext q) w).1 = inr (Some c) /\
    stats (run h (dispatch self input temp ext q) w).2 = stats w /\
    outcomes (trace (run h (dispatch self input temp ext q) w).2)
      = outcomes (trace w) /\
    (forall k, k <> key h temp -> k <> key h (tmp_of temp) ->
               node_at (run h (dispatch self input temp ext q) w).2 k
               = node_at w k) /\
    ((exists t, node_at w (key h temp) = Some (File t)) ->
     exists t, node_at (run h (dispatch self input temp ext q) w).2 (key h temp)
               = Some (File t)).
Proof.
  intros Hs. unfold dispatch, has_strategy in *.
  destruct (String.eqb ext ".jpg" || String.eqb ext ".jpeg")%bool.
  - destruct (compress_jpeg_returns h self temp q w) as [c Hc].
    pose proof (strategy_effects _ temp w (compress_jpeg_quiet self temp q)
                  (compress_jpeg_scratch self temp q)) as He.
    rewrite run_bind. destruct (run h (compress_jpeg self temp q) w) as [r w1].
    simpl in *. subst r. simpl. eauto.
  - destruct (String.eqb ext ".png").
    + destruct (compress_png_returns h self temp w) as [c Hc].
      pose proof (strategy_effects _ temp w (compress_png_quiet self temp)
                    (compress_png_scratch self temp)) as He.
      rewrite run_bind. destruct (run h (compress_png self temp) w) as [r w1].
      simpl in *. subst r. simpl. eauto.
    + destruct (String.eqb ext ".gif"); [|discriminate].
      destruct (compress_gif_returns h self temp w) as [c Hc].
      pose proof (strategy_effects _ temp w (compress_gif_quiet self temp)
                    (compress_gif_scratch self temp)) as He.
      rewrite run_bind. destruct (run h (compress_gif self temp) w) as [r w1].
      simpl in *. subst r. simpl. eauto.
Qed.

End Stages.

(* ===================================================================== *)
(** * Names: the optimiser's output file is never the original *)
(* ===================================================================== *)

Section Names.

Variable h : Host.

Lemma list_ascii_app a b :
  list_ascii_of_string (a +:+ b) = list_ascii_of_string a ++ list_ascii_of_string b.
Proof. induction a as [|c a IH]; simpl; [reflexivity|]. by rewrite IH. Qed.

Lemma name_suffix_tmp nm :
  name_suffix (nm +:+ ".tmp") = EmptyString \/ name_suffix (nm +:+ ".tmp") = ".tmp".
Proof.
  unfold name_suffix. rewrite list_ascii_app, rev_app_distr. simpl.
  destruct (rev (list_ascii_of_string nm)); simpl; auto.
Qed.

Lemma has_strategy_tmp nm : has_strategy (lower (name_suffix (nm +:+ ".tmp"))) = false.
Proof. destruct (name_suffix_tmp nm) as [-> | ->]; reflexivity. Qed.

Lemma last_app_nonempty {A} (l l' : list A) d :
  l' <> [] -> List.last (l ++ l') d = List.last l' d.
Proof.
  intros Hne. induction l as [|x l IH]; [reflexivity|].
  simpl. destruct (l ++ l') eqn:E; [|exact IH].
  destruct l; simpl in E; [contradiction | discriminate].
Qed.

Lemma append_last_snoc l x s : Path.append_last (l ++ [x]) s = l ++ [x +:+ s].
Proof.
  induction l as [|y l IH]; [reflexivity|].
  simpl. rewrite IH. destruct (l ++ [x]) eqn:E; [|reflexivity].
  destruct l; discriminate.
Qed.

Lemma key_tmp_of td nm :
  key h (tmp_of (Path.mk true (td ++ [nm]))) = td ++ [nm +:+ ".tmp"].
Proof. unfold key, tmp_of, Path.add_text, Path.resolve. simpl. apply append_last_snoc. Qed.

(** A path whose extension has a strategy does not name an output file of
    the optimisers. *)
Lemma strategy_input_not_tmp input td nm :
  has_strategy (lower (Path.suffix input)) = true ->
  key h input <> td ++ [nm +:+ ".tmp"].
Proof.
  intros Hs Hk. unfold Path.suffix, Path.name in Hs.
  destruct (Path.parts input) as [|x ps] eqn:Hp; [discriminate|].
  assert (List.last (x :: ps) EmptyString = nm +:+ ".tmp") as Hl.
  { unfold key, Path.resolve in Hk. rewrite Hp in Hk.
    destruct (Path.absolute input).
    - rewrite Hk. apply last_last.
    - rewrite <- (last_app_nonempty (cwd h) (x :: ps)) by discriminate.
      rewrite Hk. apply last_last. }
  rewrite Hl, has_strategy_tmp in Hs. discriminate.
Qed.

End Names.

(* ===================================================================== *)
(** * The run of one job *)
(* ===================================================================== *)

Section Job.

Variable h : Host.
Variable self : ImageCompressor.

(** [compress_image] stage by stage: the handlers turn every exception
    into a counted failure, and [processed] is counted last. *)
Lemma compress_image_run input q w :
  run h (compress_image self input q) w =
  let ext := lower (Path.suffix input) in
  let body :=
    match sem_getsize h input w with
    | (inl e, w1) => (inl e, w1)
    | (inr original, w1) =>
        match run h (create_backup self input) w1 with
        | (inl e, w2) => (inl e, w2)
        | (inr false, w2) =>
            (inr false, emit (EvLog Error (MsgNoBackupSkip input)) w2)
        | (inr true, w2) =>
            match sem_tempfile h ext w2 with
            | (inl e, w3) => (inl e, w3)
            | (inr temp, w3) =>
                run h (try_finally
                         (scratch_phase self input temp ext q original)
                         (cleanup temp)) w3
            end
        end
    end in
  match body with
  | (inr b, w') => (inr b, bump Processed 1 w')
  | (inl e, w') => (inr false, bump Processed 1 (failed_world input e w'))
  end.
Proof.
  unfold compress_image. cbv zeta.
  rewrite run_try_finally, run_bump, run_try_except. cbn [fst snd].
  rewrite run_bind, run_call. cbn [exec].
  destruct (sem_getsize h input w) as [[e|original] w1]; cbn [fst snd].
  { rewrite run_on_error. reflexivity. }
  rewrite run_bind.
  destruct (run h (create_backup self input) w1) as [[e|[|]] w2]; cbn [fst snd negb].
  - rewrite run_on_error. reflexivity.
  - rewrite run_bind, run_call. cbn [exec].
    destruct (sem_tempfile h _ w2) as [[e|temp] w3]; cbn [fst snd].
    + rewrite run_on_error. reflexivity.
    + destruct (run h (try_finally _ _) w3) as [[e|b] w4]; cbn [fst snd].
      * rewrite run_on_error. reflexivity.
      * reflexivity.
  - reflexivity.
Qed.

(** The inner [try ... finally], stage by stage. *)
Lemma scratch_run input temp ext q original w :
  run h (try_finally (scratch_phase self input temp ext q original)
                     (cleanup temp)) w =
  let body :=
    match sem_copy2 h input temp w with
    | (inl e, w1) => (inl e, w1)
    | (inr _, w1) =>
        match run h (dispatch self input temp ext q) w1 with
        | (inl e, w2) => (inl e, w2)
        | (inr None, w2) => (inr false, w2)
        | (inr (Some false), w2) =>
            (inr false, emit (EvLog Warning (MsgToolUnavailable input)) w2)
        | (inr (Some true), w2) => run h (commit input temp original) w2
        end
    end in
  match run h (cleanup temp) body.2 with
  | (inr _, w') => (body.1, w')
  | (inl e, w') => (inl e, w')
  end.
Proof.
  rewrite run_try_finally. cbv zeta.
  assert (run h (scratch_phase self input temp ext q original) w =
          match sem_copy2 h input temp w with
          | (inl e, w1) => (inl e, w1)
          | (inr _, w1) =>
              match run h (dispatch self input temp ext q) w1 with
              | (inl e, w2) => (inl e, w2)
              | (inr None, w2) => (inr false, w2)
              | (inr (Some false), w2) =>
                  (inr false, emit (EvLog Warning (MsgToolUnavailable input)) w2)
              | (inr (Some true), w2) => run h (commit input temp original) w2
              end
          end) as ->.
  { unfold scratch_phase. rewrite run_bind, run_call. cbn [exec].
    destruct (sem_copy2 h input temp w) as [[e|[]] w1]; cbn [fst snd]; [reflexivity|].
    rewrite run_bind.
    destruct (run h (dispatch self input temp ext q) w1) as [[e|[[|]|]] w2];
      reflexivity. }
  destruct (run h (cleanup temp) _) as [[e|[]] w']; reflexivity.
Qed.

End Job.

Section Scratch.

Variable h : Host.
Variable self : ImageCompressor.

Lemma node_at_bump k d w x : node_at (bump k d w) x = node_at w x.
Proof. apply node_at_set_stats. Qed.

Lemma node_at_committed input o s w x :
  node_at (committed_world input o s w) x = node_at w x.
Proof.
  unfold committed_world. by rewrite node_at_emit, !node_at_bump.
Qed.

Lemma run_cleanup_file temp w t :
  node_at w (key h temp) = Some (File t) ->
  run h (cleanup temp) w = (inr tt, remove (key h temp) w).
Proof. intros Ht. by rewrite run_cleanup, Ht. Qed.

Lemma sem_copy2_cases src dst w :
  (exists e, sem_copy2 h src dst w = (inl e, w)) \/
  (exists f, file_at w (key h src) = Some f /\
             sem_copy2 h src dst w = (inr tt, write (copy_target h src dst w) f w) /\
             copy_target h src dst w <> key h src /\
             node_at w (copy_target h src dst w) <> Some Dir).
Proof.
  destruct (sem_copy2_spec h src dst w) as [(f & H1 & H2 & H3 & H4 & H5)|(e & H1 & H2)];
    destruct (sem_copy2 h src dst w) as [r w1]; simpl in *; subst; eauto 10.
Qed.

Lemma copy_target_file src dst w t :
  node_at w (key h dst) = Some (File t) -> copy_target h src dst w = key h dst.
Proof. unfold copy_target. by intros ->. Qed.

(** Every run of lines 186-228 is one of the cases. *)
Lemma scratch_analysis input temp ext q original w t0 :
  node_at w (key h temp) = Some (File t0) ->
  scratch_case h self input temp ext q original w
    (run h (try_finally (scratch_phase self input temp ext q original)
                        (cleanup temp)) w).
Proof.
  intros Ht0. rewrite scratch_run. cbv zeta.
  pose proof (node_at_nonempty _ _ _ Ht0) as Hne.
  destruct (sem_copy2_cases input temp w) as [[e He]|(f & Hf & Hc & Hd & _)].
  { rewrite He. cbn [fst snd]. rewrite (run_cleanup_file temp w t0) by assumption.
    by apply sc_copy_failed. }
  rewrite (copy_target_file input temp w t0) in Hc, Hd by assumption.
  rewrite Hc.
  assert (node_at (write (key h temp) f w) (key h temp) = Some (File f)) as Ht1
    by (by apply node_at_write_eq).
  destruct (has_strategy ext) eqn:Hs.
  - destruct (run_dispatch_supported h self input temp ext q
                (write (key h temp) f w) Hs) as (c & Hr & _ & _ & _ & Hkeep).
    destruct Hkeep as [t Ht]; [eauto|].
    destruct (run h (dispatch self input temp ext q) (write (key h temp) f w))
      as [r w2] eqn:Hrun.
    simpl in Hr, Ht. subst r. destruct c.
    + rewrite (run_commit h input temp original t w2 Ht).
      destruct (Z.ltb_spec (size t) original) as [Hlt|Hge].
      * destruct (sem_copy2_cases temp input w2) as [[e He]|(t' & Ht' & Hc' & Hd' & _)].
        -- rewrite He. cbn [fst snd].
           rewrite (run_cleanup_file temp w2 t) by assumption.
           eapply sc_commit_failed; eauto.
        -- apply file_at_node in Ht'. rewrite Ht in Ht'. injection Ht' as <-.
           rewrite Hc'. cbn [fst snd].
           rewrite (run_cleanup_file temp _ t).
           ++ eapply sc_committed; eauto.
           ++ rewrite node_at_committed, node_at_write_ne; auto.
      * cbn [fst snd].
        rewrite (run_cleanup_file temp _ t) by (by rewrite node_at_emit).
        eapply sc_not_smaller; eauto.
    + cbn [fst snd].
      rewrite (run_cleanup_file temp _ t) by (by rewrite node_at_emit).
      eapply sc_no_tool; eauto.
  - rewrite run_dispatch_unsupported by assumption. cbn [fst snd].
    rewrite (run_cleanup_file temp _ f) by (by rewrite node_at_emit).
    by apply sc_unsupported.
Qed.

End Scratch.

Section JobAnalysis.

Variable h : Host.
Variable self : ImageCompressor.

(** Every run of [compress_image] is one of the cases. *)
Lemma job_analysis input q w :
  job_case h self input q w (run h (compress_image self input q) w).
Proof.
  rewrite compress_image_run. cbv zeta.
  pose proof (sem_getsize_spec h input w) as [Hw Hr].
  destruct (sem_getsize h input w) as [[e|original] w1] eqn:Hg;
    cbn [fst snd] in Hw, Hr; subst w1.
  { destruct Hr as [Hnone ->]. by apply jc_missing. }
  assert (is_Some (node_at w (key h input))) as Hin.
  { destruct (node_at w (key h input)); [eauto|contradiction]. }
  destruct (create_backup_returns h self input w) as [b Hb].
  destruct (run h (create_backup self input) w) as [rb w2] eqn:Hrun.
  cbn [fst] in Hb. subst rb. destruct b.
  - pose proof (sem_tempfile_spec h (lower (Path.suffix input)) w2) as Ht.
    destruct (sem_tempfile h (lower (Path.suffix input)) w2) as [[e|temp] w3] eqn:Htmp;
      cbn [fst snd] in Ht.
    + subst w3. by apply (jc_no_scratch h self input q w w2 e).
    + destruct Ht as (nm & i & -> & Hfree & ->).
      set (r := run h (try_finally _ _) _).
      change (job_case h self input q w (settle input r)).
      apply (jc_scratch h self input q w original w2 nm i r); auto.
      * by rewrite Hg.
      * subst r. eapply scratch_analysis.
        rewrite node_at_set_seed. apply node_at_write_eq.
        by eapply node_at_none_nonempty.
  - by apply (jc_backup_failed h self input q w w2).
Qed.

End JobAnalysis.

Ltac world_simpl :=
  cbn [trace stats seed fs bump emit remove write set_fs set_stats set_seed
       committed_world failed_world settle fst snd] in *.

(* ===================================================================== *)
(** * What one job counts and logs *)
(* ===================================================================== *)

Section Accounting.

Variable h : Host.
Variable self : ImageCompressor.

Lemma dispatch_effects input temp ext q w c w2 :
  has_strategy ext = true ->
  run h (dispatch self input temp ext q) w = (inr (Some c), w2) ->
  stats w2 = stats w /\
  outcomes (trace w2) = outcomes (trace w) /\
  (forall k, k <> key h temp -> k <> key h (tmp_of temp) ->
             node_at w2 k = node_at w k).
Proof.
  intros Hs Hrun.
  destruct (run_dispatch_supported h self input temp ext q w Hs)
    as (c' & _ & H1 & H2 & H3 & _).
  rewrite Hrun in H1, H2, H3. auto.
Qed.

Lemma create_backup_effects input w b w2 :
  run h (create_backup self input) w = (b, w2) ->
  stats w2 = stats w /\
  outcomes (trace w2) = outcomes (trace w) /\
  launches (trace w2) = launches (trace w).
Proof.
  intros Hrun.
  pose proof (quiet_run h _ w (create_backup_quiet self input)) as [H1 H2].
  pose proof (no_launch_run h _ w (create_backup_no_launch self input)) as H3.
  rewrite Hrun in H1, H2, H3. auto.
Qed.

Lemma error_outcome input e :
  outcome_of (EvLog Error (error_message input e)) = Some JobFailed.
Proof. destruct e; reflexivity. Qed.

(** What the inner [try] counts and logs, case by case. *)
Lemma scratch_accounting input temp ext q original w r :
  scratch_case h self input temp ext q original w r ->
  match r.1 with
  | inr true =>
      outcomes (trace r.2) = JobCompressed :: outcomes (trace w) /\
      st_processed (stats r.2) = st_processed (stats w) /\
      st_compressed (stats r.2) = st_compressed (stats w) + 1 /\
      st_failed (stats r.2) = st_failed (stats w) /\
      st_total_files (stats r.2) = st_total_files (stats w)
  | inr false =>
      outcomes (trace r.2) = JobSkipped :: outcomes (trace w) /\
      stats r.2 = stats w
  | inl e =>
      outcomes (trace r.2) = outcomes (trace w) /\
      stats r.2 = stats w
  end.
Proof.
  intros Hc. destruct Hc; world_simpl.
  - auto.
  - auto.
  - destruct (dispatch_effects _ _ _ _ _ _ _ ltac:(eassumption) ltac:(eassumption))
      as (Hst & Ho & _).
    rewrite outcomes_cons. cbn [outcome_of]. rewrite Ho, Hst. auto.
  - destruct (dispatch_effects _ _ _ _ _ _ _ ltac:(eassumption) ltac:(eassumption))
      as (Hst & Ho & _).
    rewrite outcomes_cons. cbn [outcome_of]. rewrite Ho, Hst. auto.
  - destruct (dispatch_effects _ _ _ _ _ _ _ ltac:(eassumption) ltac:(eassumption))
      as (Hst & Ho & _).
    rewrite Ho, Hst. auto.
  - destruct (dispatch_effects _ _ _ _ _ _ _ ltac:(eassumption) ltac:(eassumption))
      as (Hst & Ho & _).
    rewrite outcomes_cons. cbn [outcome_of]. rewrite Ho, Hst. world_simpl.
    repeat split; simpl; lia.
Qed.

(** Each job logs exactly one outcome, counts [processed] once, and counts
    [compressed] or [failed] once exactly when that is its outcome. *)
Lemma job_accounting input q w :
  exists o,
    (run h (compress_image self input q) w).1 = inr (is_compressed o) /\
    outcomes (trace (run h (compress_image self input q) w).2)
      = o :: outcomes (trace w) /\
    st_processed (stats (run h (compress_image self input q) w).2)
      = st_processed (stats w) + 1 /\
    st_compressed (stats (run h (compress_image self input q) w).2)
      = st_compressed (stats w) + (if is_compressed o then 1 else 0) /\
    st_failed (stats (run h (compress_image self input q) w).2)
      = st_failed (stats w) + (if is_failed o then 1 else 0) /\
    st_total_files (stats (run h (compress_image self input q) w).2)
      = st_total_files (stats w).
Proof.
  destruct (job_analysis h self input q w) as [Hn|w2 Hin Hb|w2 e Hin Hb Ht|
    original w2 nm i r Hg Hin Hb ext temp w3 Hfree Ht Hsc].
  - exists JobFailed. world_simpl. rewrite outcomes_cons, error_outcome.
    repeat split; simpl; lia.
  - apply create_backup_effects in Hb as (Hst & Ho & _).
    exists JobSkipped. world_simpl. rewrite outcomes_cons. cbn [outcome_of].
    rewrite Ho, Hst. repeat split; simpl; lia.
  - apply create_backup_effects in Hb as (Hst & Ho & _).
    exists JobFailed. world_simpl. rewrite outcomes_cons, error_outcome.
    rewrite Ho, Hst. repeat split; simpl; lia.
  - apply create_backup_effects in Hb as (Hst & Ho & _).
    apply scratch_accounting in Hsc.
    destruct r as [[e|[|]] w4]; world_simpl.
    + destruct Hsc as [Ho' Hst']. subst w3. world_simpl.
      exists JobFailed. rewrite outcomes_cons, error_outcome.
      rewrite Ho', Hst', Ho, Hst. repeat split; simpl; lia.
    + destruct Hsc as (Ho' & H1 & H2 & H3 & H4). subst w3. world_simpl.
      exists JobCompressed. rewrite Ho', Ho.
      repeat split; simpl; rewrite ?H1, ?H2, ?H3, ?H4, ?Hst; lia.
    + destruct Hsc as [Ho' Hst']. subst w3. world_simpl.
      exists JobSkipped. rewrite Ho', Hst', Ho, Hst. repeat split; simpl; lia.
Qed.

End Accounting.

(* ===================================================================== *)
(** * The worker pool without interleaving *)
(* ===================================================================== *)

Section Pool.

Variable h : Host.

Lemma pool_run_app a b s : pool_run h (a ++ b) s = pool_run h b (pool_run h a s).
Proof. unfold pool_run. apply fold_left_app. Qed.

Lemma pool_run_cons i l s : pool_run h (i :: l) s = pool_run h l (pool_step h i s).
Proof. reflexivity. Qed.

(** A worker that is scheduled until its call ends leaves the world the
    call's run leaves. *)
Lemma pool_run_job (p : prog bool) : forall q ws w (i : nat),
  ws !! i = Some (Some p) ->
  exists p',
    idle (Some p') = true /\
    pool_run h (replicate (steps h p w) i) {| queue := q; workers := ws; shared := w |}
    = {| queue := q; workers := <[i := Some p']> ws; shared := (run h p w).2 |}.
Proof.
  induction p as [a|e|X o k IH]; intros q ws w i Hi.
  - exists (Ret a). split; [reflexivity|]. simpl. by rewrite list_insert_id.
  - exists (Throw e). split; [reflexivity|]. simpl. by rewrite list_insert_id.
  - cbn [steps replicate run]. unfold pool_run. cbn [fold_left].
    unfold pool_step at 2. cbn [workers shared queue]. rewrite Hi.
    destruct (IH (exec h o w).1 q (<[i := Some (k (exec h o w).1)]> ws)
                (exec h o w).2 i) as (p' & Hidle & Hrun).
    { apply list_lookup_insert_eq. by eapply lookup_lt_Some. }
    exists p'. split; [exact Hidle|].
    unfold pool_run in Hrun. rewrite Hrun. by rewrite list_insert_insert_eq.
Qed.

Lemma idle_insert ws (i : nat) t :
  Forall (fun t => idle t = true) ws -> idle t = true ->
  Forall (fun t => idle t = true) (<[i := t]> ws).
Proof. intros. by apply Forall_insert. Qed.

(** Jobs that run one at a time, each on any worker, leave the world
    their sequential run leaves, and the pool finishes. *)
Lemma pool_serial jobs : forall choice ws w,
  length choice = length jobs ->
  Forall (fun i : nat => (i < length ws)%nat) choice ->
  Forall (fun t => idle t = true) ws ->
  let s := pool_run h (serial_schedule h jobs choice w)
             {| queue := jobs; workers := ws; shared := w |} in
  queue s = [] /\
  Forall (fun t => idle t = true) (workers s) /\
  shared s = run_all h jobs w.
Proof.
  induction jobs as [|j jobs IH]; intros choice ws w Hlen Hch Hidle.
  - destruct choice; [|discriminate]. simpl. auto.
  - destruct choice as [|i choice]; [discriminate|].
    injection Hlen as Hlen. inversion Hch as [|? ? Hi Hch']; subst.
    cbn [serial_schedule replicate]. cbv zeta.
    rewrite pool_run_app, pool_run_cons.
    assert (pool_step h i {| queue := j :: jobs; workers := ws; shared := w |}
            = {| queue := jobs; workers := <[i := Some j]> ws; shared := w |}) as ->.
    { unfold pool_step. cbn [workers queue shared].
      destruct (lookup_lt_is_Some_2 ws i Hi) as [t Ht]. rewrite Ht.
      pose proof (proj1 (Forall_lookup _ ws) Hidle i t Ht) as Hti.
      destruct t as [[a|e|X o k]|]; try reflexivity. discriminate. }
    destruct (pool_run_job j jobs (<[i := Some j]> ws) w i) as (p' & Hp' & ->).
    { by apply list_lookup_insert_eq. }
    rewrite list_insert_insert_eq.
    apply (IH choice (<[i := Some p']> ws) (run h j w).2); auto.
    + by rewrite length_insert.
    + by apply idle_insert.
Qed.

End Pool.

(* ===================================================================== *)
(** * A whole run *)
(* ===================================================================== *)

Section WholeRun.

Variable h : Host.
Variable self : ImageCompressor.

Lemma compress_image_returns input q w :
  exists b, (run h (compress_image self input q) w).1 = inr b.
Proof. destruct (job_accounting h self input q w) as (o & Hr & _). eauto. Qed.

Lemma for_each_run_all fs q w :
  run h (for_each fs (fun f => compress_image self f q)) w
  = (inr tt, run_all h (submitted self fs q) w).
Proof.
  revert w. induction fs as [|f fs IH]; intros w; [reflexivity|].
  cbn [for_each]. rewrite run_bind.
  destruct (compress_image_returns f q w) as [b ->].
  rewrite IH. reflexivity.
Qed.

Lemma count_cons f o os :
  count f (o :: os) = (if f o then 1 else 0) + count f os.
Proof.
  unfold count. rewrite filter_cons.
  destruct (f o); case_decide; try congruence; simpl length; lia.
Qed.

Lemma count_app f os os' : count f (os ++ os') = count f os + count f os'.
Proof. unfold count. rewrite filter_app, length_app. lia. Qed.

Lemma count_partition os :
  count is_compressed os + count is_skipped os + count is_failed os
  = Z.of_nat (length os).
Proof.
  induction os as [|o os IH]; [reflexivity|].
  rewrite !count_cons. cbn [length]. destruct o; simpl; lia.
Qed.

(** Jobs run one after the other keep the statistics and the logged
    outcomes in step. *)
Lemma run_all_consistent fs q : forall w,
  exists os,
    outcomes (trace (run_all h (submitted self fs q) w)) = os ++ outcomes (trace w) /\
    length os = length fs /\
    st_processed (stats (run_all h (submitted self fs q) w))
      = st_processed (stats w) + Z.of_nat (length fs) /\
    st_compressed (stats (run_all h (submitted self fs q) w))
      = st_compressed (stats w) + count is_compressed os /\
    st_failed (stats (run_all h (submitted self fs q) w))
      = st_failed (stats w) + count is_failed os.
Proof.
  induction fs as [|f fs IH]; intros w.
  - exists []. unfold count. simpl. repeat split; try reflexivity; lia.
  - destruct (job_accounting h self f q w) as (o & _ & Ho & Hp & Hc & Hf & _).
    cbn [submitted map run_all fold_left].
    destruct (IH (run h (compress_image self f q) w).2)
      as (os & Ho' & Hlen & Hp' & Hc' & Hf').
    exists (os ++ [o]).
    unfold run_all, submitted in *. rewrite Ho', Ho, Hp', Hp, Hc', Hc, Hf', Hf.
    rewrite <- app_assoc, length_app, !count_app, !count_cons. cbn [length app].
    unfold count. simpl. repeat split; lia.
Qed.

Lemma sequential_world fs q w :
  (run h (process_files_sequential self fs q) w).2
  = run_all h (submitted self fs q)
      (exec h (StatsSet Total_files (Z.of_nat (length fs))) w).2.
Proof.
  unfold process_files_sequential. cbn [bind ask run].
  by rewrite for_each_run_all.
Qed.

(** A pool whose jobs run one at a time ends where the loop of a single
    worker ends. *)
Lemma serial_pool_sequential fs q w n choice :
  length choice = length fs ->
  Forall (fun i : nat => (i < n)%nat) choice ->
  process_files_pool h self fs q n
    (serial_schedule h (submitted self fs q) choice
       (exec h (StatsSet Total_files (Z.of_nat (length fs))) w).2) w
  = Some (run h (process_files_sequential self fs q) w).2.
Proof.
  intros Hlen Hch. unfold process_files_pool. cbv zeta.
  fold (submitted self fs q).
  destruct (pool_serial h (submitted self fs q) choice (replicate n None)
              (exec h (StatsSet Total_files (Z.of_nat (length fs))) w).2)
    as (Hq & Hidle & Hw).
  - unfold submitted. by rewrite length_map.
  - by rewrite length_replicate.
  - apply Forall_replicate. reflexivity.
  - unfold finished. rewrite Hq. cbn [is_nil andb].
    assert (forallb idle (workers (pool_run h
              (serial_schedule h (submitted self fs q) choice
                 (exec h (StatsSet Total_files (Z.of_nat (length fs))) w).2)
              {| queue := submitted self fs q; workers := replicate n None;
                 shared := (exec h (StatsSet Total_files (Z.of_nat (length fs))) w).2 |}))
            = true) as ->.
    { apply forallb_forall. intros t Ht.
      rewrite Forall_forall in Hidle. apply Hidle. by apply list_elem_of_In. }
    by rewrite Hw, sequential_world.
Qed.

Lemma process_files_serial_world fs q w w' :
  process_files_serial h self fs q w w' ->
  w' = (run h (process_files_sequential self fs q) w).2.
Proof.
  intros [|n choice w'' Hn Hlen Hch Hp]; [reflexivity|].
  rewrite serial_pool_sequential in Hp by assumption. congruence.
Qed.

Lemma sequential_consistent fs q w :
  consistent_since w (run h (process_files_sequential self fs q) w).2 (length fs).
Proof.
  rewrite sequential_world.
  destruct (run_all_consistent fs q
              (exec h (StatsSet Total_files (Z.of_nat (length fs))) w).2)
    as (os & Ho & Hlen & Hp & Hc & Hf).
  cbn [exec fst snd] in *. world_simpl. cbn [stats_set st_processed st_compressed st_failed] in *.
  exists os. pose proof (count_partition os).
  repeat split; try assumption; lia.
Qed.

End WholeRun.

(* ===================================================================== *)
(** * The backup gate in a job *)
(* ===================================================================== *)

Section Gate.

Variable h : Host.
Variable self : ImageCompressor.

Lemma file_at_bump k d w x : file_at (bump k d w) x = file_at w x.
Proof. unfold file_at. by rewrite node_at_bump. Qed.

Lemma file_at_failed input e w x : file_at (failed_world input e w) x = file_at w x.
Proof. unfold failed_world. by rewrite file_at_bump, file_at_emit. Qed.

(** A job whose backup fails returns [False] having written no file and
    launched no optimiser; if its source exists, the job is logged as
    skipped for want of a backup and is not counted as failed. *)
Lemma backup_failed_job input q w :
  (run h (create_backup self input) w).1 = inr false ->
  (run h (compress_image self input q) w).1 = inr false /\
  (forall k, file_at (run h (compress_image self input q) w).2 k = file_at w k) /\
  launches (trace (run h (compress_image self input q) w).2) = launches (trace w) /\
  st_compressed (stats (run h (compress_image self input q) w).2)
    = st_compressed (stats w) /\
  (is_Some (node_at w (key h input)) ->
   trace (run h (compress_image self input q) w).2
     = EvLog Error (MsgNoBackupSkip input)
       :: trace (run h (create_backup self input) w).2 /\
   outcomes (trace (run h (compress_image self input q) w).2)
     = JobSkipped :: outcomes (trace w) /\
   st_failed (stats (run h (compress_image self input q) w).2)
     = st_failed (stats w)).
Proof.
  intros Hfail.
  pose proof (create_backup_failed_files h self input w Hfail) as Hfiles.
  destruct (job_analysis h self input q w) as [Hn|w2 Hin Hb|w2 e Hin Hb Ht|
    original w2 nm i r Hg Hin Hb ext temp w3 Hfree Ht Hsc];
    try (rewrite Hb in Hfail; discriminate).
  - world_simpl. split; [reflexivity|]. split.
    { intros k. by rewrite file_at_bump, file_at_failed. }
    split; [by destruct (error_message input _)|].
    split; [reflexivity|].
    intros [n Hn']. congruence.
  - pose proof (create_backup_effects h self input w _ _ Hb) as (Hst & Ho & Hl).
    rewrite Hb in Hfiles. world_simpl.
    split; [reflexivity|]. split.
    { intros k. by rewrite file_at_bump, file_at_emit. }
    split; [by rewrite launches_cons|].
    split; [by rewrite Hst|].
    intros _. split; [by rewrite Hb|].
    split; [by rewrite outcomes_cons, Ho|]. by rewrite Hst.
Qed.

End Gate.

(* ===================================================================== *)
(** * The original file *)
(* ===================================================================== *)

Section Original.

Variable h : Host.
Variable self : ImageCompressor.

Lemma node_at_remove_ne d w k : k <> d -> node_at (remove d w) k = node_at w k.
Proof. apply node_at_delete_ne. Qed.

Lemma node_at_remove_eq d w : d <> [] -> node_at (remove d w) d = None.
Proof. apply node_at_delete_eq. Qed.

Lemma node_at_failed input e w x : node_at (failed_world input e w) x = node_at w x.
Proof. unfold failed_world. by rewrite node_at_bump, node_at_emit. Qed.

(** The scratch file is gone when the inner [try] is left. *)
Lemma scratch_removed input temp ext q original w r :
  scratch_case h self input temp ext q original w r ->
  key h temp <> [] ->
  node_at r.2 (key h temp) = None.
Proof.
  intros Hc Hne. destruct Hc; cbn [snd]; by apply node_at_remove_eq.
Qed.

(** The original is written only by a commit, and then with a strictly
    smaller file; otherwise it is as it was. *)
Lemma scratch_original input nm ext q original w r :
  let temp := Path.mk true (tempdir h ++ [nm]) in
  scratch_case h self input temp ext q original w r ->
  ext = lower (Path.suffix input) ->
  key h input <> key h temp ->
  match r.1 with
  | inr true =>
      exists t, file_at r.2 (key h input) = Some t /\ size t < original
  | _ => node_at r.2 (key h input) = node_at w (key h input)
  end.
Proof.
  intros temp Hc Hext Hne.
  assert (forall c w2,
    has_strategy ext = true ->
    run h (dispatch self input temp ext q) (write (key h temp) c w) = (inr (Some true), w2)
    \/ run h (dispatch self input temp ext q) (write (key h temp) c w) = (inr (Some false), w2) ->
    node_at w2 (key h input) = node_at w (key h input)) as Hframe.
  { intros c w2 Hs Hrun.
    assert (exists b, run h (dispatch self input temp ext q) (write (key h temp) c w)
                      = (inr (Some b), w2)) as [b Hb] by (destruct Hrun; eauto).
    destruct (dispatch_effects h self _ _ _ _ _ _ _ Hs Hb) as (_ & _ & Hfr).
    rewrite Hfr, node_at_write_ne; auto.
    subst temp ext. rewrite key_tmp_of. by apply strategy_input_not_tmp. }
  destruct Hc; cbn [fst snd].
  - by rewrite node_at_remove_ne.
  - by rewrite node_at_remove_ne, node_at_emit, node_at_write_ne.
  - rewrite node_at_remove_ne, node_at_emit by assumption. eauto.
  - rewrite node_at_remove_ne, node_at_emit by assumption. eauto.
  - rewrite node_at_remove_ne by assumption. eauto.
  - exists t. split; [|assumption].
    assert (node_at w2 (key h input) = Some (File f)) as Hin.
    { erewrite Hframe by eauto. by apply file_at_node. }
    rewrite (copy_target_file h temp input w2 f Hin).
    apply file_at_node.
    rewrite node_at_remove_ne, node_at_committed by assumption.
    apply node_at_write_eq. by eapply node_at_nonempty.
Qed.

(** A job that does not return [True] leaves its source as it was; one
    that returns [True] has replaced a regular file by a strictly smaller
    one. *)
Lemma job_original input q w :
  match (run h (compress_image self input q) w).1 with
  | inr true =>
      exists orig t,
        file_at w (key h input) = Some orig /\
        file_at (run h (compress_image self input q) w).2 (key h input) = Some t /\
        size t < size orig
  | _ =>
      node_at (run h (compress_image self input q) w).2 (key h input)
      = node_at w (key h input)
  end.
Proof.
  destruct (job_analysis h self input q w) as [Hn|w2 Hin Hb|w2 e Hin Hb Ht|
    original w2 nm i r Hg Hin Hb ext temp w3 Hfree Ht Hsc]; cbn [settle fst snd].
  - by rewrite node_at_bump, node_at_failed.
  - rewrite node_at_bump, node_at_emit.
    pose proof (create_backup_frame h self input w Hin) as Hfr.
    by rewrite Hb in Hfr.
  - rewrite node_at_bump, node_at_failed.
    pose proof (create_backup_frame h self input w Hin) as Hfr.
    by rewrite Hb in Hfr.
  - pose proof (create_backup_frame h self input w Hin) as Hfr.
    rewrite Hb in Hfr. cbn [snd] in Hfr.
    assert (key h input <> key h temp) as Hne.
    { intros Heq. rewrite <- Heq, Hfr in Hfree. rewrite Hfree in Hin. by destruct Hin. }
    assert (node_at w3 (key h input) = node_at w (key h input)) as Hw3.
    { subst w3. by rewrite node_at_set_seed, node_at_write_ne. }
    pose proof (scratch_original input (nm +:+ ext) ext q original w3 r Hsc
                  eq_refl Hne) as Hso.
    destruct r as [[e|[|]] w4]; cbn [settle fst snd] in *.
    + by rewrite node_at_bump, node_at_failed, Hso.
    + destruct Hso as (t & Ht' & Hlt).
      pose proof (sem_getsize_spec h input w) as [_ Hsz].
      rewrite Hg in Hsz.
      destruct (node_at w (key h input)) as [[|orig]|] eqn:Hnode; try contradiction.
      * (* a directory cannot be the source of the scratch copy *)
        exfalso. inversion Hsc as [| | | | |f w2' t' Hf]; subst.
        apply file_at_node in Hf. rewrite Hw3 in Hf. discriminate.
      * exists orig, t. subst original.
        split; [by apply file_at_node|].
        split; [|assumption].
        unfold file_at. rewrite node_at_bump. exact Ht'.
    + by rewrite node_at_bump, Hso.
Qed.

End Original.

(* ===================================================================== *)
(** * The PNG strategy *)
(* ===================================================================== *)

Section Png.

Variable h : Host.
Variable self : ImageCompressor.

Lemma sem_subprocess_result c check w :
  (sem_subprocess h c check w).1 =
  if (check && negb (status_in h c w =? 0))%bool
  then inl (CalledProcessError (status_in h c w))
  else inr (status_in h c w).
Proof.
  unfold sem_subprocess, status_in.
  destruct (check && negb (returncode _ =? 0))%bool; reflexivity.
Qed.

Lemma sem_subprocess_launches c check w :
  launches (trace (sem_subprocess h c check w).2) = c :: launches (trace w).
Proof.
  pose proof (exec_trace h (Subprocess c check) w) as Ht. cbn [exec op_event] in Ht.
  by rewrite Ht, launches_cons.
Qed.

Lemma sem_replace_trace src dst w : trace (sem_replace h src dst w).2 = trace w.
Proof. apply (exec_trace h (Replace src dst) w). Qed.

Lemma launches_log l m tr : launches (EvLog l m :: tr) = launches tr.
Proof. reflexivity. Qed.

Lemma run_png_lossless temp b w :
  run h (png_lossless self temp b) w =
  match lossless_choice self temp with
  | None => (inr b, w)
  | Some c =>
      match (sem_subprocess h c true w).1 with
      | inl e => (inl e, (sem_subprocess h c true w).2)
      | inr _ => (inr true, (sem_subprocess h c true w).2)
      end
  end.
Proof.
  unfold png_lossless, lossless_choice.
  destruct (available_tools self optipng); [|destruct (available_tools self zopflipng)];
    run_step; try reflexivity;
    destruct (sem_subprocess h _ true w) as [[e|z] w1]; reflexivity.
Qed.

(** The lossy stage launches pngquant when it is available and nothing
    else. *)
Lemma png_quantize_launches temp w :
  launches (trace (run h (png_quantize self temp) w).2) =
  if available_tools self pngquant
  then Pngquant (tmp_of temp) temp :: launches (trace w)
  else launches (trace w).
Proof.
  unfold png_quantize. destruct (available_tools self pngquant); [|reflexivity].
  run_step.
  pose proof (sem_subprocess_launches (Pngquant (tmp_of temp) temp) false w) as Hl.
  destruct (sem_subprocess h _ false w) as [[e|z] w1]; cbn [fst snd] in *;
    run_step; [exact Hl|].
  destruct (z =? 0); run_step; [|exact Hl].
  destruct (path_exists w1 _); run_step; [|exact Hl].
  pose proof (sem_replace_trace (tmp_of temp) temp w1) as Ht.
  destruct (sem_replace h _ _ w1) as [[e|[]] w2]; cbn [fst snd] in *;
    run_step; by rewrite Ht.
Qed.

(** What [compress_png] returns: [True] exactly when the lossy stage did
    not raise and, if a lossless optimiser is available, the one chosen
    exits with status 0, and otherwise the lossy stage succeeded. *)
Lemma compress_png_value temp w :
  (run h (compress_png self temp) w).1 =
  inr match (run h (png_quantize self temp) w).1 with
      | inl _ => false
      | inr quantized =>
          match lossless_choice self temp with
          | None => quantized
          | Some c => status_in h c (run h (png_quantize self temp) w).2 =? 0
          end
      end.
Proof.
  unfold compress_png. rewrite run_try_except, run_bind.
  destruct (run h (png_quantize self temp) w) as [[e|b] w1]; cbn [fst snd].
  - destruct e; reflexivity.
  - rewrite run_png_lossless.
    destruct (lossless_choice self temp) as [c|]; [|reflexivity].
    rewrite (sem_subprocess_result c true w1). cbn [andb].
    destruct (status_in h c w1 =? 0); reflexivity.
Qed.

(** The launches of [compress_png]: pngquant if available, then, unless
    the lossy stage raised, the one lossless optimiser chosen, if any. *)
Lemma compress_png_launches temp w :
  launches (trace (run h (compress_png self temp) w).2) =
  match (run h (png_quantize self temp) w).1, lossless_choice self temp with
  | inr _, Some c => [c]
  | _, _ => []
  end ++
  (if available_tools self pngquant then [Pngquant (tmp_of temp) temp] else [])
  ++ launches (trace w).
Proof.
  unfold compress_png. rewrite run_try_except, run_bind.
  pose proof (png_quantize_launches temp w) as Hq.
  destruct (run h (png_quantize self temp) w) as [[e|b] w1]; cbn [fst snd] in *.
  - destruct e; run_step; cbn [trace emit]; rewrite launches_log, Hq;
      by destruct (available_tools self pngquant).
  - rewrite run_png_lossless.
    destruct (lossless_choice self temp) as [c|]; cbn [fst snd].
    + pose proof (sem_subprocess_launches c true w1) as Hl.
      destruct (sem_subprocess h c true w1) as [[e|z] w2]; cbn [fst snd] in *.
      * destruct e; run_step; cbn [trace emit]; rewrite launches_log, Hl, Hq;
          by destruct (available_tools self pngquant).
      * rewrite Hl, Hq. by destruct (available_tools self pngquant).
    + rewrite Hq. by destruct (available_tools self pngquant).
Qed.

Lemma launches_run (P : command -> Prop) {A} (p : prog A) w :
  ops_in (launch_op P) p ->
  exists new,
    launches (trace (run h p w).2) = new ++ launches (trace w) /\
    Forall P new.
Proof.
  revert A p w.
  apply (ops_in_run h (launch_op P)
           (fun w w' => exists new, launches (trace w') = new ++ launches (trace w)
                                    /\ Forall P new)).
  - intros w. by exists [].
  - intros w1 w2 w3 (n1 & H1 & F1) (n2 & H2 & F2).
    exists (n2 ++ n1). rewrite H2, H1, app_assoc. split; [reflexivity|].
    by apply Forall_app.
  - intros X o w Ho. rewrite exec_trace.
    destruct o; cbn [op_event]; try (by exists []).
    exists [c]. rewrite launches_cons. split; [reflexivity|].
    constructor; [exact Ho|constructor].
Qed.

Lemma exclusive_lossy new :
  Forall (fun c => is_lossless c = false) new -> exclusive self new.
Proof.
  intros Hall. split.
  - induction Hall as [|c new Hc _ IH]; [simpl; lia|].
    rewrite filter_cons. case_decide; [congruence|exact IH].
  - intros c Hin Hc. rewrite Forall_forall in Hall.
    apply list_elem_of_In, Hall in Hin. congruence.
Qed.

Lemma compress_jpeg_lossy temp q :
  ops_in (launch_op (fun c => is_lossless c = false)) (compress_jpeg self temp q).
Proof. unfold compress_jpeg, log. ops_in_tac; simpl; auto. Qed.

Lemma compress_gif_lossy temp :
  ops_in (launch_op (fun c => is_lossless c = false)) (compress_gif self temp).
Proof. unfold compress_gif, log. ops_in_tac; simpl; auto. Qed.

Lemma compress_png_exclusive temp w :
  exists new,
    launches (trace (run h (compress_png self temp) w).2)
      = new ++ launches (trace w) /\
    exclusive self new.
Proof.
  rewrite compress_png_launches.
  eexists. rewrite app_assoc. split; [reflexivity|].
  destruct ((run h (png_quantize self temp) w).1) as [e|b];
    destruct (lossless_choice self temp) as [c|] eqn:Hc;
    destruct (available_tools self pngquant);
    try solve [apply exclusive_lossy; repeat constructor].
  all: assert (is_lossless c = true) as Hl
      by (unfold lossless_choice in Hc;
          destruct (available_tools self optipng);
          [|destruct (available_tools self zopflipng)];
          by inversion Hc).
  all: split;
    [ cbn [app]; rewrite !filter_cons; case_decide; [|congruence];
      try (case_decide; [discriminate|]); simpl; lia
    | intros c' Hin Hc'; exists temp;
      destruct Hin as [<-|Hin]; [exact Hc|];
      try (destruct Hin as [<-|[]]; discriminate); destruct Hin ].
Qed.

(** The launches of a dispatch obey the priority of the lossless
    optimisers. *)
Lemma dispatch_exclusive input temp ext q w :
  exists new,
    launches (trace (run h (dispatch self input temp ext q) w).2)
      = new ++ launches (trace w) /\
    exclusive self new.
Proof.
  unfold dispatch.
  destruct (String.eqb ext ".jpg" || String.eqb ext ".jpeg")%bool.
  - rewrite run_bind.
    destruct (launches_run _ _ w (compress_jpeg_lossy temp q)) as (new & Hn & Hall).
    exists new. split; [|by apply exclusive_lossy].
    by destruct (run h (compress_jpeg self temp q) w) as [[e|b] w1].
  - destruct (String.eqb ext ".png").
    + rewrite run_bind.
      destruct (compress_png_exclusive temp w) as (new & Hn & Hex).
      exists new. split; [|exact Hex].
      by destruct (run h (compress_png self temp) w) as [[e|b] w1].
    + destruct (String.eqb ext ".gif").
      * rewrite run_bind.
        destruct (launches_run _ _ w (compress_gif_lossy temp)) as (new & Hn & Hall).
        exists new. split; [|by apply exclusive_lossy].
        by destruct (run h (compress_gif self temp) w) as [[e|b] w1].
      * exists []. split; [reflexivity|]. apply exclusive_lossy. constructor.
Qed.

End Png.

(* ===================================================================== *)
(** * The launches of a job *)
(* ===================================================================== *)

Section Launches.

Variable h : Host.
Variable self : ImageCompressor.

Lemma exclusive_nil : exclusive self [].
Proof. apply exclusive_lossy. constructor. Qed.

Lemma scratch_launches input temp ext q original w r :
  scratch_case h self input temp ext q original w r ->
  exists new,
    launches (trace r.2) = new ++ launches (trace w) /\
    exclusive self new /\
    (has_strategy ext = false -> new = []).
Proof.
  intros Hc.
  assert (forall f b w2,
    run h (dispatch self input temp ext q) (write (key h temp) f w)
      = (inr (Some b), w2) ->
    exists new, launches (trace w2) = new ++ launches (trace w) /\ exclusive self new)
    as Hd.
  { intros f b w2 Hrun.
    destruct (dispatch_exclusive h self input temp ext q (write (key h temp) f w))
      as (new & Hn & Hex).
    rewrite Hrun in Hn. eauto. }
  destruct Hc; cbn [fst snd]; world_simpl; rewrite ?launches_log.
  - exists []. auto using exclusive_nil.
  - exists []. auto using exclusive_nil.
  - destruct (Hd _ _ _ ltac:(eassumption)) as (new & Hn & Hex).
    exists new. split; [assumption|]. split; [assumption|]. intros; congruence.
  - destruct (Hd _ _ _ ltac:(eassumption)) as (new & Hn & Hex).
    exists new. split; [assumption|]. split; [assumption|]. intros; congruence.
  - destruct (Hd _ _ _ ltac:(eassumption)) as (new & Hn & Hex).
    exists new. split; [assumption|]. split; [assumption|]. intros; congruence.
  - destruct (Hd _ _ _ ltac:(eassumption)) as (new & Hn & Hex).
    exists new. split; [assumption|]. split; [assumption|]. intros; congruence.
Qed.

(** The optimisers a job launches obey the priority of the lossless
    optimisers; a job without a strategy launches none. *)
Lemma job_launches input q w :
  exists new,
    launches (trace (run h (compress_image self input q) w).2)
      = new ++ launches (trace w) /\
    exclusive self new /\
    (has_strategy (lower (Path.suffix input)) = false -> new = []).
Proof.
  destruct (job_analysis h self input q w) as [Hn|w2 Hin Hb|w2 e Hin Hb Ht|
    original w2 nm i r Hg Hin Hb ext temp w3 Hfree Ht Hsc].
  - exists []. world_simpl. rewrite launches_log. auto using exclusive_nil.
  - apply create_backup_effects in Hb as (_ & _ & Hl).
    exists []. world_simpl. rewrite launches_log. auto using exclusive_nil.
  - apply create_backup_effects in Hb as (_ & _ & Hl).
    exists []. world_simpl. rewrite launches_log. auto using exclusive_nil.
  - apply create_backup_effects in Hb as (_ & _ & Hl).
    destruct (scratch_launches _ _ _ _ _ _ _ Hsc) as (new & Hn & Hex & Hnone).
    exists new. subst w3. world_simpl.
    destruct r as [[e|b] w4]; world_simpl; rewrite ?launches_log, Hn, Hl; auto.
Qed.

End Launches.

(* ===================================================================== *)
(** * Jobs on regular files *)
(* ===================================================================== *)

Section Regular.

Variable h : Host.
Variable self : ImageCompressor.

Lemma copy2_onto_file src dst w f g :
  file_at w (key h src) = Some f ->
  node_at w (key h dst) = Some (File g) ->
  key h src <> key h dst ->
  sem_copy2 h src dst w = (inr tt, write (key h dst) f w).
Proof.
  intros Hs Hd Hne. apply file_at_node in Hs.
  unfold sem_copy2. rewrite (copy_target_file h src dst w g Hd), Hs.
  rewrite bool_decide_eq_false_2 by assumption.
  unfold writable. by rewrite Hd.
Qed.

Lemma sem_getsize_file input w f :
  file_at w (key h input) = Some f ->
  sem_getsize h input w = (inr (size f), w).
Proof. intros Hf%file_at_node. unfold sem_getsize. by rewrite Hf. Qed.

(** After the backup and the creation of the scratch file, the source is
    as it was, the scratch file is another, empty file, and the copy into
    it succeeds. *)
Lemma regular_setup input w f b w2 temp w3 :
  file_at w (key h input) = Some f ->
  run h (create_backup self input) w = (b, w2) ->
  sem_tempfile h (lower (Path.suffix input)) w2 = (inr temp, w3) ->
  (exists nm, temp = Path.mk true (tempdir h ++ [nm])) /\
  key h input <> key h temp /\
  file_at w3 (key h input) = Some f /\
  stats w3 = stats w /\
  trace w3 = trace w2 /\
  (forall k, k <> key h temp -> node_at w3 k = node_at w2 k) /\
  node_at w2 (key h temp) = None /\
  sem_copy2 h input temp w3 = (inr tt, write (key h temp) f w3) /\
  node_at (write (key h temp) f w3) (key h temp) = Some (File f).
Proof.
  intros Hf Hb Ht.
  assert (is_Some (node_at w (key h input))) as Hin
    by (apply file_at_node in Hf; rewrite Hf; eauto).
  pose proof (create_backup_frame h self input w Hin) as Hfr.
  pose proof (create_backup_effects h self input w _ _ Hb) as (Hst & _ & _).
  rewrite Hb in Hfr. cbn [snd] in Hfr.
  pose proof (sem_tempfile_spec h (lower (Path.suffix input)) w2) as Hspec.
  rewrite Ht in Hspec. cbn [fst snd] in Hspec.
  destruct Hspec as (nm & i & -> & Hfree & ->).
  set (temp := Path.mk true (tempdir h ++ [nm +:+ lower (Path.suffix input)])) in *.
  assert (key h input <> key h temp) as Hne.
  { intros Heq. rewrite <- Heq, Hfr in Hfree. rewrite Hfree in Hin. by destruct Hin. }
  assert (key h temp <> []) as Hnil by (by eapply node_at_none_nonempty).
  assert (file_at (set_seed i (write (key h temp) {| data := []; mtime := now h |} w2))
            (key h input) = Some f) as Hf3.
  { unfold file_at. rewrite node_at_set_seed, node_at_write_ne, Hfr by assumption.
    exact Hf. }
  split; [eauto|]. split; [exact Hne|]. split; [exact Hf3|].
  split; [exact Hst|]. split; [reflexivity|]. split.
  { intros k Hk. by rewrite node_at_set_seed, node_at_write_ne. }
  split; [exact Hfree|]. split.
  - eapply copy2_onto_file; [exact Hf3| |exact Hne].
    rewrite node_at_set_seed. by apply node_at_write_eq.
  - by apply node_at_write_eq.
Qed.

(** A regular file without a strategy, once backed up and copied, is
    logged as unsupported and left alone. *)
Lemma unsupported_job input q w f w2 temp w3 :
  has_strategy (lower (Path.suffix input)) = false ->
  file_at w (key h input) = Some f ->
  run h (create_backup self input) w = (inr true, w2) ->
  sem_tempfile h (lower (Path.suffix input)) w2 = (inr temp, w3) ->
  run h (compress_image self input q) w =
  (inr false,
   bump Processed 1
     (remove (key h temp)
        (emit (EvLog Info (MsgUnsupported input))
           (write (key h temp) f w3)))).
Proof.
  intros Hs Hf Hb Ht.
  destruct (regular_setup input w f _ w2 temp w3 Hf Hb Ht)
    as (_ & Hne & Hf3 & _ & _ & _ & _ & Hcopy & Hnode).
  rewrite compress_image_run. cbv zeta.
  rewrite (sem_getsize_file input w f Hf), Hb, Ht, scratch_run. cbv zeta.
  rewrite Hcopy, run_dispatch_unsupported by assumption. cbn [fst snd].
  rewrite (run_cleanup_file h temp _ f) by (by rewrite node_at_emit).
  reflexivity.
Qed.


End Regular.

(* ===================================================================== *)
(** * The properties of the specification *)
(* ===================================================================== *)

Lemma file_at_remove_ne d w k : k <> d -> file_at (remove d w) k = file_at w k.
Proof. intros. unfold file_at. by rewrite node_at_remove_ne. Qed.


Lemma file_at_write_ne d f w k : k <> d -> file_at (write d f w) k = file_at w k.
Proof. intros. unfold file_at. by rewrite node_at_write_ne. Qed.



Lemma file_at_nonempty w k f : file_at w k = Some f -> k <> [].
Proof. intros Hf%file_at_node. by eapply node_at_nonempty. Qed.

(** A job returns [True] only for an extension that has a strategy. *)
Lemma job_compressed_strategy h self input q w :
  (run h (compress_image self input q) w).1 = inr true ->
  has_strategy (lower (Path.suffix input)) = true.
Proof.
  destruct (job_analysis h self input q w) as [Hn|w2 Hin Hb|w2 e Hin Hb Ht|
    original w2 nm i r Hg Hin Hb ext temp w3 Hfree Ht Hsc];
    cbn [settle fst]; try discriminate.
  destruct Hsc; cbn [settle fst]; try discriminate. auto.
Qed.


(** C2. With backups enabled and no override, a job whose backup fails
    returns False without any mutation: no file is created or changed (so
    no scratch copy exists and the original is as it was) and no optimiser
    is launched. *)
Theorem backup_failure_blocks_mutation
    (h : Host) (self : ImageCompressor) (input : Path.t) (q : Z) (w : world) :
  backup_enabled self = true ->
  force_no_backup_check self = false ->
  (run h (create_backup self input) w).1 = inr false ->
  let r := run h (compress_image self input q) w in
  r.1 = inr false /\
  (forall k, file_at r.2 k = file_at w k) /\
  file_at r.2 (key h input) = file_at w (key h input) /\
  launches (trace r.2) = launches (trace w) /\
  st_compressed (stats r.2) = st_compressed (stats w).
Proof.
  intros _ _ Hfail r.
  destruct (backup_failed_job h self input q w Hfail) as (Hr & Hfiles & Hl & Hc & _).
  auto.
Qed.

(** C10. With backups enabled and no override, [create_backup] fails for
    every source that is not under the working directory, in particular for
    every relative source; the job then returns False having written no
    file and launched no optimiser, and, its source existing, is logged as
    skipped and not counted as failed. *)
Theorem backup_fails_outside_cwd
    (h : Host) (self : ImageCompressor) (input : Path.t) (q : Z) (w : world) :
  backup_enabled self = true ->
  force_no_backup_check self = false ->
  Path.absolute input = false \/
    Path.strip_prefix (cwd h) (Path.parts input) = None ->
  (run h (create_backup self input) w).1 = inr false /\
  let r := run h (compress_image self input q) w in
  r.1 = inr false /\
  (forall k, file_at r.2 k = file_at w k) /\
  launches (trace r.2) = launches (trace w) /\
  (is_Some (node_at w (key h input)) ->
   head (trace r.2) = Some (EvLog Error (MsgNoBackupSkip input)) /\
   outcomes (trace r.2) = JobSkipped :: outcomes (trace w) /\
   st_failed (stats r.2) = st_failed (stats w)).
Proof.
  intros He Hf Hout.
  assert (Path.relative_to input (Path.mk true (cwd h)) = None) as Hrel.
  { unfold Path.relative_to. cbn [Path.absolute Path.parts].
    destruct Hout as [-> | ->]; [reflexivity|].
    by destruct (Bool.eqb (Path.absolute input) true). }
  pose proof (create_backup_outside h self input w Hf He Hrel) as Hfail.
  split; [exact Hfail|].
  destruct (backup_failed_job h self input q w Hfail) as (Hr & Hfiles & Hl & _ & Hex).
  cbv zeta. repeat split; auto.
  - destruct (Hex H) as (-> & _ & _). reflexivity.
  - by destruct (Hex H) as (_ & ? & _).
  - by destruct (Hex H) as (_ & _ & ?).
Qed.

(** With backups enabled and no override, a job without a strategy whose
    backup succeeds: the mirror of the file (bytes and metadata) is in the
    backup directory when the job ends, the original is as it was, no
    optimiser was launched and the job returns False; once its scratch file
    is created the job is logged as an unsupported format, skipped, and not
    counted as failed. *)
Lemma backup_then_unsupported
    (h : Host) (self : ImageCompressor) (input : Path.t) (q : Z) (w : world) :
  backup_enabled self = true ->
  force_no_backup_check self = false ->
  has_strategy (lower (Path.suffix input)) = false ->
  (run h (create_backup self input) w).1 = inr true ->
  let r := run h (compress_image self input q) w in
  exists rel f d,
    Path.relative_to input (Path.mk true (cwd h)) = Some rel /\
    (d = key h (Path.joinpath (backup_dir self) rel) \/
     d = key h (Path.joinpath (backup_dir self) rel) ++ [Path.name input]) /\
    file_at w (key h input) = Some f /\
    file_at r.2 d = Some f /\
    file_at r.2 (key h input) = Some f /\
    r.1 = inr false /\
    launches (trace r.2) = launches (trace w) /\
    (forall temp w3,
       sem_tempfile h (lower (Path.suffix input))
         (run h (create_backup self input) w).2 = (inr temp, w3) ->
       head (trace r.2) = Some (EvLog Info (MsgUnsupported input)) /\
       outcomes (trace r.2) = JobSkipped :: outcomes (trace w) /\
       st_failed (stats r.2) = st_failed (stats w)).
Proof.
  intros He Hf Hs Hok r.
  destruct (create_backup_mirror h self input w Hf He Hok)
    as (rel & f & d & Hrel & Hsrc & Hmirror & Hd).
  destruct (run h (create_backup self input) w) as [rb w2] eqn:Hb.
  cbn [fst snd] in *. subst rb.
  destruct (create_backup_effects h self input w _ _ Hb) as (Hst2 & Ho2 & Hl2).
  assert (is_Some (node_at w (key h input))) as Hin
    by (apply file_at_node in Hsrc; rewrite Hsrc; eauto).
  pose proof (create_backup_frame h self input w Hin) as Hfr.
  rewrite Hb in Hfr. cbn [snd] in Hfr.
  assert (file_at w2 (key h input) = Some f) as Hsrc2
    by (unfold file_at; by rewrite Hfr).
  exists rel, f, d. split; [exact Hrel|]. split; [exact Hd|]. split; [exact Hsrc|].
  pose proof (sem_tempfile_spec h (lower (Path.suffix input)) w2) as Hspec.
  destruct (sem_tempfile h (lower (Path.suffix input)) w2) as [[e|temp] w3] eqn:Ht;
    cbn [fst snd] in Hspec.
  - subst w3. subst r.
    rewrite compress_image_run. cbv zeta.
    rewrite (sem_getsize_file h input w f Hsrc), Hb, Ht. world_simpl.
    rewrite !file_at_bump, !file_at_failed, launches_log.
    repeat split; auto; discriminate.
  - destruct (regular_setup h self input w f _ w2 temp w3 Hsrc Hb Ht)
      as (_ & Hne & Hf3 & Hst3 & Htr3 & Hfr3 & Hfree & _ & _).
    assert (d <> key h temp) as Hdne.
    { intros ->. apply file_at_node in Hmirror. congruence. }
    pose proof (file_at_nonempty _ _ _ Hsrc) as Hin_ne.
    subst r. rewrite (unsupported_job h self input q w f w2 temp w3 Hs Hsrc Hb Ht).
    cbn [fst snd].
    rewrite !file_at_bump, !file_at_remove_ne, !file_at_emit, !file_at_write_ne
      by auto.
    split.
    { unfold file_at. rewrite Hfr3 by assumption. exact Hmirror. }
    split; [exact Hf3|]. split; [reflexivity|].
    world_simpl. rewrite launches_log, Htr3.
    split; [exact Hl2|].
    intros ? ? _. rewrite outcomes_cons. cbn [outcome_of].
    rewrite Ho2, Hst3. auto.
Qed.

(** C9, as the code has it. With backups enabled and no override, the backup
    is attempted before the extension is looked at, for a job without a
    strategy as for any other. When the backup succeeds, the mirror of the
    file (bytes and metadata) is in the backup directory when the job ends,
    the original is as it was, no optimiser was launched and the job returns
    False; once its scratch file is created the job is logged as an
    unsupported format, skipped, and not counted as failed. When the backup
    fails, no file is written anywhere, hence no mirror: the job returns
    False without a launch, and for an existing file it is logged as skipped
    for want of a backup, never as an unsupported format. *)
Theorem backup_precedes_format_check
    (h : Host) (self : ImageCompressor) (input : Path.t) (q : Z) (w : world) :
  backup_enabled self = true ->
  force_no_backup_check self = false ->
  has_strategy (lower (Path.suffix input)) = false ->
  let r := run h (compress_image self input q) w in
  ((run h (create_backup self input) w).1 = inr true ->
   exists rel f d,
     Path.relative_to input (Path.mk true (cwd h)) = Some rel /\
     (d = key h (Path.joinpath (backup_dir self) rel) \/
      d = key h (Path.joinpath (backup_dir self) rel) ++ [Path.name input]) /\
     file_at w (key h input) = Some f /\
     file_at r.2 d = Some f /\
     file_at r.2 (key h input) = Some f /\
     r.1 = inr false /\
     launches (trace r.2) = launches (trace w) /\
     (forall temp w3,
        sem_tempfile h (lower (Path.suffix input))
          (run h (create_backup self input) w).2 = (inr temp, w3) ->
        head (trace r.2) = Some (EvLog Info (MsgUnsupported input)) /\
        outcomes (trace r.2) = JobSkipped :: outcomes (trace w) /\
        st_failed (stats r.2) = st_failed (stats w))) /\
  ((run h (create_backup self input) w).1 = inr false ->
   r.1 = inr false /\
   (forall k, file_at r.2 k = file_at w k) /\
   launches (trace r.2) = launches (trace w) /\
   (is_Some (node_at w (key h input)) ->
    head (trace r.2) = Some (EvLog Error (MsgNoBackupSkip input)) /\
    outcomes (trace r.2) = JobSkipped :: outcomes (trace w) /\
    st_failed (stats r.2) = st_failed (stats w))).
Proof.
  intros He Hf Hs r. split.
  - intros Hok. exact (backup_then_unsupported h self input q w He Hf Hs Hok).
  - intros Hfail.
    destruct (backup_failed_job h self input q w Hfail) as (Hr & Hfiles & Hl & _ & Hex).
    subst r. repeat split; auto.
    + destruct (Hex H) as (-> & _ & _). reflexivity.
    + by destruct (Hex H) as (_ & ? & _).
    + by destruct (Hex H) as (_ & _ & ?).
Qed.

(** C7, as the code has it. A job whose extension has no strategy never
    launches an optimiser, never touches its file, returns False and is not
    counted as compressed. When its file is a regular file, the backup gate
    passes and the scratch file is created, it is logged as an unsupported
    format, skipped, and not counted as failed; when the backup gate fails,
    it is logged as skipped for want of a backup instead, and not counted as
    failed either. *)
Theorem unsupported_format_untouched
    (h : Host) (self : ImageCompressor) (input : Path.t) (q : Z) (w : world) :
  has_strategy (lower (Path.suffix input)) = false ->
  let r := run h (compress_image self input q) w in
  r.1 = inr false /\
  launches (trace r.2) = launches (trace w) /\
  node_at r.2 (key h input) = node_at w (key h input) /\
  st_compressed (stats r.2) = st_compressed (stats w) /\
  (forall f w2 temp w3,
     file_at w (key h input) = Some f ->
     run h (create_backup self input) w = (inr true, w2) ->
     sem_tempfile h (lower (Path.suffix input)) w2 = (inr temp, w3) ->
     head (trace r.2) = Some (EvLog Info (MsgUnsupported input)) /\
     outcomes (trace r.2) = JobSkipped :: outcomes (trace w) /\
     st_failed (stats r.2) = st_failed (stats w)) /\
  (is_Some (node_at w (key h input)) ->
   (run h (create_backup self input) w).1 = inr false ->
   head (trace r.2) = Some (EvLog Error (MsgNoBackupSkip input)) /\
   outcomes (trace r.2) = JobSkipped :: outcomes (trace w) /\
   st_failed (stats r.2) = st_failed (stats w)).
Proof.
  intros Hs r.
  assert (r.1 = inr false) as Hr.
  { destruct (compress_image_returns h self input q w) as [[|] Hb]; [|exact Hb].
    apply job_compressed_strategy in Hb. congruence. }
  split; [exact Hr|]. split.
  { destruct (job_launches h self input q w) as (new & Hn & _ & Hnone).
    subst r. by rewrite Hn, (Hnone Hs). }
  split.
  { pose proof (job_original h self input q w) as Ho. subst r.
    rewrite Hr in Ho. exact Ho. }
  split.
  { destruct (job_accounting h self input q w) as (o & Ho & _ & _ & Hc & _).
    subst r. rewrite Ho in Hr. injection Hr as Hr. rewrite Hr in Hc. lia. }
  split.
  - intros f w2 temp w3 Hf Hb Ht.
    destruct (regular_setup h self input w f _ w2 temp w3 Hf Hb Ht)
      as (_ & _ & _ & Hst3 & Htr3 & _).
    destruct (create_backup_effects h self input w _ _ Hb) as (_ & Ho2 & _).
    subst r. rewrite (unsupported_job h self input q w f w2 temp w3 Hs Hf Hb Ht).
    world_simpl. rewrite outcomes_cons. cbn [outcome_of].
    rewrite Htr3, Ho2, Hst3. auto.
  - intros Hin Hfail.
    destruct (backup_failed_job h self input q w Hfail) as (_ & _ & _ & _ & Hex).
    destruct (Hex Hin) as (Htr & Ho & Hfl). subst r.
    split; [by rewrite Htr|]. auto.
Qed.

(** C3, as the code has it. After a run in which no two jobs interleave
    (the loop of a single worker, or a pool of any size whose jobs run one
    at a time), each job has logged exactly one outcome, [processed] has
    grown by the number of jobs, [compressed] and [failed] by the number of
    jobs with that outcome, so that processed == compressed + skipped +
    failed holds for the run, and holds of the totals if it held before. *)
Theorem statistics_consistent_without_interleaving
    (h : Host) (self : ImageCompressor) (fs : list Path.t) (q : Z) (w w' : world) :
  process_files_serial h self fs q w w' ->
  consistent_since w w' (length fs) /\
  (stats_invariant w -> stats_invariant w').
Proof.
  intros Hrun. apply process_files_serial_world in Hrun. subst w'.
  pose proof (sequential_consistent h self fs q w) as Hc.
  split; [exact Hc|].
  destruct Hc as (os & Ho & Hlen & Hp & Hcm & Hfl & Hsum).
  unfold stats_invariant. intros Hinv.
  rewrite Ho, count_app. lia.
Qed.

(** C8, as the code has it. The increments of the statistics are a read
    followed by a write with no lock between them. A pool of any size whose
    jobs run one at a time, on whichever workers, finishes with exactly the
    world, and so the statistics, of the single-worker loop. *)
Theorem serial_pool_same_totals
    (h : Host) (self : ImageCompressor) (fs : list Path.t) (q : Z) (w : world)
    (n : nat) (choice : list nat) :
  (2 <= n)%nat ->
  length choice = length fs ->
  Forall (fun i : nat => (i < n)%nat) choice ->
  let w1 := (run h (process_files_sequential self fs q) w).2 in
  process_files h self fs q 1 w w1 /\
  exists wn,
    process_files_pool h self fs q n
      (serial_schedule h (submitted self fs q) choice
         (exec h (StatsSet Total_files (Z.of_nat (length fs))) w).2) w = Some wn /\
    process_files h self fs q (Z.of_nat n) w wn /\
    stats wn = stats w1.
Proof.
  intros Hn Hlen Hch w1. split; [constructor|].
  exists w1. pose proof (serial_pool_sequential h self fs q w n choice Hlen Hch) as Hp.
  split; [exact Hp|]. split; [|reflexivity].
  econstructor; eassumption.
Qed.

(** C4, as the code has it. [compress_png] returns True exactly when the
    lossy stage did not raise and either a lossless optimiser is available
    and the one chosen exits with status 0, or none is available and the
    lossy stage succeeded; the byte count plays no part. A lossless
    optimiser that fails makes it return False even after a successful
    lossy stage. When it returns True the job goes on to the size
    comparison. *)
Theorem png_compressed_unless_lossless_fails
    (h : Host) (self : ImageCompressor) (temp : Path.t) (w : world) :
  (run h (compress_png self temp) w).1 =
  inr match (run h (png_quantize self temp) w).1 with
      | inl _ => false
      | inr quantized =>
          match lossless_choice self temp with
          | None => quantized
          | Some c => status_in h c (run h (png_quantize self temp) w).2 =? 0
          end
      end /\
  forall input q original,
    run h (scratch_phase self input temp ".png" q original) w =
    match sem_copy2 h input temp w with
    | (inl e, w1) => (inl e, w1)
    | (inr _, w1) =>
        match run h (compress_png self temp) w1 with
        | (inl e, w2) => (inl e, w2)
        | (inr true, w2) => run h (commit input temp original) w2
        | (inr false, w2) =>
            (inr false, emit (EvLog Warning (MsgToolUnavailable input)) w2)
        end
    end.
Proof.
  split; [apply compress_png_value|].
  intros input q original. unfold scratch_phase.
  rewrite run_bind, run_call. cbn [exec].
  destruct (sem_copy2 h input temp w) as [[e|[]] w1]; cbn [fst snd]; [reflexivity|].
  rewrite run_bind. unfold dispatch. cbn [String.eqb Ascii.eqb Bool.eqb orb].
  rewrite run_bind.
  destruct (run h (compress_png self temp) w1) as [[e|[|]] w2]; reflexivity.
Qed.

(** C6. Every job launches at most one lossless optimiser: the launches it
    adds contain at most one of optipng and zopflipng, zopflipng only when
    optipng is unavailable, and the launches of [compress_png] are pngquant
    (if available) followed, unless the lossy stage raised, by the single
    optimiser chosen, optipng whenever it is available. *)
Theorem one_lossless_optimiser
    (h : Host) (self : ImageCompressor) (input temp : Path.t) (q : Z) (w : world) :
  (exists new,
     launches (trace (run h (compress_image self input q) w).2)
       = new ++ launches (trace w) /\
     (length (filter (fun c => is_lossless c = true) new) <= 1)%nat /\
     (forall i o, In (Zopflipng i o) new ->
                  available_tools self optipng = false /\
                  available_tools self zopflipng = true) /\
     (forall f, In (Optipng f) new -> available_tools self optipng = true)) /\
  launches (trace (run h (compress_png self temp) w).2) =
    match (run h (png_quantize self temp) w).1, lossless_choice self temp with
    | inr _, Some c => [c]
    | _, _ => []
    end ++
    (if available_tools self pngquant then [Pngquant (tmp_of temp) temp] else [])
    ++ launches (trace w) /\
  lossless_choice self temp =
    if available_tools self optipng then Some (Optipng temp)
    else if available_tools self zopflipng then Some (Zopflipng temp temp)
    else None.
Proof.
  split; [|split; [apply compress_png_launches|reflexivity]].
  destruct (job_launches h self input q w) as (new & Hn & [Hone Hpick] & _).
  exists new. split; [exact Hn|]. split; [exact Hone|]. split.
  - intros i o Hin. destruct (Hpick _ Hin eq_refl) as [t Ht].
    unfold lossless_choice in Ht.
    destruct (available_tools self optipng); [discriminate|].
    destruct (available_tools self zopflipng); [auto|discriminate].
  - intros f Hin. destruct (Hpick _ Hin eq_refl) as [t Ht].
    unfold lossless_choice in Ht.
    destruct (available_tools self optipng); [reflexivity|].
    destruct (available_tools self zopflipng); discriminate.
Qed.

(* ===================================================================== *)
(** * The properties on concrete runs *)
(* ===================================================================== *)

(** C5. A JPEG job whose optimiser opens its output file and then exits
    with a non-zero status: the job returns False and its scratch copy is
    removed, but the optimiser's output file, which did not exist before
    the job, is still there afterwards. *)
Theorem intermediate_output_survives_failed_tool :
  let r := run Demo.crashing_host
             (compress_image Demo.no_backup Demo.photo 85) Demo.disk in
  r.1 = inr false /\
  node_at Demo.disk ["tmp"; "tmpa.jpg"] = None /\
  node_at Demo.disk ["tmp"; "tmpa.jpg.tmp"] = None /\
  launches (trace r.2)
    = [Cjpeg 85 (Path.mk true ["tmp"; "tmpa.jpg.tmp"])
                (Path.mk true ["tmp"; "tmpa.jpg"])] /\
  node_at r.2 ["tmp"; "tmpa.jpg"] = None /\
  file_at r.2 ["tmp"; "tmpa.jpg.tmp"] = Some {| data := []; mtime := 50 |} /\
  ~ no_temporary_left r.2 [["tmp"; "tmpa.jpg"]; ["tmp"; "tmpa.jpg.tmp"]].
Proof.
  cbv zeta. repeat split; try (vm_compute; reflexivity).
  intros Hall. inversion Hall as [|? ? _ Hrest]; subst.
  inversion Hrest as [|? ? Hleft _]; subst.
  vm_compute in Hleft. discriminate.
Qed.


Lemma backup_failure_blocks_mutation_witness :
  backup_enabled Demo.with_backup = true /\
  force_no_backup_check Demo.with_backup = false /\
  (run Demo.host (create_backup Demo.with_backup Demo.icon_relative) Demo.disk).1
    = inr false /\
  (run Demo.host (compress_image Demo.with_backup Demo.icon_relative 85) Demo.disk).1
    = inr false /\
  forall k,
    file_at (run Demo.host (compress_image Demo.with_backup Demo.icon_relative 85)
               Demo.disk).2 k
    = file_at Demo.disk k.
Proof.
  assert ((run Demo.host (create_backup Demo.with_backup Demo.icon_relative)
             Demo.disk).1 = inr false) as H3 by (vm_compute; reflexivity).
  destruct (backup_failure_blocks_mutation Demo.host Demo.with_backup
              Demo.icon_relative 85 Demo.disk eq_refl eq_refl H3)
    as (Hr & Hfiles & _).
  repeat split; assumption.
Defined.

Lemma backup_fails_outside_cwd_witness :
  backup_enabled Demo.with_backup = true /\
  force_no_backup_check Demo.with_backup = false /\
  Path.absolute Demo.icon_relative = false /\
  (run Demo.host (create_backup Demo.with_backup Demo.icon_relative) Demo.disk).1
    = inr false /\
  (run Demo.host (compress_image Demo.with_backup Demo.icon_relative 85) Demo.disk).1
    = inr false.
Proof.
  destruct (backup_fails_outside_cwd Demo.host Demo.with_backup
              Demo.icon_relative 85 Demo.disk eq_refl eq_refl (or_introl eq_refl))
    as (Hfail & Hr & _).
  repeat split; assumption.
Defined.

Lemma backup_precedes_format_check_witness :
  backup_enabled Demo.with_backup = true /\
  force_no_backup_check Demo.with_backup = false /\
  has_strategy (lower (Path.suffix Demo.icon)) = false /\
  (run Demo.host (create_backup Demo.with_backup Demo.icon) Demo.disk).1 = inr true /\
  file_at Demo.disk (key Demo.host Demo.icon) = Some (Demo.blob 6 11) /\
  file_at (run Demo.host (compress_image Demo.with_backup Demo.icon 85) Demo.disk).2
    ["home"; "pics"; ".image_backup"; "icon.bmp"] = Some (Demo.blob 6 11) /\
  file_at (run Demo.host (compress_image Demo.with_backup Demo.icon 85) Demo.disk).2
    (key Demo.host Demo.icon) = Some (Demo.blob 6 11) /\
  (run Demo.host (compress_image Demo.with_backup Demo.icon 85) Demo.disk).1
    = inr false.
Proof.
  assert ((run Demo.host (create_backup Demo.with_backup Demo.icon) Demo.disk).1
          = inr true) as H4 by (vm_compute; reflexivity).
  destruct (backup_precedes_format_check Demo.host Demo.with_backup Demo.icon 85
              Demo.disk eq_refl eq_refl eq_refl) as [Hok _].
  destruct (Hok H4) as (rel & f & d & Hrel & Hd & Hsrc & Hmirror & Hkept & Hr & _).
  assert (rel = Path.mk false ["icon.bmp"]) as ->
    by (vm_compute in Hrel; congruence).
  assert (f = Demo.blob 6 11) as ->
    by (vm_compute in Hsrc; injection Hsrc as <-; reflexivity).
  assert (d = ["home"; "pics"; ".image_backup"; "icon.bmp"]) as ->.
  { destruct Hd as [-> | ->]; [reflexivity|].
    apply file_at_node in Hmirror. vm_compute in Hmirror. discriminate Hmirror. }
  repeat split; try assumption; reflexivity.
Defined.

Lemma unsupported_format_untouched_witness :
  has_strategy (lower (Path.suffix Demo.icon)) = false /\
  (run Demo.host (compress_image Demo.with_backup Demo.icon 85) Demo.disk).1
    = inr false /\
  launches (trace (run Demo.host (compress_image Demo.with_backup Demo.icon 85)
                     Demo.disk).2)
    = launches (trace Demo.disk).
Proof.
  destruct (unsupported_format_untouched Demo.host Demo.with_backup Demo.icon 85
              Demo.disk eq_refl) as (Hr & Hl & _).
  repeat split; assumption.
Defined.

(** C7 as stated fails: with backups enabled, the job for the existing file
    icon.bmp, given by a relative path, has no strategy and yet does not end
    as "format not handled": the backup gate stops it first. *)
Lemma unsupported_not_always_format_not_handled :
  has_strategy (lower (Path.suffix Demo.icon_relative)) = false /\
  is_Some (file_at Demo.disk (key Demo.host Demo.icon_relative)) /\
  head (trace (run Demo.host (compress_image Demo.with_backup Demo.icon_relative 85)
                 Demo.disk).2)
    = Some (EvLog Error (MsgNoBackupSkip Demo.icon_relative)) /\
  ~ ends_format_not_handled Demo.host Demo.with_backup Demo.icon_relative 85 Demo.disk.
Proof.
  split; [reflexivity|]. split; [vm_compute; eauto|].
  split; [vm_compute; reflexivity|].
  intros (Hhead & _). vm_compute in Hhead. discriminate.
Qed.

(** C9 as stated fails: with backups enabled and no override, the job for
    the existing file icon.bmp, given by a relative path, has no strategy;
    its backup fails, the job writes no file at all, and nothing below the
    backup directory holds a mirror of the file when the job has ended. *)
Lemma no_mirror_for_relative_path :
  backup_enabled Demo.with_backup = true /\
  force_no_backup_check Demo.with_backup = false /\
  has_strategy (lower (Path.suffix Demo.icon_relative)) = false /\
  file_at Demo.disk (key Demo.host Demo.icon_relative) = Some (Demo.blob 6 11) /\
  (run Demo.host (compress_image Demo.with_backup Demo.icon_relative 85)
     Demo.disk).1 = inr false /\
  (forall k,
     file_at (run Demo.host (compress_image Demo.with_backup Demo.icon_relative 85)
                Demo.disk).2 k = file_at Demo.disk k) /\
  ~ backup_mirror_written Demo.host Demo.with_backup Demo.icon_relative 85 Demo.disk.
Proof.
  assert ((run Demo.host (create_backup Demo.with_backup Demo.icon_relative)
             Demo.disk).1 = inr false) as Hfail by (vm_compute; reflexivity).
  destruct (backup_failed_job Demo.host Demo.with_backup Demo.icon_relative 85
              Demo.disk Hfail) as (Hr & Hfiles & _).
  do 3 (split; [reflexivity|]). split; [vm_compute; reflexivity|].
  split; [exact Hr|]. split; [exact Hfiles|].
  intros (tail & f & _ & Hm). rewrite Hfiles in Hm.
  apply file_at_node in Hm.
  change (key Demo.host (backup_dir Demo.with_backup))
    with ["home"; "pics"; ".image_backup"] in Hm.
  cbn [app node_at] in Hm.
  apply elem_of_map_to_list in Hm.
  let l := eval vm_compute in (map_to_list (fs Demo.disk)) in
  assert (map_to_list (fs Demo.disk) = l) as Hl by (vm_compute; reflexivity);
  rewrite Hl in Hm.
  repeat (apply elem_of_cons in Hm as [Hm|Hm]; [by inversion Hm|]).
  by apply elem_of_nil in Hm.
Qed.

(** C4 as stated fails: pngquant succeeds on the scratch file, optipng is
    available and exits with status 1, and [compress_png] returns False. *)
Lemma png_stage_success_not_enough :
  (run Demo.host (png_quantize Demo.with_backup Demo.scratch_png) Demo.disk).1
    = inr true /\
  png_stage_succeeded Demo.host Demo.with_backup Demo.scratch_png Demo.disk /\
  (run Demo.host (compress_png Demo.with_backup Demo.scratch_png) Demo.disk).1
    = inr false /\
  ~ png_reports_any_stage Demo.host Demo.with_backup Demo.scratch_png Demo.disk.
Proof.
  assert ((run Demo.host (png_quantize Demo.with_backup Demo.scratch_png)
             Demo.disk).1 = inr true) as Hq by (vm_compute; reflexivity).
  split; [exact Hq|]. split; [by left|]. split; [vm_compute; reflexivity|].
  intros Hclaim. specialize (Hclaim (or_introl Hq)).
  vm_compute in Hclaim. discriminate.
Qed.

Lemma statistics_consistent_without_interleaving_witness :
  process_files_serial Demo.host Demo.no_backup [Demo.icon; Demo.scan] 85 Demo.disk
    (run Demo.host (process_files_sequential Demo.no_backup [Demo.icon; Demo.scan] 85)
       Demo.disk).2 /\
  stats_invariant
    (run Demo.host (process_files_sequential Demo.no_backup [Demo.icon; Demo.scan] 85)
       Demo.disk).2.
Proof.
  pose proof (serial_single Demo.host Demo.no_backup [Demo.icon; Demo.scan] 85
                Demo.disk) as Hrun.
  destruct (statistics_consistent_without_interleaving Demo.host Demo.no_backup
              [Demo.icon; Demo.scan] 85 Demo.disk _ Hrun) as (_ & Hinv).
  split; [exact Hrun|]. apply Hinv. reflexivity.
Defined.

(** C3 as stated fails for two workers: both jobs read [processed] before
    either writes it, and the run ends with two jobs logged as skipped and
    [processed] equal to 1. *)
Lemma statistics_inconsistent_under_interleaving :
  exists w',
    process_files Demo.host Demo.no_backup [Demo.icon; Demo.scan] 85 2 Demo.disk w' /\
    stats_invariant Demo.disk /\
    outcomes (trace w') = [JobSkipped; JobSkipped] /\
    st_processed (stats w') = 1 /\
    ~ stats_invariant w'.
Proof.
  exists (default Demo.disk
            (process_files_pool Demo.host Demo.no_backup [Demo.icon; Demo.scan] 85 2
               Demo.racing_schedule Demo.disk)).
  split.
  - apply (process_pooled Demo.host Demo.no_backup [Demo.icon; Demo.scan] 85 2%nat
             Demo.racing_schedule); [lia|]. vm_compute. reflexivity.
  - split; [reflexivity|]. split; [vm_compute; reflexivity|].
    split; [vm_compute; reflexivity|].
    unfold stats_invariant. vm_compute. discriminate.
Qed.

Lemma serial_pool_same_totals_witness :
  (2 <= 8)%nat /\
  length [3%nat; 5%nat] = length [Demo.icon; Demo.scan] /\
  Forall (fun i : nat => (i < 8)%nat) [3%nat; 5%nat] /\
  exists wn,
    process_files Demo.host Demo.no_backup [Demo.icon; Demo.scan] 85 8 Demo.disk wn /\
    stats wn
    = stats (run Demo.host
               (process_files_sequential Demo.no_backup [Demo.icon; Demo.scan] 85)
               Demo.disk).2.
Proof.
  assert ((2 <= 8)%nat) as H1 by (apply Nat.leb_le; reflexivity).
  assert (Forall (fun i : nat => (i < 8)%nat) [3%nat; 5%nat]) as H3
    by (repeat constructor; apply Nat.ltb_lt; reflexivity).
  destruct (serial_pool_same_totals Demo.host Demo.no_backup [Demo.icon; Demo.scan]
              85 Demo.disk 8 [3%nat; 5%nat] H1 eq_refl H3)
    as (_ & wn & _ & Hrun & Hst).
  repeat split; try assumption. exists wn. split; assumption.
Defined.

(** C8 as stated fails: the same two jobs end with [processed] equal to 2
    under one worker and, under eight workers of which two interleave their
    increments, with [processed] equal to 1. *)
Lemma totals_differ_between_worker_counts :
  exists w1 w8,
    process_files Demo.host Demo.no_backup [Demo.icon; Demo.scan] 85 1 Demo.disk w1 /\
    process_files Demo.host Demo.no_backup [Demo.icon; Demo.scan] 85 8 Demo.disk w8 /\
    st_processed (stats w1) = 2 /\
    st_processed (stats w8) = 1 /\
    stats w1 <> stats w8.
Proof.
  exists (run Demo.host
            (process_files_sequential Demo.no_backup [Demo.icon; Demo.scan] 85)
            Demo.disk).2.
  exists (default Demo.disk
            (process_files_pool Demo.host Demo.no_backup [Demo.icon; Demo.scan] 85 8
               Demo.racing_schedule Demo.disk)).
  split; [constructor|]. split.
  - apply (process_pooled Demo.host Demo.no_backup [Demo.icon; Demo.scan] 85 8%nat
             Demo.racing_schedule); [lia|]. vm_compute. reflexivity.
  - split; [vm_compute; reflexivity|]. split; [vm_compute; reflexivity|].
    vm_compute. discriminate.
Qed.

(* ===================================================================== *)
(** * Scanning a directory *)
(* ===================================================================== *)

Section Scan.

Variable h : Host.

Lemma strip_prefix_spec pre : forall l rest,
  Path.strip_prefix pre l = Some rest <-> l = pre ++ rest.
Proof.
  induction pre as [|x pre IH]; intros l rest; simpl.
  - split; [by intros [= ->]|by intros ->].
  - destruct l as [|y l].
    + split; [discriminate|discriminate].
    + destruct (String.eqb_spec x y) as [->|Hne].
      * rewrite IH. split; [by intros ->|by intros [= ->]].
      * split; [discriminate|]. intros [= ? ?]. congruence.
Qed.

Lemma walkable_dir w d rel : walkable w d rel = true -> node_at w d = Some Dir.
Proof.
  destruct rel as [|x rest]; simpl; [discriminate|].
  destruct (node_at w d) as [[|f]|]; auto; discriminate.
Qed.

Lemma walkable_one w d x : walkable w d [x] = true <-> node_at w d = Some Dir.
Proof.
  simpl. destruct (node_at w d) as [[|f]|]; split; auto; discriminate.
Qed.

Lemma walkable_nonempty w d rel : walkable w d rel = true -> rel <> [].
Proof. by destruct rel. Qed.

Lemma key_joined (directory : Path.t) rel :
  key h (Path.mk (Path.absolute directory) (Path.parts directory ++ rel))
  = key h directory ++ rel.
Proof.
  unfold key, Path.resolve. cbn [Path.absolute Path.parts].
  destruct (Path.absolute directory); [reflexivity|]. by rewrite app_assoc.
Qed.

Lemma elem_of_glob directory recursive w p :
  p ∈ glob h directory recursive w <->
  exists rel n,
    fs w !! (key h directory ++ rel) = Some n /\
    walkable w (key h directory) rel = true /\
    (recursive = false -> length rel = 1%nat) /\
    p = Path.mk (Path.absolute directory) (Path.parts directory ++ rel).
Proof.
  unfold glob. rewrite list_elem_of_omap. split.
  - intros ([k n] & Hin & Hp). apply elem_of_map_to_list in Hin.
    cbn [fst] in Hp.
    destruct (Path.strip_prefix (key h directory) k) as [rel|] eqn:Hs; [|discriminate].
    apply strip_prefix_spec in Hs. subst k.
    destruct (walkable w (key h directory) rel) eqn:Hw; [|discriminate].
    cbn [andb] in Hp.
    destruct recursive; cbn [orb] in Hp.
    + injection Hp as <-. exists rel, n. repeat split; auto. discriminate.
    + destruct (Nat.eqb_spec (length rel) 1) as [Hl|Hl]; [|discriminate].
      injection Hp as <-. exists rel, n. repeat split; auto.
  - intros (rel & n & Hin & Hw & Hlen & ->).
    exists (key h directory ++ rel, n). split; [by apply elem_of_map_to_list|].
    cbn [fst].
    assert (Path.strip_prefix (key h directory) (key h directory ++ rel) = Some rel)
      as -> by (by apply strip_prefix_spec).
    rewrite Hw. cbn [andb]. destruct recursive; [reflexivity|].
    rewrite Hlen by reflexivity. reflexivity.
Qed.

Lemma elem_of_find_image_files backup_dir directory recursive w s :
  s ∈ find_image_files h backup_dir directory recursive w <->
  exists p, p ∈ glob h directory recursive w /\
            wanted h backup_dir w p = true /\ s = str p.
Proof.
  unfold find_image_files. rewrite merge_sort_Permutation.
  rewrite list_elem_of_In, in_map_iff. split.
  - intros (p & <- & Hin). apply list_elem_of_In, list_elem_of_filter in Hin.
    destruct Hin as [Hw Hin]. eauto.
  - intros (p & Hin & Hw & ->). exists p. split; [reflexivity|].
    apply list_elem_of_In, list_elem_of_filter. auto.
Qed.

End Scan.

Section ScanProperties.

Variable h : Host.

Lemma suffix_joined (directory : Path.t) rel :
  rel <> [] ->
  Path.suffix (Path.mk (Path.absolute directory) (Path.parts directory ++ rel))
  = Path.suffix (Path.mk false rel).
Proof.
  intros Hne. unfold Path.suffix, Path.name. cbn [Path.parts].
  by rewrite last_app_nonempty.
Qed.

Lemma node_at_fs w k : k <> [] -> node_at w k = fs w !! k.
Proof. by destruct k. Qed.

Lemma app_nonempty_r {A} (l rel : list A) : rel <> [] -> l ++ rel <> [].
Proof. intros Hne E. apply app_eq_nil in E. tauto. Qed.

End ScanProperties.

(** What [find_image_files] lists. *)
Lemma find_image_files_iff
    (h : Host) (backup_dir : string) (directory : Path.t) (recursive : bool)
    (w : world) (s : string) :
  s ∈ find_image_files h backup_dir directory recursive w <->
  exists rel f,
    s = str (Path.joinpath directory (Path.mk false rel)) /\
    walkable w (key h directory) rel = true /\
    (recursive = false -> length rel = 1%nat) /\
    file_at w (key h directory ++ rel) = Some f /\
    lower (Path.suffix (Path.mk false rel)) ∈ IMAGE_EXTENSIONS /\
    startswith s backup_dir = false.
Proof.
  rewrite elem_of_find_image_files. unfold Path.joinpath. cbn [Path.absolute Path.parts].
  split.
  - intros (p & Hin & Hw & ->). apply elem_of_glob in Hin.
    destruct Hin as (rel & n & Hn & Hwalk & Hlen & ->).
    pose proof (walkable_nonempty _ _ _ Hwalk) as Hne.
    unfold wanted, is_image, is_file in Hw. rewrite key_joined, suffix_joined in Hw by assumption.
    destruct (file_at w (key h directory ++ rel)) as [f|] eqn:Hf; [|discriminate].
    cbn [andb] in Hw. apply andb_true_iff in Hw as [Hext Hpre].
    apply bool_decide_eq_true in Hext. apply negb_true_iff in Hpre.
    exists rel, f. auto 10.
  - intros (rel & f & -> & Hwalk & Hlen & Hf & Hext & Hpre).
    pose proof (walkable_nonempty _ _ _ Hwalk) as Hne.
    exists (Path.mk (Path.absolute directory) (Path.parts directory ++ rel)).
    split; [|split; [|reflexivity]].
    + apply elem_of_glob. exists rel, (File f). repeat split; auto.
      apply file_at_node in Hf. rewrite node_at_fs in Hf; [exact Hf|].
      by apply app_nonempty_r.
    + unfold wanted, is_image, is_file. rewrite key_joined, suffix_joined, Hf by assumption.
      cbn [andb]. apply andb_true_iff. split.
      * by apply bool_decide_eq_true.
      * by apply negb_true_iff.
Qed.

(** X1. [find_image_files] lists exactly the texts of the entries
    [directory / rel] that the walk reaches (directly inside the directory
    when not recursive), that are regular files, whose lower-cased suffix is
    one of the seven image extensions, and whose text does not begin with
    the backup-directory text. *)
Theorem find_image_files_lists_image_files
    (h : Host) (backup_dir : string) (directory : Path.t) (recursive : bool)
    (w : world) (s : string) :
  s ∈ find_image_files h backup_dir directory recursive w <->
  exists rel f,
    s = str (Path.joinpath directory (Path.mk false rel)) /\
    walkable w (key h directory) rel = true /\
    (recursive = false -> length rel = 1%nat) /\
    file_at w (key h directory ++ rel) = Some f /\
    lower (Path.suffix (Path.mk false rel)) ∈ IMAGE_EXTENSIONS /\
    startswith s backup_dir = false.
Proof. apply find_image_files_iff. Qed.

Lemma filter_ext_in {A} (P Q : A -> Prop) `{!forall x, Decision (P x)}
    `{!forall x, Decision (Q x)} (l : list A) :
  (forall x, x ∈ l -> P x <-> Q x) -> filter P l = filter Q l.
Proof.
  induction l as [|x l IH]; intros Hext; [reflexivity|].
  rewrite !filter_cons.
  rewrite IH by (intros y Hy; apply Hext; by right).
  destruct (decide (P x)) as [HP|HP], (decide (Q x)) as [HQ|HQ]; auto;
    exfalso; apply (Hext x (list_elem_of_here _ _)) in HP || apply HP, (Hext x (list_elem_of_here _ _)); auto.
Qed.

Lemma startswith_empty s : startswith s EmptyString = true.
Proof. by destruct s. Qed.

Lemma startswith_head c s d pre :
  c <> d -> startswith (String c s) (String d pre) = false.
Proof.
  intros Hne. unfold startswith. cbn [String.prefix].
  destruct (ascii_dec d c); [congruence|reflexivity].
Qed.

(** X2. Scanning something that is not a directory (a missing path, a
    regular file) finds nothing. *)
Theorem find_image_files_not_directory
    (h : Host) (backup_dir : string) (directory : Path.t) (recursive : bool)
    (w : world) :
  node_at w (key h directory) <> Some Dir ->
  find_image_files h backup_dir directory recursive w = [].
Proof.
  intros Hnd. apply elem_of_nil_inv. intros s Hin.
  apply find_image_files_iff in Hin.
  destruct Hin as (rel & f & _ & Hwalk & _). by apply walkable_dir in Hwalk.
Qed.

(** X4. The exclusion of the backup directory compares texts. With an
    empty backup-directory text every text begins with it, and no file is
    listed at all. *)
Theorem find_image_files_empty_backup_dir
    (h : Host) (directory : Path.t) (recursive : bool) (w : world) :
  find_image_files h EmptyString directory recursive w = [].
Proof.
  apply elem_of_nil_inv. intros s Hin.
  apply find_image_files_iff in Hin.
  destruct Hin as (rel & f & _ & _ & _ & _ & _ & Hpre).
  by rewrite startswith_empty in Hpre.
Qed.

(** X3. When the directory is given by an absolute path and the
    backup-directory text is relative (it is not empty and does not begin
    with a slash), no text begins with it: the exclusion of line 266 removes
    nothing, and every image file below the directory is listed, those
    inside the backup directory included. *)
Theorem find_image_files_absolute_keeps_backups
    (h : Host) (backup_dir : string) (directory : Path.t) (recursive : bool)
    (w : world) :
  Path.absolute directory = true ->
  backup_dir <> EmptyString ->
  startswith backup_dir "/" = false ->
  find_image_files h backup_dir directory recursive w
  = merge_sort String.le
      (map str (filter (fun p => is_image h w p = true)
                       (glob h directory recursive w))).
Proof.
  intros Habs Hne Hrel. unfold find_image_files. f_equal. f_equal.
  apply filter_ext_in. intros p Hin. apply elem_of_glob in Hin.
  destruct Hin as (rel & n & _ & _ & _ & ->).
  unfold wanted, str. cbn [Path.absolute]. rewrite Habs.
  destruct backup_dir as [|c pre]; [done|].
  assert ("/"%char <> c) as Hc.
  { intros <-. unfold startswith in Hrel. cbn in Hrel. destruct pre; discriminate. }
  change ("/" +:+ ?s) with (String "/" s).
  rewrite startswith_head by assumption. cbn [negb]. by rewrite andb_true_r.
Qed.

Section Texts.

Lemma join_slash_cons x l :
  l <> [] -> join_slash (x :: l) = x +:+ String "/" (join_slash l).
Proof. by destruct l. Qed.

Lemma join_slash_common pre : forall rel1 rel2,
  rel1 <> [] -> rel2 <> [] ->
  join_slash (pre ++ rel1) = join_slash (pre ++ rel2) ->
  join_slash rel1 = join_slash rel2.
Proof.
  induction pre as [|x pre IH]; intros rel1 rel2 H1 H2 E; [exact E|].
  cbn [app] in E.
  rewrite !join_slash_cons in E by (by apply app_nonempty_r).
  apply String.app_inj in E. injection E as E. by apply IH.
Qed.

Lemma slash_free_app x y : slash_free (x +:+ String "/" y) = false.
Proof.
  induction x as [|c x IH]; simpl; [reflexivity|].
  rewrite IH. apply andb_false_r.
Qed.

Lemma split_slash x : forall y a b,
  slash_free x = true -> slash_free y = true ->
  x +:+ String "/" a = y +:+ String "/" b -> x = y /\ a = b.
Proof.
  induction x as [|c x IH]; intros y a b Hx Hy E; destruct y as [|d y];
    simpl in E, Hx, Hy.
  - by injection E as ->.
  - injection E as <- _. discriminate.
  - injection E as -> _. discriminate.
  - injection E as -> E.
    apply andb_true_iff in Hx as [_ Hx]. apply andb_true_iff in Hy as [_ Hy].
    destruct (IH _ _ _ Hx Hy E) as [-> ->]. auto.
Qed.

Lemma join_slash_inj l1 : forall l2,
  l1 <> [] -> l2 <> [] ->
  Forall (fun x => slash_free x = true) l1 ->
  Forall (fun x => slash_free x = true) l2 ->
  join_slash l1 = join_slash l2 -> l1 = l2.
Proof.
  induction l1 as [|x l1 IH]; intros l2 H1 H2 F1 F2 E; [done|].
  destruct l2 as [|y l2]; [done|].
  apply Forall_cons in F1 as [Hx F1]. apply Forall_cons in F2 as [Hy F2].
  destruct l1 as [|x' l1], l2 as [|y' l2].
  - cbn in E. by subst.
  - rewrite (join_slash_cons y) in E by done. change (join_slash [x]) with x in E.
    subst x. by rewrite slash_free_app in Hx.
  - rewrite (join_slash_cons x) in E by done. change (join_slash [y]) with y in E.
    subst y. by rewrite slash_free_app in Hy.
  - rewrite (join_slash_cons x), (join_slash_cons y) in E by done.
    destruct (split_slash _ _ _ _ Hx Hy E) as [-> E'].
    f_equal. apply IH; auto; done.
Qed.

End Texts.

Lemma NoDup_omap_inj {A B} (f : A -> option B) (l : list A) :
  NoDup l ->
  (forall x y z, x ∈ l -> y ∈ l -> f x = Some z -> f y = Some z -> x = y) ->
  NoDup (omap f l).
Proof.
  induction 1 as [|x l Hx Hl IH]; intros Hinj; [constructor|].
  cbn [omap list_omap]. destruct (f x) as [z|] eqn:Hz.
  - constructor.
    + intros Hin. apply list_elem_of_omap in Hin as (y & Hy & Hfy).
      assert (x = y) as -> by (eapply Hinj; eauto; [left|by right]).
      contradiction.
    + apply IH. intros a b c Ha Hb. apply Hinj; by right.
  - apply IH. intros a b c Ha Hb. apply Hinj; by right.
Qed.

Lemma NoDup_map_inj {A B} (f : A -> B) (l : list A) :
  NoDup l ->
  (forall x y, x ∈ l -> y ∈ l -> f x = f y -> x = y) ->
  NoDup (map f l).
Proof.
  induction 1 as [|x l Hx Hl IH]; intros Hinj; [constructor|].
  cbn [map]. constructor.
  - intros Hin. apply list_elem_of_In, in_map_iff in Hin as (y & Hfy & Hy).
    apply list_elem_of_In in Hy.
    assert (x = y) as -> by (apply Hinj; auto; [left|by right]).
    contradiction.
  - apply IH. intros a b Ha Hb. apply Hinj; by right.
Qed.

Lemma glob_NoDup h directory recursive w : NoDup (glob h directory recursive w).
Proof.
  unfold glob. apply NoDup_omap_inj; [apply NoDup_map_to_list|].
  intros [k1 n1] [k2 n2] p H1 H2 E1 E2. cbn [fst] in E1, E2.
  apply elem_of_map_to_list in H1, H2.
  destruct (Path.strip_prefix (key h directory) k1) as [r1|] eqn:S1; [|discriminate].
  destruct (Path.strip_prefix (key h directory) k2) as [r2|] eqn:S2; [|discriminate].
  apply strip_prefix_spec in S1, S2. subst k1 k2.
  destruct (_ && _)%bool in E1; [|discriminate].
  destruct (_ && _)%bool in E2; [|discriminate].
  injection E1 as <-. injection E2 as E2. apply app_inv_head in E2. subst r2.
  rewrite H1 in H2. by injection H2 as ->.
Qed.

Lemma str_joined (directory : Path.t) rel :
  rel <> [] ->
  str (Path.mk (Path.absolute directory) (Path.parts directory ++ rel))
  = (if Path.absolute directory then "/" else EmptyString)
      +:+ join_slash (Path.parts directory ++ rel).
Proof.
  intros Hne. unfold str. cbn [Path.absolute Path.parts].
  destruct (Path.absolute directory); [reflexivity|].
  destruct (Path.parts directory ++ rel) eqn:E; [|reflexivity].
  by apply app_nonempty_r in E.
Qed.

(** X5. The list returned is in ascending order of its texts, and when no
    name of the file system contains a slash (as on a real file system) it
    names no file twice. *)
Theorem find_image_files_sorted_without_repeats
    (h : Host) (backup_dir : string) (directory : Path.t) (recursive : bool)
    (w : world) :
  map_Forall (fun k _ => Forall (fun x => slash_free x = true) k) (fs w) ->
  Sorted String.le (find_image_files h backup_dir directory recursive w) /\
  NoDup (find_image_files h backup_dir directory recursive w).
Proof.
  intros Hnames. split; [apply Sorted_merge_sort, _|].
  unfold find_image_files. rewrite merge_sort_Permutation.
  apply NoDup_map_inj; [apply NoDup_filter, glob_NoDup|].
  intros p1 p2 H1 H2 E.
  apply list_elem_of_filter in H1 as [_ H1]. apply list_elem_of_filter in H2 as [_ H2].
  apply elem_of_glob in H1 as (r1 & n1 & Hk1 & Hw1 & _ & ->).
  apply elem_of_glob in H2 as (r2 & n2 & Hk2 & Hw2 & _ & ->).
  apply walkable_nonempty in Hw1, Hw2.
  rewrite !str_joined in E by assumption.
  apply String.app_inj, join_slash_common in E; [|assumption..].
  apply Hnames, Forall_app in Hk1 as [_ F1]. apply Hnames, Forall_app in Hk2 as [_ F2].
  by rewrite (join_slash_inj r1 r2).
Qed.

(** X6. Scanning a directory given by a relative path lists relative
    paths only. With backups enabled and no override, the backup of a
    relative path fails, so that the job of every listed file, in whatever
    state the file system then is, returns False, writes no file, launches
    no optimiser and counts nothing as compressed. *)
Theorem relative_scan_compresses_nothing
    (h : Host) (self : ImageCompressor) (backup_dir_text : string)
    (directory : Path.t) (recursive : bool) (w w' : world) (q : Z) (s : string) :
  Path.absolute directory = false ->
  backup_enabled self = true ->
  force_no_backup_check self = false ->
  s ∈ find_image_files h backup_dir_text directory recursive w ->
  exists p f,
    s = str p /\
    Path.absolute p = false /\
    file_at w (key h p) = Some f /\
    let r := run h (compress_image self p q) w' in
    r.1 = inr false /\
    (forall k, file_at r.2 k = file_at w' k) /\
    launches (trace r.2) = launches (trace w') /\
    st_compressed (stats r.2) = st_compressed (stats w').
Proof.
  intros Hrel He Hf Hin.
  apply find_image_files_iff in Hin.
  destruct Hin as (rel & f & -> & _ & _ & Hfile & _ & _).
  exists (Path.joinpath directory (Path.mk false rel)), f.
  unfold Path.joinpath. cbn [Path.absolute Path.parts].
  split; [reflexivity|]. split; [exact Hrel|].
  split; [by rewrite key_joined|].
  set (p := Path.mk _ _).
  assert ((run h (create_backup self p) w').1 = inr false) as Hfail.
  { apply create_backup_outside; auto.
    unfold Path.relative_to, p. cbn [Path.absolute]. by rewrite Hrel. }
  destruct (backup_failed_job h self p q w' Hfail) as (Hr & Hfiles & Hl & Hc & _).
  cbv zeta. auto.
Qed.

(* ===================================================================== *)
(** * The backup tree and the scan *)
(* ===================================================================== *)

Section Rescan.

Variable h : Host.
Variable self : ImageCompressor.

Lemma walkable_chain w rel : forall d,
  rel <> [] ->
  (forall pre x suf, rel = pre ++ x :: suf -> node_at w (d ++ pre) = Some Dir) ->
  walkable w d rel = true.
Proof.
  induction rel as [|x rest IH]; intros d Hne Hch; [done|].
  cbn [walkable].
  pose proof (Hch [] x rest eq_refl) as Hd. rewrite app_nil_r in Hd. rewrite Hd.
  destruct rest as [|y rest]; [reflexivity|]. cbn [is_nil].
  apply IH; [done|]. intros pre x' suf E.
  rewrite <- app_assoc. apply (Hch (x :: pre) x' suf). cbn [app]. by rewrite E.
Qed.

Lemma mkdir_one_dir k ok w :
  (mkdir_one k ok w).1 = inr tt -> node_at (mkdir_one k ok w).2 k = Some Dir.
Proof.
  unfold mkdir_one. destruct (node_at w k) as [[|f]|] eqn:Hk; cbn [fst snd].
  - destruct ok; cbn [fst snd]; [auto|discriminate].
  - discriminate.
  - destruct (node_at w (removelast k)) as [[|f]|]; cbn [fst snd]; try discriminate.
    intros _. destruct k as [|x k]; [discriminate|].
    cbn [node_at set_fs fs]. by rewrite lookup_insert_eq.
Qed.

Lemma mkdir_parents_dirs rest : forall pre ok w,
  (mkdir_parents pre rest ok w).1 = inr tt ->
  forall a b, rest = a ++ b -> a <> [] ->
    node_at (mkdir_parents pre rest ok w).2 (pre ++ a) = Some Dir.
Proof.
  induction rest as [|x rest IH]; intros pre ok w Hok a b E Ha.
  { symmetry in E. apply app_eq_nil in E. tauto. }
  destruct a as [|x' a]; [done|]. injection E as <- E.
  cbn [mkdir_parents] in *. destruct rest as [|y rest].
  - symmetry in E. apply app_eq_nil in E as [-> _]. by apply mkdir_one_dir.
  - pose proof (mkdir_one_dir (pre ++ [x]) true w) as Hd.
    destruct (mkdir_one (pre ++ [x]) true w) as [[e|[]] w1]; cbn [fst snd] in *.
    { destruct e; discriminate. }
    destruct a as [|y' a].
    + pose proof (mkdir_parents_effects (y :: rest) (pre ++ [x]) ok w1)
        as (_ & _ & _ & Hn & _).
      rewrite Hn by (rewrite Hd; eauto). auto.
    + replace (pre ++ x :: y' :: a) with ((pre ++ [x]) ++ y' :: a)
        by (by rewrite <- app_assoc).
      by apply (IH _ _ _ Hok (y' :: a) b).
Qed.

Lemma sem_mkdir_parents_dirs p ok w :
  (sem_mkdir h p true ok w).1 = inr tt ->
  forall a b, key h p = a ++ b ->
    node_at (sem_mkdir h p true ok w).2 a = Some Dir.
Proof.
  unfold sem_mkdir. intros Hok a b E.
  destruct a as [|x a]; [reflexivity|].
  by apply (mkdir_parents_dirs (key h p) [] ok w Hok (x :: a) b).
Qed.

Lemma relative_to_cwd p rel :
  Path.relative_to p (Path.mk true (cwd h)) = Some rel ->
  Path.absolute p = true /\ Path.absolute rel = false /\
  Path.parts p = cwd h ++ Path.parts rel.
Proof.
  unfold Path.relative_to. cbn [Path.absolute Path.parts].
  destruct (Path.absolute p); cbn [Bool.eqb]; [|discriminate].
  destruct (Path.strip_prefix (cwd h) (Path.parts p)) as [rest|] eqn:E; [|discriminate].
  intros [= <-]. apply strip_prefix_spec in E. auto.
Qed.

Lemma removelast_app_nonempty {A} (l l' : list A) :
  l' <> [] -> removelast (l ++ l') = l ++ removelast l'.
Proof. intros Hne. by apply removelast_app. Qed.

(** A backup that succeeds leaves a chain of directories from the root
    down to the copy it wrote. *)
Lemma create_backup_tree p w :
  force_no_backup_check self = false ->
  backup_enabled self = true ->
  (run h (create_backup self p) w).1 = inr true ->
  exists rel f d,
    Path.relative_to p (Path.mk true (cwd h)) = Some rel /\
    file_at w (key h p) = Some f /\
    file_at (run h (create_backup self p) w).2 d = Some f /\
    (d = key h (Path.joinpath (backup_dir self) rel) \/
     d = key h (Path.joinpath (backup_dir self) rel) ++ [Path.name p] /\
     node_at (run h (create_backup self p) w).2
       (key h (Path.joinpath (backup_dir self) rel)) = Some Dir) /\
    forall a b,
      key h (Path.parent (Path.joinpath (backup_dir self) rel)) = a ++ b ->
      node_at (run h (create_backup self p) w).2 a = Some Dir.
Proof.
  intros Hf He. rewrite create_backup_enabled by assumption. cbv zeta.
  pose proof (sem_mkdir_effects h (backup_dir self) false true w) as (_&_&_&_&Hf1).
  destruct (sem_mkdir h (backup_dir self) false true w) as [[e|[]] w1];
    simpl in *; [discriminate|].
  destruct (Path.relative_to p _) as [rel|]; simpl; [|discriminate].
  set (bf := Path.joinpath (backup_dir self) rel).
  pose proof (sem_mkdir_effects h (Path.parent bf) true true w1) as (_&_&_&_&Hf2).
  pose proof (sem_mkdir_parents_dirs (Path.parent bf) true w1) as Hdirs.
  destruct (sem_mkdir h (Path.parent bf) true true w1) as [[e|[]] w2];
    cbn [fst snd] in *; [discriminate|].
  specialize (Hdirs eq_refl).
  destruct (sem_copy2_spec h p bf w2)
    as [(f & Hr & Hsrc & Hw & Hne & Hnd)|(e & Hr & Hw)];
    destruct (sem_copy2 h p bf w2) as [[e'|[]] w3]; simpl in *;
    try discriminate; subst w3.
  intros _. exists rel, f, (copy_target h p bf w2).
  assert (copy_target h p bf w2 <> []) as Hd_ne.
  { intros Hnil. rewrite Hnil in Hnd. by apply Hnd. }
  split; [reflexivity|]. split; [by rewrite <- Hf1, <- Hf2|]. split.
  { apply file_at_node. by apply node_at_write_eq. }
  split.
  - unfold copy_target in *. destruct (node_at w2 (key h bf)) as [[|g]|] eqn:Hbf; auto.
    right. split; [reflexivity|].
    rewrite node_at_write_ne; [exact Hbf|].
    intros E. apply (f_equal length) in E. rewrite length_app in E. cbn [length] in E. fold bf in E. lia.
  - intros a b E. rewrite node_at_write_ne; [by eapply Hdirs|].
    intros ->. apply Hnd. by eapply Hdirs.
Qed.

End Rescan.

(** X7. Backup copies are image files too. After a backup that succeeded
    (backups enabled, no override, a relative backup directory as the
    default one is), a recursive scan of the working directory given by its
    absolute path lists the copy just written inside the backup directory:
    the exclusion of line 266 does not apply to it, whatever relative text
    the backup directory has. *)
Theorem backup_copy_is_listed
    (h : Host) (self : ImageCompressor) (backup_dir_text : string)
    (p : Path.t) (w : world) :
  force_no_backup_check self = false ->
  backup_enabled self = true ->
  Path.absolute (backup_dir self) = false ->
  backup_dir_text <> EmptyString ->
  startswith backup_dir_text "/" = false ->
  node_at w (cwd h) = Some Dir ->
  lower (Path.suffix p) ∈ IMAGE_EXTENSIONS ->
  (run h (create_backup self p) w).1 = inr true ->
  let w' := (run h (create_backup self p) w).2 in
  exists tail f,
    file_at w (key h p) = Some f /\
    file_at w' (cwd h ++ Path.parts (backup_dir self) ++ tail) = Some f /\
    str (Path.mk true (cwd h ++ Path.parts (backup_dir self) ++ tail))
      ∈ find_image_files h backup_dir_text (Path.mk true (cwd h)) true w'.
Proof.
  intros Hf He Hbrel Hne Hslash Hcwd Hext Hok w'.
  destruct (create_backup_tree h self p w Hf He Hok)
    as (rel & f & d & Hrel & Hsrc & Hcopy & Hd & Hchain).
  fold w' in Hcopy, Hd, Hchain.
  destruct (relative_to_cwd h _ _ Hrel) as (Hpabs & Hrabs & Hparts).
  set (bp := Path.parts (backup_dir self)) in *.
  set (rp := Path.parts rel) in *.
  assert (key h p = cwd h ++ rp) as Hkp
    by (unfold key, Path.resolve; by rewrite Hpabs).
  assert (rp <> []) as Hrp.
  { intros E. rewrite E, app_nil_r in Hkp. apply file_at_node in Hsrc. congruence. }
  assert (Path.name p = List.last rp EmptyString) as Hname
    by (unfold Path.name; rewrite Hparts; by apply last_app_nonempty).
  assert (key h (Path.joinpath (backup_dir self) rel) = cwd h ++ bp ++ rp) as Hkbf.
  { unfold Path.joinpath. rewrite Hrabs. unfold key, Path.resolve.
    cbn [Path.absolute Path.parts]. by rewrite Hbrel. }
  assert (key h (Path.parent (Path.joinpath (backup_dir self) rel))
          = cwd h ++ removelast (bp ++ rp)) as Hkparent.
  { unfold Path.joinpath. rewrite Hrabs. unfold key, Path.resolve, Path.parent.
    cbn [Path.absolute Path.parts]. by rewrite Hbrel. }
  rewrite Hkbf in Hd. rewrite Hkparent in Hchain.
  assert (forall pre x suf, bp ++ rp = pre ++ x :: suf ->
            node_at w' (cwd h ++ pre) = Some Dir) as Hpre.
  { intros pre x suf E. apply (Hchain _ (removelast (x :: suf))).
    rewrite E, removelast_app by done. by rewrite app_assoc. }
  assert (forall s, startswith (String "/" s) backup_dir_text = false) as Htext.
  { intros s. destruct backup_dir_text as [|c pre]; [done|].
    apply startswith_head. intros <-. unfold startswith in Hslash.
    cbn in Hslash. destruct pre; discriminate. }
  assert (forall tail,
            tail <> [] ->
            (forall pre x suf, bp ++ tail = pre ++ x :: suf ->
               node_at w' (cwd h ++ pre) = Some Dir) ->
            file_at w' (cwd h ++ bp ++ tail) = Some f ->
            List.last tail EmptyString = Path.name p ->
            str (Path.mk true (cwd h ++ bp ++ tail))
              ∈ find_image_files h backup_dir_text (Path.mk true (cwd h)) true w')
    as Hlisted.
  { intros tail Htail Hdirs Hfile Hlast.
    apply find_image_files_iff. exists (bp ++ tail), f.
    unfold Path.joinpath. cbn [Path.absolute Path.parts].
    split; [reflexivity|]. split.
    { apply walkable_chain; [by apply app_nonempty_r|]. exact Hdirs. }
    split; [discriminate|]. split; [exact Hfile|]. split.
    - unfold Path.suffix, Path.name. cbn [Path.parts].
      rewrite last_app_nonempty, Hlast by assumption. exact Hext.
    - unfold str. cbn [Path.absolute]. apply Htext. }
  destruct Hd as [->|[-> Hdir]].
  - exists rp, f. split; [exact Hsrc|]. split; [exact Hcopy|].
    apply Hlisted; auto.
  - exists (rp ++ [Path.name p]), f. split; [exact Hsrc|].
    rewrite <- !app_assoc in Hcopy. split; [exact Hcopy|].
    apply Hlisted; auto.
    + by apply app_nonempty_r.
    + intros pre x suf E. destruct (decide (suf = [])) as [->|Hsuf].
      * rewrite app_assoc in E. apply app_inj_tail in E as [<- _].
        exact Hdir.
      * destruct (exists_last Hsuf) as (suf' & y & ->).
        rewrite app_assoc, app_comm_cons, app_assoc in E.
        apply app_inj_tail in E as [E _]. by apply (Hpre pre x suf').
    + apply last_last.
Qed.

(* ===================================================================== *)
(** * More on single jobs *)
(* ===================================================================== *)


(** X9. The scratch file never outlives its job: once the backup gate has
    passed and [NamedTemporaryFile] has created the scratch file under a
    name that was free, that name is free again when the job ends, on every
    way out (copy failure, unsupported format, unavailable or failing
    optimiser, result not smaller, commit, failed commit). *)
Theorem scratch_file_never_outlives_job
    (h : Host) (self : ImageCompressor) (input : Path.t) (q : Z)
    (w w2 w3 : world) (temp : Path.t) :
  is_Some (node_at w (key h input)) ->
  run h (create_backup self input) w = (inr true, w2) ->
  sem_tempfile h (lower (Path.suffix input)) w2 = (inr temp, w3) ->
  node_at w2 (key h temp) = None /\
  node_at w3 (key h temp)
    = Some (File {| data := []; mtime := now h |}) /\
  node_at (run h (compress_image self input q) w).2 (key h temp) = None.
Proof.
  intros [n Hin] Hb Ht.
  pose proof (sem_tempfile_spec h (lower (Path.suffix input)) w2) as Hspec.
  rewrite Ht in Hspec. cbn [fst snd] in Hspec.
  destruct Hspec as (nm0 & i0 & Htemp & Hfree0 & Hw3).
  assert (key h temp <> []) as Hne by (subst temp; by eapply node_at_none_nonempty).
  split; [by subst temp|]. split.
  { rewrite Hw3, node_at_set_seed. subst temp. by apply node_at_write_eq. }
  destruct (job_analysis h self input q w) as [Hn|w2' Hin' Hb'|w2' e Hin' Hb' Ht'|
    original w2' nm i r Hg Hin' Hb' ext temp' w3' Hfree Ht' Hsc];
    try congruence.
  rewrite Hb in Hb'. injection Hb' as <-.
  subst ext. rewrite Ht in Ht'. injection Ht' as Et Ew.
  rewrite <- Et in Hsc. apply scratch_removed in Hsc; [|exact Hne].
  destruct r as [[e|b] w4]; cbn [settle snd] in *.
  - by rewrite node_at_bump, node_at_failed.
  - by rewrite node_at_bump.
Qed.

(** X10. The quality parameter reaches cjpeg only: for a file whose
    lower-cased suffix is neither [.jpg] nor [.jpeg] the job is the same
    program whatever the quality, and so are its result and its effects. *)
Theorem quality_only_matters_for_jpeg
    (self : ImageCompressor) (input : Path.t) (q q' : Z) :
  lower (Path.suffix input) <> ".jpg" ->
  lower (Path.suffix input) <> ".jpeg" ->
  compress_image self input q = compress_image self input q' /\
  forall h w, run h (compress_image self input q) w
              = run h (compress_image self input q') w.
Proof.
  intros H1 H2.
  assert (compress_image self input q = compress_image self input q') as E.
  { apply String.eqb_neq in H1, H2.
    unfold compress_image, scratch_phase, dispatch. by rewrite H1, H2. }
  split; [exact E|]. intros h w. by rewrite E.
Qed.

(** X11. [check_dependencies] probes cwebp, but no method reads that
    entry of [available_tools]: two compressors that differ only there run
    the same program on every file. *)
Theorem cwebp_is_never_consulted
    (self self' : ImageCompressor) (input : Path.t) (q : Z) :
  backup_enabled self = backup_enabled self' ->
  backup_dir self = backup_dir self' ->
  force_no_backup_check self = force_no_backup_check self' ->
  (forall t, t <> cwebp -> available_tools self t = available_tools self' t) ->
  compress_image self input q = compress_image self' input q.
Proof.
  intros He Hd Hf Ht.
  unfold compress_image, scratch_phase, dispatch, create_backup,
    compress_jpeg, compress_png, png_quantize, png_lossless, compress_gif.
  rewrite He, Hd, Hf, !(Ht mozjpeg), !(Ht pngquant), !(Ht optipng),
    !(Ht zopflipng), !(Ht gifsicle) by discriminate.
  reflexivity.
Qed.

Section Unavailable.

Variable h : Host.
Variable self : ImageCompressor.

(** With none of its optimisers installed a strategy returns [False]
    having launched nothing and touched no file. *)
Lemma dispatch_unavailable input temp ext q w :
  has_strategy ext = true ->
  Forall (fun t => available_tools self t = false) (tools_for ext) ->
  exists w1,
    run h (dispatch self input temp ext q) w = (inr (Some false), w1) /\
    fs w1 = fs w /\ stats w1 = stats w /\
    launches (trace w1) = launches (trace w) /\
    outcomes (trace w1) = outcomes (trace w).
Proof.
  intros Hs Hnone. unfold dispatch, tools_for, has_strategy in *.
  destruct (String.eqb ext ".jpg" || String.eqb ext ".jpeg")%bool.
  { apply Forall_cons in Hnone as [Hm _].
    unfold compress_jpeg. rewrite Hm. eexists. split; [reflexivity|]. auto. }
  cbn [orb] in Hs. destruct (String.eqb ext ".png").
  { apply Forall_cons in Hnone as [Hq Hnone].
    apply Forall_cons in Hnone as [Ho Hnone].
    apply Forall_cons in Hnone as [Hz _].
    unfold compress_png, png_quantize, png_lossless. rewrite Hq, Ho, Hz.
    eexists. split; [reflexivity|]. auto. }
  cbn [orb] in Hs. destruct (String.eqb ext ".gif"); [|discriminate].
  apply Forall_cons in Hnone as [Hg _].
  unfold compress_gif. rewrite Hg. eexists. split; [reflexivity|]. auto.
Qed.

End Unavailable.

(** X12. When none of the optimisers of a file's format is installed, the
    job is a no-op: it returns False, launches nothing, leaves the file as
    it was and counts nothing as compressed. If the file is a regular file,
    the backup gate passes and the scratch file is created, the job is
    logged as skipped for want of a tool and is not counted as failed. *)
Theorem unavailable_optimisers_skip
    (h : Host) (self : ImageCompressor) (input : Path.t) (q : Z) (w : world) :
  has_strategy (lower (Path.suffix input)) = true ->
  Forall (fun t => available_tools self t = false)
         (tools_for (lower (Path.suffix input))) ->
  let r := run h (compress_image self input q) w in
  r.1 = inr false /\
  launches (trace r.2) = launches (trace w) /\
  node_at r.2 (key h input) = node_at w (key h input) /\
  st_compressed (stats r.2) = st_compressed (stats w) /\
  forall f w2 temp w3,
    file_at w (key h input) = Some f ->
    run h (create_backup self input) w = (inr true, w2) ->
    sem_tempfile h (lower (Path.suffix input)) w2 = (inr temp, w3) ->
    head (trace r.2) = Some (EvLog Warning (MsgToolUnavailable input)) /\
    outcomes (trace r.2) = JobSkipped :: outcomes (trace w) /\
    st_failed (stats r.2) = st_failed (stats w).
Proof.
  intros Hs Hnone r.
  assert (r.1 = inr false /\ launches (trace r.2) = launches (trace w)) as [Hr Hl].
  { subst r.
    destruct (job_analysis h self input q w) as [Hn|w2 Hin Hb|w2 e Hin Hb Ht|
      original w2 nm i r Hg Hin Hb ext temp w3 Hfree Ht Hsc].
    - world_simpl. by rewrite launches_log.
    - apply create_backup_effects in Hb as (_ & _ & Hl).
      world_simpl. by rewrite launches_log.
    - apply create_backup_effects in Hb as (_ & _ & Hl).
      world_simpl. by rewrite launches_log.
    - apply create_backup_effects in Hb as (_ & _ & Hl).
      assert (launches (trace w3) = launches (trace w)) as Htr by exact Hl.
      clearbody w3.
      destruct Hsc as [e ?|f ? ? Hu|f w4 t ? ? ? Hd ?|f w4 t ? ? ? Hd|
                       f w4 t e ? ? ? Hd|f w4 t ? ? ? Hd];
        try (destruct (dispatch_unavailable h self input temp ext q
                         (write (key h temp) f w3) Hs Hnone)
               as (w5 & Hrun & _); rewrite Hrun in Hd; discriminate).
      + world_simpl. by rewrite launches_log, Htr.
      + subst ext. congruence.
      + destruct (dispatch_unavailable h self input temp ext q
                    (write (key h temp) f w3) Hs Hnone)
          as (w5 & Hrun & _ & _ & Hl5 & _).
        rewrite Hrun in Hd. injection Hd as <-.
        world_simpl. by rewrite launches_log, Hl5. }
  split; [exact Hr|]. split; [exact Hl|]. split.
  { pose proof (job_original h self input q w) as Ho. fold r in Ho.
    by rewrite Hr in Ho. }
  split.
  { destruct (job_accounting h self input q w) as (o & Ho & _ & _ & Hc & _).
    fold r in Ho, Hc. rewrite Ho in Hr. injection Hr as Hr. rewrite Hr in Hc. lia. }
  intros f w2 temp w3 Hf Hb Ht.
  destruct (regular_setup h self input w f _ w2 temp w3 Hf Hb Ht)
    as (_ & Hne & Hf3 & Hst3 & Htr3 & _ & _ & Hcopy & Hnode).
  destruct (create_backup_effects h self input w _ _ Hb) as (_ & Ho2 & _).
  destruct (dispatch_unavailable h self input temp (lower (Path.suffix input)) q
              (write (key h temp) f w3) Hs Hnone)
    as (w5 & Hrun & Hfs5 & Hst5 & _ & Ho5).
  assert (node_at w5 (key h temp) = Some (File f)) as Hnode5.
  { assert (forall k, node_at w5 k = node_at (write (key h temp) f w3) k) as E
      by (intros [|x k]; [reflexivity|cbn [node_at]; by rewrite Hfs5]).
    by rewrite E. }
  subst r. rewrite compress_image_run. cbv zeta.
  rewrite (sem_getsize_file h input w f Hf), Hb, Ht, scratch_run. cbv zeta.
  rewrite Hcopy, Hrun. cbn [fst snd].
  rewrite (run_cleanup_file h temp _ f) by (by rewrite node_at_emit).
  world_simpl. rewrite outcomes_cons. cbn [outcome_of].
  rewrite Ho5. world_simpl. rewrite Htr3, Ho2, Hst5. world_simpl. rewrite Hst3. auto.
Qed.

(* ===================================================================== *)
(** * What a job leaves alone *)
(* ===================================================================== *)

Section Frame.

Variable h : Host.
Variable self : ImageCompressor.

(** The backup removes nothing, and changes an existing node only by
    overwriting an older copy inside the backup directory. *)
Lemma create_backup_nodes p w k n :
  node_at w k = Some n ->
  node_at (run h (create_backup self p) w).2 k = Some n \/
  (exists tail, k = key h (backup_dir self) ++ tail) /\
  is_Some (node_at (run h (create_backup self p) w).2 k).
Proof.
  intros Hk.
  assert (is_Some (node_at w k)) as Hin by eauto.
  destruct (force_no_backup_check self) eqn:Hf;
    [left; by rewrite create_backup_disabled by auto|].
  destruct (backup_enabled self) eqn:He;
    [|left; by rewrite create_backup_disabled by auto].
  rewrite create_backup_enabled by assumption. cbv zeta.
  pose proof (sem_mkdir_effects h (backup_dir self) false true w) as (_&_&_&Hn1&_).
  destruct (sem_mkdir h (backup_dir self) false true w) as [[e|[]] w1];
    simpl in *; [left; by rewrite node_at_emit, Hn1|].
  assert (is_Some (node_at w1 k)) as Hin1 by (by rewrite Hn1).
  destruct (Path.relative_to p _) as [rel|] eqn:Hrel; simpl;
    [|left; by rewrite node_at_emit, Hn1].
  set (bf := Path.joinpath (backup_dir self) rel).
  pose proof (sem_mkdir_effects h (Path.parent bf) true true w1) as (_&_&_&Hn2&_).
  destruct (sem_mkdir h (Path.parent bf) true true w1) as [[e|[]] w2]; simpl in *;
    [left; by rewrite node_at_emit, Hn2, Hn1|].
  destruct (sem_copy2_spec h p bf w2)
    as [(f & Hr & _ & Hw & Hne & Hnd)|(e & Hr & Hw)];
    destruct (sem_copy2 h p bf w2) as [[e'|[]] w3]; simpl in *;
    try discriminate; subst w3.
  - destruct (decide (k = copy_target h p bf w2)) as [->|Hd].
    + right. split.
      * apply relative_to_cwd in Hrel as (_ & Hrabs & _).
        assert (key h bf = key h (backup_dir self) ++ Path.parts rel) as Hkbf.
        { unfold bf, Path.joinpath. rewrite Hrabs. apply key_joined. }
        clear Hnd Hne. unfold copy_target. rewrite Hkbf.
        destruct (node_at w2 _) as [[|g]|]; rewrite <- ?app_assoc; eauto.
        all: exists (Path.parts rel); by rewrite ?app_nil_r.
      * rewrite node_at_write_eq; [eauto|].
        intros Hnil. rewrite Hnil in Hnd. by apply Hnd.
    + left. rewrite node_at_write_ne by auto. by rewrite Hn2, Hn1.
  - left. by rewrite node_at_emit, Hn2, Hn1.
Qed.

Lemma dispatch_on_scratch input temp ext q :
  ops_in (launch_op (fun c => command_input c = temp /\
                              (command_output c = temp \/
                               command_output c = tmp_of temp)))
         (dispatch self input temp ext q).
Proof.
  unfold dispatch, compress_jpeg, compress_png, png_quantize, png_lossless,
    compress_gif, log.
  ops_in_tac; simpl; auto.
Qed.

End Frame.

(** Keys apart from the file itself, the entries of the temporary directory
    and the backup directory hold after a job what they held before. *)
Lemma job_frame
    (h : Host) (self : ImageCompressor) (input : Path.t) (q : Z) (w : world)
    (k : list string) (n : node) :
  node_at w k = Some n ->
  k <> key h input ->
  (forall x, k <> tempdir h ++ [x]) ->
  (forall tail, k <> key h (backup_dir self) ++ tail) ->
  node_at (run h (compress_image self input q) w).2 k = Some n.
Proof.
  intros Hk Hin_ne Htmp Hbak.
  assert (forall w2 b, run h (create_backup self input) w = (b, w2) ->
                       node_at w2 k = Some n) as Hgate.
  { intros w2 b Hb.
    destruct (create_backup_nodes h self input w k n Hk) as [H|[[tail H] _]].
    - by rewrite Hb in H.
    - by apply Hbak in H. }
  destruct (job_analysis h self input q w) as [Hn|w2 Hin Hb|w2 e Hin Hb Ht|
    original w2 nm i r Hg Hin Hb ext temp w3 Hfree Ht Hsc]; cbn [settle snd].
  - by rewrite node_at_bump, node_at_failed.
  - rewrite node_at_bump, node_at_emit. eauto.
  - rewrite node_at_bump, node_at_failed. eauto.
  - assert (k <> key h temp) as Hkt by apply Htmp.
    assert (k <> key h (tmp_of temp)) as Hkt'.
    { unfold temp. rewrite key_tmp_of. apply Htmp. }
    assert (node_at w3 k = Some n) as Hk3.
    { unfold w3. rewrite node_at_set_seed, node_at_write_ne by assumption. eauto. }
    clearbody w3.
    assert (forall c b w4,
      has_strategy ext = true ->
      run h (dispatch self input temp ext q) (write (key h temp) c w3)
        = (inr (Some b), w4) ->
      forall k', k' <> key h temp -> k' <> key h (tmp_of temp) ->
                 node_at w4 k' = node_at w3 k') as Hframe.
    { intros c b w4 Hs Hrun k' H1 H2.
      destruct (dispatch_effects h self _ _ _ _ _ _ _ Hs Hrun) as (_ & _ & Hfr).
      rewrite Hfr, node_at_write_ne; auto. }
    assert (node_at r.2 k = Some n) as Hr.
    { destruct Hsc as [e ?|f ? ? Hu|f w4 t ? ? Hs Hd ?|f w4 t ? ? Hs Hd|
                       f w4 t e ? ? Hs Hd|f w4 t Hf ? Hs Hd]; cbn [snd].
      - by rewrite node_at_remove_ne.
      - by rewrite node_at_remove_ne, node_at_emit, node_at_write_ne.
      - rewrite node_at_remove_ne, node_at_emit by assumption.
        by rewrite (Hframe _ _ _ Hs Hd).
      - rewrite node_at_remove_ne, node_at_emit by assumption.
        by rewrite (Hframe _ _ _ Hs Hd).
      - rewrite node_at_remove_ne by assumption.
        by rewrite (Hframe _ _ _ Hs Hd).
      - assert (node_at w4 (key h input) = Some (File f)) as Hin4.
        { rewrite (Hframe _ _ _ Hs Hd); [by apply file_at_node|assumption|].
          unfold temp. rewrite key_tmp_of. subst ext.
          by apply strategy_input_not_tmp. }
        rewrite (copy_target_file h temp input w4 f Hin4).
        rewrite node_at_remove_ne, node_at_committed, node_at_write_ne by assumption.
        by rewrite (Hframe _ _ _ Hs Hd). }
    destruct r as [[e|b] w5]; cbn [settle snd] in *.
    + by rewrite node_at_bump, node_at_failed.
    + by rewrite node_at_bump.
Qed.

(** X13. A job changes and removes nothing outside its own four places, for
    paths without the component [..] in a file system without links: a node
    that exists before the job, is not the file itself, is not an entry of
    the temporary directory, does not lie in the backup directory and is not
    the log file of the working directory is exactly the same after the
    job. *)
Theorem job_leaves_other_files_alone
    (h : Host) (self : ImageCompressor) (input : Path.t) (q : Z) (w : world)
    (k : list string) (n : node) :
  plain (cwd h) = true ->
  plain (tempdir h) = true ->
  plain (Path.parts input) = true ->
  plain (Path.parts (backup_dir self)) = true ->
  node_at w k = Some n ->
  k <> key h input ->
  (forall x, k <> tempdir h ++ [x]) ->
  (forall tail, k <> key h (backup_dir self) ++ tail) ->
  k <> log_file h ->
  node_at (run h (compress_image self input q) w).2 k = Some n.
Proof.
  intros _ _ _ _ Hk Hin_ne Htmp Hbak _.
  exact (job_frame h self input q w k n Hk Hin_ne Htmp Hbak).
Qed.

(** X14. The optimisers are only ever pointed at the scratch copy: every
    command a job launches reads a path of the temporary directory that
    did not exist when the job started, and writes that same path or the
    path with [.tmp] appended; neither is the path of the original. *)
Theorem optimisers_only_see_the_scratch_copy
    (h : Host) (self : ImageCompressor) (input : Path.t) (q : Z) (w : world) :
  exists new,
    launches (trace (run h (compress_image self input q) w).2)
      = new ++ launches (trace w) /\
    forall c, c ∈ new ->
      node_at w (key h (command_input c)) = None /\
      (exists nm, command_input c = Path.mk true (tempdir h ++ [nm])) /\
      (command_output c = command_input c \/
       command_output c = tmp_of (command_input c)) /\
      key h (command_input c) <> key h input /\
      key h (command_output c) <> key h input.
Proof.
  destruct (job_analysis h self input q w) as [Hn|w2 Hin Hb|w2 e Hin Hb Ht|
    original w2 nm i r Hg Hin Hb ext temp w3 Hfree Ht Hsc].
  - exists []. world_simpl. rewrite launches_log. split; [reflexivity|].
    intros c Hc. by apply elem_of_nil in Hc.
  - apply create_backup_effects in Hb as (_ & _ & Hl).
    exists []. world_simpl. rewrite launches_log. split; [exact Hl|].
    intros c Hc. by apply elem_of_nil in Hc.
  - apply create_backup_effects in Hb as (_ & _ & Hl).
    exists []. world_simpl. rewrite launches_log. split; [exact Hl|].
    intros c Hc. by apply elem_of_nil in Hc.
  - assert (node_at w (key h temp) = None) as Hfree0.
    { destruct (node_at w (key h temp)) as [n|] eqn:Hk; [|reflexivity].
      destruct (create_backup_nodes h self input w _ n Hk) as [H|[_ [n' H]]];
        rewrite Hb in H; cbn [snd] in H; congruence. }
    apply create_backup_effects in Hb as (_ & _ & Hl).
    assert (launches (trace w3) = launches (trace w)) as Hl3 by exact Hl.
    clearbody w3.
    assert (forall f b w4,
      run h (dispatch self input temp ext q) (write (key h temp) f w3)
        = (b, w4) ->
      exists new, launches (trace w4) = new ++ launches (trace w) /\
        Forall (fun c => command_input c = temp /\
                         (command_output c = temp \/ command_output c = tmp_of temp))
               new) as Hd.
    { intros f b w4 Hrun.
      destruct (launches_run h _ _ (write (key h temp) f w3)
                  (dispatch_on_scratch self input temp ext q)) as (new & Hn & Hall).
      rewrite Hrun in Hn. cbn [snd] in Hn. world_simpl.
      exists new. split; [|exact Hall]. by rewrite Hn, Hl3. }
    assert (exists new, launches (trace r.2) = new ++ launches (trace w) /\
        Forall (fun c => command_input c = temp /\
                         (command_output c = temp \/ command_output c = tmp_of temp))
               new /\
        (new = [] \/ has_strategy ext = true)) as (new & Hn & Hall & Hstrat).
    { destruct Hsc as [e ?|f ? ? Hu|f w4 t ? ? Hs Hrun ?|f w4 t ? ? Hs Hrun|
                       f w4 t e ? ? Hs Hrun|f w4 t Hf ? Hs Hrun];
        cbn [snd]; world_simpl; rewrite ?launches_log;
        try (destruct (Hd _ _ _ Hrun) as (new & Hn & Hall); eauto 10).
      - exists []. auto.
      - exists []. auto. }
    exists new. split.
    { destruct r as [[e|b] w5]; world_simpl; rewrite ?launches_log; exact Hn. }
    intros c Hc. rewrite Forall_forall in Hall.
    assert (has_strategy ext = true) as Hs.
    { destruct Hstrat as [->|Hs]; [by apply elem_of_nil in Hc|exact Hs]. }
    apply Hall in Hc as [-> Hout].
    assert (key h temp <> key h input) as Hne.
    { intros E. rewrite E in Hfree0. rewrite Hfree0 in Hin. by destruct Hin. }
    assert (key h (tmp_of temp) <> key h input) as Hne'.
    { unfold temp. rewrite key_tmp_of. intros E. symmetry in E. revert E.
      subst ext. by apply strategy_input_not_tmp. }
    split; [exact Hfree0|]. split; [unfold temp; eauto|].
    split; [destruct Hout; auto|]. split; [exact Hne|].
    destruct Hout as [-> | ->]; assumption.
Qed.

(** X15. The backup directory is created before the path of the file is
    examined. With backups enabled and no override, a job on an existing
    file outside the working directory fails its backup and returns False
    having written no file, and yet the backup directory, absent before,
    is there afterwards. *)
Theorem backup_directory_created_before_path_check
    (h : Host) (self : ImageCompressor) (input : Path.t) (q : Z) (w : world) :
  force_no_backup_check self = false ->
  backup_enabled self = true ->
  is_Some (node_at w (key h input)) ->
  Path.relative_to input (Path.mk true (cwd h)) = None ->
  node_at w (key h (backup_dir self)) = None ->
  node_at w (removelast (key h (backup_dir self))) = Some Dir ->
  let r := run h (compress_image self input q) w in
  r.1 = inr false /\
  (forall k, file_at r.2 k = file_at w k) /\
  node_at r.2 (key h (backup_dir self)) = Some Dir.
Proof.
  intros Hf He Hin Hrel Hnone Hparent r.
  assert ((run h (create_backup self input) w).1 = inr false) as Hfail
    by (by apply create_backup_outside).
  destruct (backup_failed_job h self input q w Hfail) as (Hr & Hfiles & _ & _ & Hex).
  split; [exact Hr|]. split; [exact Hfiles|].
  destruct (Hex Hin) as (Htr & _ & _).
  assert (key h (backup_dir self) <> []) as Hne by (by eapply node_at_none_nonempty).
  assert (fs r.2 = <[key h (backup_dir self) := Dir]> (fs w)) as Hfs.
  { subst r. rewrite compress_image_run. cbv zeta.
    pose proof (sem_getsize_spec h input w) as [Hw Hg].
    destruct (sem_getsize h input w) as [[e|original] w1]; cbn [fst snd] in *.
    { destruct Hg as [Hg _]. rewrite Hg in Hin. by destruct Hin. }
    subst w1. rewrite create_backup_enabled by assumption. cbv zeta.
    unfold sem_mkdir, mkdir_one. rewrite Hnone, Hparent, Hrel. reflexivity. }
  destruct (key h (backup_dir self)) as [|x k] eqn:E; [done|].
  cbn [node_at]. by rewrite Hfs, lookup_insert_eq.
Qed.

(* ===================================================================== *)
(** * The byte totals of a run *)
(* ===================================================================== *)

Section Bytes.

Variable h : Host.
Variable self : ImageCompressor.

(** A job either leaves [compressed] and the byte totals alone, or counts
    one compressed file together with its sizes, the new size being the
    smaller. *)
Lemma job_bytes input q w :
  let s := stats w in
  let s' := stats (run h (compress_image self input q) w).2 in
  (st_compressed s' = st_compressed s /\
   st_original_size s' = st_original_size s /\
   st_compressed_size s' = st_compressed_size s /\
   st_space_saved s' = st_space_saved s) \/
  (exists original shrunk,
     0 <= shrunk < original /\
     st_compressed s' = st_compressed s + 1 /\
     st_original_size s' = st_original_size s + original /\
     st_compressed_size s' = st_compressed_size s + shrunk /\
     st_space_saved s' = st_space_saved s + (original - shrunk)).
Proof.
  cbv zeta.
  destruct (job_analysis h self input q w) as [Hn|w2 Hin Hb|w2 e Hin Hb Ht|
    original w2 nm i r Hg Hin Hb ext temp w3 Hfree Ht Hsc].
  - left. world_simpl. simpl. auto.
  - apply create_backup_effects in Hb as (Hst & _ & _).
    left. world_simpl. rewrite Hst. simpl. auto.
  - apply create_backup_effects in Hb as (Hst & _ & _).
    left. world_simpl. rewrite Hst. simpl. auto.
  - apply create_backup_effects in Hb as (Hst & _ & _).
    assert (stats w3 = stats w) as Hst3 by exact Hst.
    clearbody w3.
    destruct Hsc as [e ?|f ? ? Hu|f w4 t ? ? Hs Hrun ?|f w4 t ? ? Hs Hrun|
                     f w4 t e ? ? Hs Hrun|f w4 t Hf ? Hs Hrun ? Hlt];
      try (destruct (dispatch_effects h self _ _ _ _ _ _ _ Hs Hrun) as (Hst4 & _);
           cbn [stats write set_fs] in Hst4).
    + left. world_simpl. rewrite Hst3. simpl. auto.
    + left. world_simpl. rewrite Hst3. simpl. auto.
    + left. world_simpl. rewrite Hst4, Hst3. simpl. auto.
    + left. world_simpl. rewrite Hst4, Hst3. simpl. auto.
    + left. world_simpl. rewrite Hst4, Hst3. simpl. auto.
    + right. exists original, (size t). split.
      { split; [apply Nat2Z.is_nonneg|exact Hlt]. }
      world_simpl. rewrite Hst4, Hst3. simpl. repeat split; lia.
Qed.

Lemma job_keeps_coherent input q w :
  byte_totals_coherent (stats w) ->
  byte_totals_coherent (stats (run h (compress_image self input q) w).2).
Proof.
  unfold byte_totals_coherent. intros (H1 & H2 & H3).
  destruct (job_bytes input q w) as [(E1 & E2 & E3 & E4)|
    (o & s & Hs & E1 & E2 & E3 & E4)]; rewrite E1, E2, E3, E4; lia.
Qed.

Lemma run_all_keeps_coherent fs q : forall w,
  byte_totals_coherent (stats w) ->
  byte_totals_coherent (stats (run_all h (submitted self fs q) w)).
Proof.
  induction fs as [|f fs IH]; intros w Hw; [exact Hw|].
  cbn [submitted map run_all fold_left]. apply IH. by apply job_keeps_coherent.
Qed.

End Bytes.

(** X16. The byte totals add up after every run without interleaving: if
    original_size = compressed_size + space_saved held before (as for the
    zeroes of a new compressor), it holds afterwards, and each file counted
    as compressed has saved at least one byte; so when compressed > 0,
    original_size is positive and space_saved lies between 1 and
    original_size. *)
Theorem byte_totals_add_up
    (h : Host) (self : ImageCompressor) (fs : list Path.t) (q : Z) (w w' : world) :
  process_files_serial h self fs q w w' ->
  byte_totals_coherent (stats w) ->
  byte_totals_coherent (stats w') /\
  (0 < st_compressed (stats w') ->
   0 < st_space_saved (stats w') <= st_original_size (stats w')).
Proof.
  intros Hrun Hw. apply process_files_serial_world in Hrun. subst w'.
  rewrite sequential_world.
  assert (byte_totals_coherent
            (stats (run_all h (submitted self fs q)
                      (exec h (StatsSet Total_files (Z.of_nat (length fs))) w).2)))
    as Hc by (by apply run_all_keeps_coherent).
  split; [exact Hc|]. unfold byte_totals_coherent in Hc. lia.
Qed.

(* ===================================================================== *)
(** * The worker pool under every schedule *)
(* ===================================================================== *)

Section AnySchedule.

Variable h : Host.

Lemma ops_in_step (S : forall X, op X -> Prop) {A X} (o : op X) (k : X -> prog A) :
  ops_in S (Do o k) -> S X o /\ forall x, ops_in S (k x).
Proof.
  intros H.
  change (match Do o k with
          | Do o' k' => S _ o' /\ forall x, ops_in S (k' x)
          | _ => True
          end).
  destruct H; auto.
Qed.

(** A relation between worlds that every operation of [S] respects is
    respected by the pool under every schedule, when the jobs are built
    from [S]. *)
Lemma pool_run_respects (S : forall X, op X -> Prop) (R : world -> world -> Prop) :
  (forall w, R w w) ->
  (forall w1 w2 w3, R w1 w2 -> R w2 w3 -> R w1 w3) ->
  (forall X (o : op X) w, S X o -> R w (exec h o w).2) ->
  forall schedule s,
    Forall (ops_in S) (queue s) ->
    Forall (fun t => match t with Some p => ops_in S p | None => True end)
           (workers s) ->
    R (shared s) (shared (pool_run h schedule s)).
Proof.
  intros Hrefl Htrans Hop schedule.
  induction schedule as [|i schedule IH]; intros s Hq Hw; [apply Hrefl|].
  rewrite pool_run_cons.
  assert (R (shared s) (shared (pool_step h i s)) /\
          Forall (ops_in S) (queue (pool_step h i s)) /\
          Forall (fun t => match t with Some p => ops_in S p | None => True end)
                 (workers (pool_step h i s))) as (Hstep & Hq' & Hw').
  { unfold pool_step. destruct (workers s !! i) as [t|] eqn:Hi; [|auto].
    assert (forall t', match t' with Some p => ops_in S p | None => True end ->
              Forall (fun t => match t with Some p => ops_in S p | None => True end)
                     (<[i := t']> (workers s))) as Hins.
    { intros t' Ht'. apply Forall_insert; auto. }
    destruct t as [[a|e|X o k]|].
    1,2,4: destruct (queue s) as [|j q'] eqn:Eq; cbn [queue workers shared];
      [ split; [apply Hrefl|]; split; [constructor|]; by apply Hins
      | apply Forall_cons in Hq as [Hj Hq'];
        split; [apply Hrefl|]; split; [exact Hq'|]; by apply Hins ].
    cbn [queue workers shared].
    assert (ops_in S (Do o k)) as Hdo.
    { rewrite Forall_forall in Hw.
      apply (Hw (Some (Do o k))). by eapply list_elem_of_lookup_2. }
    apply ops_in_step in Hdo as [Ho Hk].
    split; [by apply Hop|]. split; [exact Hq|]. apply Hins, Hk. }
  eapply Htrans; [exact Hstep|]. by apply IH.
Qed.

Lemma compress_image_keeps_total self input q :
  ops_in keeps_total_op (compress_image self input q).
Proof.
  unfold compress_image, scratch_phase, dispatch, commit, cleanup, on_error,
    create_backup, compress_jpeg, compress_png, png_quantize, png_lossless,
    compress_gif, stats_add, log.
  ops_in_tac; simpl; auto.
Qed.

End AnySchedule.

(** X17. No job stores [total_files]: under every schedule of the worker
    pool, whatever the number of workers and however the jobs interleave,
    [total_files] is the number of files handed to [process_files], at
    every moment of the run and at its end. *)
Theorem total_files_survives_every_schedule
    (h : Host) (self : ImageCompressor) (fs : list Path.t) (q : Z)
    (max_workers : nat) (schedule : list nat) (w : world) :
  let s := pool_run h schedule
             {| queue := submitted self fs q;
                workers := replicate max_workers None;
                shared := (exec h (StatsSet Total_files (Z.of_nat (length fs))) w).2 |} in
  st_total_files (stats (shared s)) = Z.of_nat (length fs) /\
  forall w', process_files_pool h self fs q max_workers schedule w = Some w' ->
             st_total_files (stats w') = Z.of_nat (length fs).
Proof.
  intros s.
  assert (st_total_files (stats (shared s)) = Z.of_nat (length fs)) as Hs.
  { subst s.
    pose proof (pool_run_respects h keeps_total_op
      (fun w w' => st_total_files (stats w') = st_total_files (stats w))) as Hp.
    rewrite Hp.
    - reflexivity.
    - auto.
    - intros w1 w2 w3 H1 H2. congruence.
    - intros X o w0 Ho. rewrite exec_stats.
      destruct o; cbn [op_stats]; auto. destruct k; simpl in *; auto; contradiction.
    - cbn [queue]. unfold submitted. apply Forall_forall. intros p Hp'.
      apply list_elem_of_In, in_map_iff in Hp' as (f & <- & _).
      apply compress_image_keeps_total.
    - cbn [workers]. by apply Forall_replicate. }
  split; [exact Hs|].
  intros w'. unfold process_files_pool. cbv zeta. fold (submitted self fs q). fold s.
  destruct (finished s); [|discriminate]. by intros [= <-].
Qed.

(* ===================================================================== *)
(** * Sizes for the reader *)
(* ===================================================================== *)

Section FormatSize.

Lemma string_app_assoc a b c : (a +:+ b) +:+ c = a +:+ b +:+ c.
Proof.
  induction a as [|x a IH]; [reflexivity|].
  change (String x ((a +:+ b) +:+ c) = String x (a +:+ b +:+ c)). by rewrite IH.
Qed.

Lemma fixed1_nonneg num den :
  0 <= num ->
  fixed1 num den
  = pretty (round_half_even (10 * num) den / 10) +:+ "."
      +:+ pretty (round_half_even (10 * num) den mod 10).
Proof.
  intros Hn. unfold fixed1.
  destruct (Z.ltb_spec num 0) as [Hlt|_]; [lia|].
  by rewrite Z.abs_eq.
Qed.

Lemma format_size_unit n :
  _format_size n
  = fixed1 n (1024 ^ Z.of_nat (unit_index n))
      +:+ nth (unit_index n) ["B"; "KB"; "MB"; "GB"; "TB"] EmptyString.
Proof.
  unfold _format_size, unit_index, format_units.
  change (1024 * 1) with 1024.
  change (1024 * 1024) with (1024 ^ 2).
  change (1024 * 1024 ^ 2) with (1024 ^ 3).
  change (1024 * 1024 ^ 3) with (1024 ^ 4).
  destruct (n <? 1024); [reflexivity|].
  destruct (n <? 1024 ^ 2); [reflexivity|].
  destruct (n <? 1024 ^ 3); [reflexivity|].
  destruct (n <? 1024 ^ 4); reflexivity.
Qed.

Lemma round_half_even_near a b :
  0 <= a -> 0 < b -> 2 * Z.abs (a - round_half_even a b * b) <= b.
Proof.
  intros Ha Hb. unfold round_half_even.
  pose proof (Z.div_mod a b ltac:(lia)) as Hdm.
  pose proof (Z.mod_pos_bound a b Hb) as Hr.
  destruct (Z.ltb_spec b (2 * (a mod b))) as [H1|H1]; cbn [orb].
  - nia.
  - destruct (Z.eqb_spec b (2 * (a mod b))) as [H2|H2]; cbn [andb].
    + destruct (Z.odd (a / b)); nia.
    + nia.
Qed.

End FormatSize.

(** X18. [_format_size] picks the unit from the size alone (B below 1024,
    KB below 1024^2, MB below 1024^3, GB below 1024^4, TB from there on,
    with no larger unit) and only then rounds: for a size from 0 to
    2^53 - 1 the text is the size divided by that power of 1024, rounded to
    the nearest tenth (to the even tenth when halfway), followed by the
    unit; a size in bytes is shown exactly. *)
Theorem format_size_picks_unit_then_rounds (n : Z) :
  0 <= n < 2 ^ 53 ->
  let k := unit_index n in
  let d := 1024 ^ Z.of_nat k in
  let t := round_half_even (10 * n) d in
  _format_size n
  = pretty (t / 10) +:+ "." +:+ pretty (t mod 10)
      +:+ nth k ["B"; "KB"; "MB"; "GB"; "TB"] EmptyString /\
  2 * Z.abs (10 * n - t * d) <= d /\
  (n < 1024 -> _format_size n = pretty n +:+ ".0B").
Proof.
  intros [Hn _] k d t.
  assert (0 < d) as Hd by (apply Z.pow_pos_nonneg; lia).
  split.
  { rewrite format_size_unit, fixed1_nonneg by assumption.
    fold k d t. by rewrite !string_app_assoc. }
  split; [apply round_half_even_near; lia|].
  intros Hlt. rewrite format_size_unit, fixed1_nonneg by assumption.
  unfold unit_index. destruct (Z.ltb_spec n 1024) as [_|?]; [|lia].
  change (1024 ^ Z.of_nat 0) with 1.
  assert (round_half_even (10 * n) 1 = 10 * n) as ->.
  { unfold round_half_even. rewrite Z.mod_1_r, Z.div_1_r. reflexivity. }
  rewrite Z.mul_comm, Z.div_mul, Z.mod_mul by lia.
  rewrite !string_app_assoc. f_equal.
Qed.

(** X19. Because the unit is picked before the rounding, a size just
    below the next power of 1024 is shown as 1024.0 of the smaller unit:
    for k = 1, 2, 3 every size from 1023.95 * 1024^k up to 1024^(k+1) - 1
    prints as 1024.0KB, 1024.0MB or 1024.0GB. *)
Theorem format_size_shows_1024_of_smaller_unit (n : Z) (k : nat) :
  (1 <= k <= 3)%nat ->
  20479 * 1024 ^ Z.of_nat k <= 20 * n ->
  n < 1024 ^ Z.of_nat (S k) ->
  _format_size n = "1024.0" +:+ nth k ["B"; "KB"; "MB"; "GB"; "TB"] EmptyString.
Proof.
  intros Hk Hlo Hhi.
  assert (forall d, 0 < d -> 20479 * d <= 20 * n -> n < 1024 * d ->
                    round_half_even (10 * n) d = 10240) as Hround.
  { intros d Hd H1 H2. unfold round_half_even.
    pose proof (Z.div_mod (10 * n) d ltac:(lia)) as Hdm.
    pose proof (Z.mod_pos_bound (10 * n) d Hd) as Hr.
    assert ((10 * n) / d = 10239) as Hq by nia.
    rewrite Hq in *.
    destruct (Z.ltb_spec d (2 * ((10 * n) mod d))) as [_|?]; [reflexivity|].
    destruct (Z.eqb_spec d (2 * ((10 * n) mod d))) as [_|?]; [reflexivity|lia]. }
  assert (k = 1 \/ k = 2 \/ k = 3)%nat as [-> | [-> | ->]] by lia.
  - change (1024 ^ Z.of_nat 1) with 1024 in *.
    change (1024 ^ Z.of_nat 2) with (1024 * 1024) in *.
    rewrite format_size_unit, fixed1_nonneg by lia. unfold unit_index.
    destruct (Z.ltb_spec n 1024); [lia|].
    destruct (Z.ltb_spec n (1024 ^ 2)); [|lia].
    change (1024 ^ Z.of_nat 1) with 1024.
    by rewrite Hround by lia.
  - change (1024 ^ Z.of_nat 2) with 1048576 in *.
    change (1024 ^ Z.of_nat 3) with (1024 * 1048576) in *.
    rewrite format_size_unit, fixed1_nonneg by lia. unfold unit_index.
    destruct (Z.ltb_spec n 1024); [lia|].
    destruct (Z.ltb_spec n (1024 ^ 2)); [lia|].
    destruct (Z.ltb_spec n (1024 ^ 3)); [|lia].
    change (1024 ^ Z.of_nat 2) with 1048576.
    by rewrite Hround by lia.
  - change (1024 ^ Z.of_nat 3) with 1073741824 in *.
    change (1024 ^ Z.of_nat 4) with (1024 * 1073741824) in *.
    rewrite format_size_unit, fixed1_nonneg by lia. unfold unit_index.
    destruct (Z.ltb_spec n 1024); [lia|].
    destruct (Z.ltb_spec n (1024 ^ 2)); [lia|].
    destruct (Z.ltb_spec n (1024 ^ 3)); [lia|].
    destruct (Z.ltb_spec n (1024 ^ 4)); [|lia].
    change (1024 ^ Z.of_nat 3) with 1073741824.
    by rewrite Hround by lia.
Qed.

(** X20. A backup keeps no earlier copy. With backups enabled and no
    override, when the place of a file's copy in the backup directory
    already holds a regular file and the backup succeeds, that file is
    replaced by the current content of the source. *)
Theorem backup_overwrites_older_copy
    (h : Host) (self : ImageCompressor) (p rel : Path.t) (older : file)
    (w : world) :
  force_no_backup_check self = false ->
  backup_enabled self = true ->
  Path.relative_to p (Path.mk true (cwd h)) = Some rel ->
  file_at w (key h (Path.joinpath (backup_dir self) rel)) = Some older ->
  (run h (create_backup self p) w).1 = inr true ->
  exists f,
    file_at w (key h p) = Some f /\
    file_at (run h (create_backup self p) w).2
      (key h (Path.joinpath (backup_dir self) rel)) = Some f.
Proof.
  intros Hf He Hrel Hold. rewrite create_backup_enabled by assumption. cbv zeta.
  rewrite Hrel. set (bf := Path.joinpath (backup_dir self) rel) in *.
  apply file_at_node in Hold.
  pose proof (sem_mkdir_effects h (backup_dir self) false true w) as (_&_&_&Hn1&Hf1).
  destruct (sem_mkdir h (backup_dir self) false true w) as [[e|[]] w1];
    cbn [fst snd] in *; [discriminate|].
  pose proof (sem_mkdir_effects h (Path.parent bf) true true w1) as (_&_&_&Hn2&Hf2).
  destruct (sem_mkdir h (Path.parent bf) true true w1) as [[e|[]] w2];
    cbn [fst snd] in *; [discriminate|].
  assert (node_at w2 (key h bf) = Some (File older)) as Hold2.
  { rewrite Hn2, Hn1; [exact Hold|by rewrite Hold|by rewrite Hn1, Hold]. }
  destruct (sem_copy2_spec h p bf w2)
    as [(f & Hr & Hsrc & Hw & Hne & Hnd)|(e & Hr & Hw)];
    destruct (sem_copy2 h p bf w2) as [[e'|[]] w3]; cbn [fst snd] in *;
    try discriminate; subst w3.
  intros _. exists f. split; [by rewrite <- Hf1, <- Hf2|].
  rewrite (copy_target_file h p bf w2 older Hold2) in *.
  apply file_at_node, node_at_write_eq. by eapply node_at_nonempty.
Qed.

(** X21. An empty file is never replaced: nothing is strictly smaller than
    zero bytes, so the job of a file of size 0 returns False and leaves the
    file as it was. *)
Theorem empty_file_is_never_replaced
    (h : Host) (self : ImageCompressor) (input : Path.t) (q : Z) (w : world)
    (f : file) :
  file_at w (key h input) = Some f ->
  size f = 0 ->
  let r := run h (compress_image self input q) w in
  r.1 = inr false /\
  file_at r.2 (key h input) = Some f /\
  st_compressed (stats r.2) = st_compressed (stats w).
Proof.
  intros Hf Hsize r.
  pose proof (job_original h self input q w) as Ho. fold r in Ho.
  assert (r.1 = inr false) as Hr.
  { destruct (compress_image_returns h self input q w) as [[|] Hb]; [|exact Hb].
    fold r in Hb. rewrite Hb in Ho. destruct Ho as (orig & t & Horig & _ & Hlt).
    rewrite Hf in Horig. injection Horig as <-.
    unfold size in *. lia. }
  split; [exact Hr|]. rewrite Hr in Ho. split.
  - unfold file_at. rewrite Ho. exact Hf.
  - destruct (job_accounting h self input q w) as (o & Hres & _ & _ & Hc & _).
    fold r in Hres, Hc. rewrite Hres in Hr. injection Hr as Hr. rewrite Hr in Hc. lia.
Qed.

(* ===================================================================== *)
(** * The further properties on concrete runs *)
(* ===================================================================== *)

Lemma find_image_files_not_directory_witness :
  node_at Gallery.disk (key Demo.host Gallery.beach) <> Some Dir /\
  find_image_files Demo.host ".image_backup" Gallery.beach true Gallery.disk = [].
Proof.
  assert (node_at Gallery.disk (key Demo.host Gallery.beach) <> Some Dir) as H
    by (vm_compute; discriminate).
  split; [exact H|].
  exact (find_image_files_not_directory Demo.host ".image_backup" Gallery.beach true
           Gallery.disk H).
Defined.

Lemma find_image_files_absolute_keeps_backups_witness :
  Path.absolute Gallery.pics = true /\
  startswith ".image_backup" "/" = false /\
  find_image_files Demo.host ".image_backup" Gallery.pics true Gallery.disk
  = merge_sort String.le
      (map str (filter (fun p => is_image Demo.host Gallery.disk p = true)
                       (glob Demo.host Gallery.pics true Gallery.disk))) /\
  find_image_files Demo.host ".image_backup" Gallery.pics true Gallery.disk
  = ["/home/pics/.image_backup/photo.jpg"; "/home/pics/photo.jpg";
     "/home/pics/trip/beach.PNG"].
Proof.
  split; [reflexivity|]. split; [reflexivity|]. split.
  - apply (find_image_files_absolute_keeps_backups Demo.host ".image_backup"
             Gallery.pics true Gallery.disk); [reflexivity|discriminate|reflexivity].
  - vm_compute. reflexivity.
Defined.

Lemma find_image_files_sorted_without_repeats_witness :
  map_Forall (fun k _ => Forall (fun x => slash_free x = true) k) (fs Gallery.disk) /\
  Sorted String.le
    (find_image_files Demo.host ".image_backup" Gallery.here true Gallery.disk) /\
  NoDup (find_image_files Demo.host ".image_backup" Gallery.here true Gallery.disk).
Proof.
  assert (map_Forall (fun k _ => Forall (fun x => slash_free x = true) k)
            (fs Gallery.disk)) as H.
  { apply map_Forall_to_list.
    let l := eval vm_compute in (map_to_list (fs Gallery.disk)) in
    assert (map_to_list (fs Gallery.disk) = l) as -> by (vm_compute; reflexivity).
    repeat constructor. }
  split; [exact H|].
  exact (find_image_files_sorted_without_repeats Demo.host ".image_backup"
           Gallery.here true Gallery.disk H).
Defined.

Lemma relative_scan_compresses_nothing_witness :
  Path.absolute Gallery.here = false /\
  "photo.jpg" ∈ find_image_files Demo.host ".image_backup" Gallery.here true
                  Gallery.disk /\
  exists p f,
    "photo.jpg" = str p /\
    Path.absolute p = false /\
    file_at Gallery.disk (key Demo.host p) = Some f /\
    (run Demo.host (compress_image Demo.with_backup p 85) Gallery.disk).1
      = inr false /\
    forall k,
      file_at (run Demo.host (compress_image Demo.with_backup p 85) Gallery.disk).2 k
      = file_at Gallery.disk k.
Proof.
  assert ("photo.jpg" ∈ find_image_files Demo.host ".image_backup" Gallery.here true
                          Gallery.disk) as Hin.
  { assert (find_image_files Demo.host ".image_backup" Gallery.here true Gallery.disk
            = ["photo.jpg"; "trip/beach.PNG"]) as -> by (vm_compute; reflexivity).
    left. }
  split; [reflexivity|]. split; [exact Hin|].
  destruct (relative_scan_compresses_nothing Demo.host Demo.with_backup
              ".image_backup" Gallery.here true Gallery.disk Gallery.disk 85
              "photo.jpg" eq_refl eq_refl eq_refl Hin)
    as (p & f & Hs & Hp & Hf & Hr & Hfiles & _).
  exists p, f. auto.
Defined.

Lemma backup_copy_is_listed_witness :
  (run Demo.host (create_backup Demo.with_backup Demo.photo) Gallery.disk).1
    = inr true /\
  exists tail f,
    file_at Gallery.disk (key Demo.host Demo.photo) = Some f /\
    file_at (run Demo.host (create_backup Demo.with_backup Demo.photo) Gallery.disk).2
      (cwd Demo.host ++ Path.parts (backup_dir Demo.with_backup) ++ tail) = Some f /\
    str (Path.mk true (cwd Demo.host ++ Path.parts (backup_dir Demo.with_backup) ++ tail))
      ∈ find_image_files Demo.host ".image_backup" (Path.mk true (cwd Demo.host)) true
          (run Demo.host (create_backup Demo.with_backup Demo.photo) Gallery.disk).2.
Proof.
  assert ((run Demo.host (create_backup Demo.with_backup Demo.photo) Gallery.disk).1
          = inr true) as Hok by (vm_compute; reflexivity).
  split; [exact Hok|].
  apply (backup_copy_is_listed Demo.host Demo.with_backup ".image_backup" Demo.photo
           Gallery.disk); try reflexivity; try exact Hok.
  - discriminate.
  - vm_compute. set_solver.
Defined.


Lemma scratch_file_never_outlives_job_witness :
  let temp := Path.mk true ["tmp"; "tmpa.jpg"] in
  is_Some (node_at Demo.disk (key Demo.host Demo.photo)) /\
  run Demo.host (create_backup Demo.no_backup Demo.photo) Demo.disk
    = (inr true, Demo.disk) /\
  (sem_tempfile Demo.host (lower (Path.suffix Demo.photo)) Demo.disk).1 = inr temp /\
  node_at Demo.disk (key Demo.host temp) = None /\
  node_at (run Demo.host (compress_image Demo.no_backup Demo.photo 85) Demo.disk).2
    (key Demo.host temp) = None.
Proof.
  intros temp.
  assert (is_Some (node_at Demo.disk (key Demo.host Demo.photo))) as H1
    by (vm_compute; eauto).
  assert (sem_tempfile Demo.host (lower (Path.suffix Demo.photo)) Demo.disk
          = (inr temp,
             (sem_tempfile Demo.host (lower (Path.suffix Demo.photo)) Demo.disk).2))
    as H3 by (vm_compute; reflexivity).
  destruct (scratch_file_never_outlives_job Demo.host Demo.no_backup Demo.photo 85
              Demo.disk Demo.disk _ temp H1 eq_refl H3) as (Hfree & _ & Hgone).
  split; [exact H1|]. split; [reflexivity|]. split; [by rewrite H3|]. auto.
Defined.

Lemma quality_only_matters_for_jpeg_witness :
  lower (Path.suffix Demo.logo) = ".png" /\
  compress_image Demo.with_backup Demo.logo 85
  = compress_image Demo.with_backup Demo.logo 10.
Proof.
  split; [reflexivity|].
  apply (quality_only_matters_for_jpeg Demo.with_backup Demo.logo 85 10);
    vm_compute; discriminate.
Defined.

Lemma cwebp_is_never_consulted_witness :
  available_tools Demo.with_backup cwebp = true /\
  available_tools Gallery.without_cwebp cwebp = false /\
  compress_image Demo.with_backup Demo.photo 85
  = compress_image Gallery.without_cwebp Demo.photo 85.
Proof.
  split; [reflexivity|]. split; [reflexivity|].
  apply (cwebp_is_never_consulted Demo.with_backup Gallery.without_cwebp Demo.photo 85);
    try reflexivity.
  intros [] Ht; try reflexivity. contradiction.
Defined.

Lemma unavailable_optimisers_skip_witness :
  has_strategy (lower (Path.suffix Demo.photo)) = true /\
  tools_for (lower (Path.suffix Demo.photo)) = [mozjpeg] /\
  available_tools Gallery.no_tools mozjpeg = false /\
  (run Demo.host (compress_image Gallery.no_tools Demo.photo 85) Demo.disk).1
    = inr false /\
  launches (trace (run Demo.host (compress_image Gallery.no_tools Demo.photo 85)
                     Demo.disk).2) = [] /\
  outcomes (trace (run Demo.host (compress_image Gallery.no_tools Demo.photo 85)
                     Demo.disk).2) = [JobSkipped].
Proof.
  assert (Forall (fun t => available_tools Gallery.no_tools t = false)
                 (tools_for (lower (Path.suffix Demo.photo)))) as Hnone
    by (repeat constructor).
  destruct (unavailable_optimisers_skip Demo.host Gallery.no_tools Demo.photo 85
              Demo.disk eq_refl Hnone) as (Hr & Hl & _ & _ & Hlog).
  assert (sem_tempfile Demo.host (lower (Path.suffix Demo.photo)) Demo.disk
          = (inr (Path.mk true ["tmp"; "tmpa.jpg"]),
             (sem_tempfile Demo.host (lower (Path.suffix Demo.photo)) Demo.disk).2))
    as Ht by (vm_compute; reflexivity).
  destruct (Hlog (Demo.blob 8 10) Demo.disk _ _ eq_refl eq_refl Ht) as (_ & Ho & _).
  repeat split; try reflexivity; assumption.
Defined.

Lemma job_leaves_other_files_alone_witness :
  plain (cwd Demo.host) = true /\
  plain (tempdir Demo.host) = true /\
  plain (Path.parts Demo.photo) = true /\
  plain (Path.parts (backup_dir Demo.with_backup)) = true /\
  node_at Demo.disk (key Demo.host Demo.logo) = Some (File (Demo.blob 4 13)) /\
  key Demo.host Demo.logo <> log_file Demo.host /\
  (run Demo.host (compress_image Demo.with_backup Demo.photo 85) Demo.disk).1
    = inr true /\
  node_at (run Demo.host (compress_image Demo.with_backup Demo.photo 85) Demo.disk).2
    (key Demo.host Demo.logo) = Some (File (Demo.blob 4 13)).
Proof.
  do 5 (split; [reflexivity|]). split; [discriminate|].
  split; [vm_compute; reflexivity|].
  apply (job_leaves_other_files_alone Demo.host Demo.with_backup Demo.photo 85
           Demo.disk (key Demo.host Demo.logo) (File (Demo.blob 4 13)));
    [reflexivity|reflexivity|reflexivity|reflexivity|reflexivity|discriminate| | |
     discriminate].
  - intros x. discriminate.
  - intros tail. discriminate.
Defined.

Lemma backup_directory_created_before_path_check_witness :
  is_Some (node_at Demo.disk (key Demo.host Gallery.elsewhere)) /\
  Path.relative_to Gallery.elsewhere (Path.mk true (cwd Demo.host)) = None /\
  node_at Demo.disk (key Demo.host (backup_dir Demo.with_backup)) = None /\
  (run Demo.host (compress_image Demo.with_backup Gallery.elsewhere 85) Demo.disk).1
    = inr false /\
  node_at (run Demo.host (compress_image Demo.with_backup Gallery.elsewhere 85)
             Demo.disk).2 (key Demo.host (backup_dir Demo.with_backup)) = Some Dir.
Proof.
  assert (is_Some (node_at Demo.disk (key Demo.host Gallery.elsewhere))) as H1
    by (vm_compute; eauto).
  destruct (backup_directory_created_before_path_check Demo.host Demo.with_backup
              Gallery.elsewhere 85 Demo.disk eq_refl eq_refl H1 eq_refl eq_refl eq_refl)
    as (Hr & _ & Hdir).
  repeat split; try assumption; reflexivity.
Defined.

Lemma byte_totals_add_up_witness :
  let w' := (run Demo.host
               (process_files_sequential Demo.with_backup [Demo.photo; Demo.logo] 85)
               Demo.disk).2 in
  process_files_serial Demo.host Demo.with_backup [Demo.photo; Demo.logo] 85
    Demo.disk w' /\
  byte_totals_coherent (stats Demo.disk) /\
  byte_totals_coherent (stats w') /\
  st_compressed (stats w') = 1 /\
  0 < st_space_saved (stats w') <= st_original_size (stats w').
Proof.
  intros w'.
  assert (process_files_serial Demo.host Demo.with_backup [Demo.photo; Demo.logo] 85
            Demo.disk w') as Hrun by constructor.
  assert (byte_totals_coherent (stats Demo.disk)) as H0
    by (unfold byte_totals_coherent; simpl; lia).
  assert (st_compressed (stats w') = 1) as Hc by (vm_compute; reflexivity).
  destruct (byte_totals_add_up Demo.host Demo.with_backup [Demo.photo; Demo.logo] 85
              Demo.disk w' Hrun H0) as (H1 & H2).
  split; [exact Hrun|]. split; [exact H0|]. split; [exact H1|]. split; [exact Hc|].
  apply H2. rewrite Hc. lia.
Defined.

Lemma format_size_picks_unit_then_rounds_witness :
  0 <= 1280 < 2 ^ 53 /\
  unit_index 1280 = 1%nat /\
  round_half_even (10 * 1280) 1024 = 12 /\
  _format_size 1280 = "1.2KB" /\
  _format_size 1023 = "1023.0B".
Proof.
  assert (0 <= 1280 < 2 ^ 53) as H by (split; [lia|reflexivity]).
  destruct (format_size_picks_unit_then_rounds 1280 H) as (Htext & _ & _).
  split; [exact H|]. split; [reflexivity|]. split; [reflexivity|].
  split; [rewrite Htext|]; vm_compute; reflexivity.
Defined.

Lemma format_size_shows_1024_of_smaller_unit_witness :
  1048575 < 1024 ^ 2 /\ _format_size 1048575 = "1024.0KB".
Proof.
  split; [reflexivity|].
  apply (format_size_shows_1024_of_smaller_unit 1048575 1);
    [lia|vm_compute; discriminate|reflexivity].
Defined.

Lemma backup_overwrites_older_copy_witness :
  let place := key Demo.host (Path.joinpath (backup_dir Demo.with_backup)
                                (Path.mk false ["photo.jpg"])) in
  file_at Gallery.disk place = Some (Demo.blob 8 10) /\
  file_at Gallery.disk (key Demo.host Demo.photo) = Some (Demo.blob 4 50) /\
  file_at (run Demo.host (create_backup Demo.with_backup Demo.photo) Gallery.disk).2
    place = Some (Demo.blob 4 50).
Proof.
  intros place.
  assert ((run Demo.host (create_backup Demo.with_backup Demo.photo) Gallery.disk).1
          = inr true) as Hok by (vm_compute; reflexivity).
  destruct (backup_overwrites_older_copy Demo.host Demo.with_backup Demo.photo
              (Path.mk false ["photo.jpg"]) (Demo.blob 8 10) Gallery.disk
              eq_refl eq_refl eq_refl eq_refl Hok) as (f & Hsrc & Hcopy).
  assert (file_at Gallery.disk (key Demo.host Demo.photo) = Some (Demo.blob 4 50))
    as Hphoto by reflexivity.
  rewrite Hphoto in Hsrc. injection Hsrc as <-.
  split; [reflexivity|]. split; [exact Hphoto|exact Hcopy].
Defined.

Lemma empty_file_is_never_replaced_witness :
  let r := run Demo.host (compress_image Demo.no_backup Gallery.blank 85)
             Gallery.blank_disk in
  file_at Gallery.blank_disk (key Demo.host Gallery.blank)
    = Some {| data := []; mtime := 7 |} /\
  has_strategy (lower (Path.suffix Gallery.blank)) = true /\
  launches (trace r.2)
    = [Cjpeg 85 (Path.mk true ["tmp"; "tmpa.jpg.tmp"])
                (Path.mk true ["tmp"; "tmpa.jpg"])] /\
  head (trace r.2) = Some (EvLog Info (MsgNotSmaller Gallery.blank)) /\
  r.1 = inr false /\
  file_at r.2 (key Demo.host Gallery.blank) = Some {| data := []; mtime := 7 |} /\
  st_compressed (stats r.2) = 0.
Proof.
  intros r.
  assert (file_at Gallery.blank_disk (key Demo.host Gallery.blank)
          = Some {| data := []; mtime := 7 |}) as Hf by (vm_compute; reflexivity).
  destruct (empty_file_is_never_replaced Demo.host Demo.no_backup Gallery.blank 85
              Gallery.blank_disk _ Hf eq_refl) as (Hr & Hsame & Hc).
  split; [exact Hf|]. split; [reflexivity|].
  split; [vm_compute; reflexivity|]. split; [vm_compute; reflexivity|].
  split; [exact Hr|]. split; [exact Hsame|exact Hc].
Defined.
